(** * goutte: a capacity-bounded LRU cache with heap-scheduled TTLs

    A shallow embedding of [cache.go] and [heap.go] of package goutte,
    together with the parts of Go's [container/heap] and
    [container/list] that the cache calls.

    Pointers are handles into two append-only arenas held by the cache
    state: [elems] for the [*entry] stored in each [*list.Element], and
    [exps] for the [*expEntry] objects shared between an entry and the
    expiration heap.  Instants ([time.Time]) and durations are integers
    counted in nanoseconds; the zero [time.Time] is [0].  Every method
    that calls [time.Now()] takes the observed instant as the argument
    [now].  The mutex is not modelled: every method body and every locked
    region of the sweeper is one atomic transition. *)

From Stdlib Require Import ZArith Lia.
From stdpp Require Import gmap list strings.

Open Scope Z_scope.

(** ** Panics and the state-and-panic monad *)

Inductive panic_value : Type :=
  | PanicMsg (msg : string)   (* panic("...") *)
  | IndexOutOfRange           (* slice index out of range *)
  | NilPointer                (* a handle that names no object *)
  | OutOfFuel.                (* a loop of the model ran out of fuel *)

Inductive outcome (S A : Type) : Type :=
  | Ret (a : A) (s : S)
  | Panic (p : panic_value) (s : S).
Arguments Ret {S A} a s.
Arguments Panic {S A} p s.

Definition M (S A : Type) : Type := S -> outcome S A.

Definition ret {S A} (a : A) : M S A := fun s => Ret a s.

Definition bind {S A B} (m : M S A) (f : A -> M S B) : M S B :=
  fun s => match m s with
           | Ret a s' => f a s'
           | Panic p s' => Panic p s'
           end.

Definition panic {S A} (p : panic_value) : M S A := fun s => Panic p s.
Definition get {S} : M S S := fun s => Ret s s.
Definition modify {S} (f : S -> S) : M S unit := fun s => Ret tt (f s).

Notation "'let*' x ':=' m 'in' k" := (bind m (fun x => k))
  (at level 10, x name, m at level 100, k at level 200).
Notation "m ;; k" := (bind m (fun _ => k))
  (at level 100, k at level 200, right associativity).

Section Goutte.

Context {K : Type} `{Countable K} {V : Type}.
(** The zero value of the value type [V] ([var zero V]). *)
Variable zero : V.

(** ** heap.go: expiration records *)

Record expEntry : Type := mkExp {
  exp_key : K;
  exp_expiration : Z;
  exp_index : Z;
  exp_canceled : bool
}.

Definition set_exp_expiration (t : Z) (x : expEntry) : expEntry :=
  mkExp (exp_key x) t (exp_index x) (exp_canceled x).
Definition set_exp_index (i : Z) (x : expEntry) : expEntry :=
  mkExp (exp_key x) (exp_expiration x) i (exp_canceled x).
Definition set_exp_canceled (b : bool) (x : expEntry) : expEntry :=
  mkExp (exp_key x) (exp_expiration x) (exp_index x) b.

(** The heap methods see the arena of records and the slice of handles. *)
Definition HeapSt : Type := (list expEntry * list nat)%type.

Definition deref (r : nat) : M HeapSt expEntry := fun s =>
  match s.1 !! r with
  | Some x => Ret x s
  | None => Panic NilPointer s
  end.

Definition assign (r : nat) (x : expEntry) : M HeapSt unit := fun s =>
  match s.1 !! r with
  | Some _ => Ret tt (<[r := x]> s.1, s.2)
  | None => Panic NilPointer s
  end.

Definition slice_at (i : Z) : M HeapSt nat := fun s =>
  if 0 <=? i then
    match s.2 !! Z.to_nat i with
    | Some r => Ret r s
    | None => Panic IndexOutOfRange s
    end
  else Panic IndexOutOfRange s.

Definition slice_set (i : Z) (r : nat) : M HeapSt unit := fun s =>
  if (0 <=? i) && (i <? Z.of_nat (length s.2)) then
    Ret tt (s.1, <[Z.to_nat i := r]> s.2)
  else Panic IndexOutOfRange s.

(** [func (h expHeap[K]) Len() int] *)
Definition Len : M HeapSt Z := fun s => Ret (Z.of_nat (length s.2)) s.

(** [func (h expHeap[K]) Less(i, j int) bool] *)
Definition Less (i j : Z) : M HeapSt bool :=
  let* ri := slice_at i in
  let* xi := deref ri in
  let* rj := slice_at j in
  let* xj := deref rj in
  ret (exp_expiration xi <? exp_expiration xj).

(** [func (h expHeap[K]) Swap(i, j int)] *)
Definition Swap (i j : Z) : M HeapSt unit :=
  let* rj := slice_at j in
  let* ri := slice_at i in
  slice_set i rj ;;
  slice_set j ri ;;
  let* r := slice_at i in
  let* x := deref r in
  assign r (set_exp_index i x) ;;
  let* r := slice_at j in
  let* x := deref r in
  assign r (set_exp_index j x).

(** [func (h *expHeap[K]) Push(x interface{})] *)
Definition Push (item : nat) : M HeapSt unit :=
  let* n := Len in
  let* x := deref item in
  assign item (set_exp_index n x) ;;
  modify (fun s => (s.1, s.2 ++ [item])).

(** [func (h *expHeap[K]) Pop() interface{}] *)
Definition Pop : M HeapSt nat :=
  let* n := Len in
  let* item := slice_at (n - 1) in
  let* x := deref item in
  assign item (set_exp_index (-1) x) ;;
  modify (fun s => (s.1, take (Z.to_nat (n - 1)) s.2)) ;;
  ret item.

(** ** container/heap, instantiated at [expHeap] *)

(** [func up(h Interface, j int)]; [j] strictly decreases, so
    [S (Z.to_nat j)] iterations always suffice. *)
Fixpoint up_loop (fuel : nat) (j : Z) : M HeapSt unit :=
  match fuel with
  | O => panic OutOfFuel
  | S fuel' =>
      let i := (j - 1) `quot` 2 in
      if i =? j then ret tt
      else
        let* lt := Less j i in
        if negb lt then ret tt
        else Swap i j ;; up_loop fuel' i
  end.

Definition up (j : Z) : M HeapSt unit := up_loop (S (Z.to_nat j)) j.

(** [func down(h Interface, i0, n int) bool]; [i] strictly increases
    below [n], so [S (Z.to_nat n)] iterations always suffice. *)
Fixpoint down_loop (fuel : nat) (i0 i n : Z) : M HeapSt bool :=
  match fuel with
  | O => panic OutOfFuel
  | S fuel' =>
      let j1 := 2 * i + 1 in
      if (n <=? j1) || (j1 <? 0) then ret (i0 <? i)
      else
        let j2 := j1 + 1 in
        let* lt21 := (if j2 <? n then Less j2 j1 else ret false) in
        let j := if lt21 then j2 else j1 in
        let* lt := Less j i in
        if negb lt then ret (i0 <? i)
        else Swap i j ;; down_loop fuel' i0 j n
  end.

Definition down (i0 n : Z) : M HeapSt bool :=
  down_loop (S (Z.to_nat n)) i0 i0 n.

(** [func Init(h Interface)]: [for i := n/2 - 1; i >= 0; i--]. *)
Fixpoint init_loop (k : nat) (n : Z) : M HeapSt unit :=
  match k with
  | O => ret tt
  | S k' => down (Z.of_nat k') n ;; init_loop k' n
  end.

Definition heap_Init : M HeapSt unit :=
  let* n := Len in
  init_loop (Z.to_nat (n `quot` 2)) n.

(** [func Push(h Interface, x any)] *)
Definition heap_Push (item : nat) : M HeapSt unit :=
  Push item ;;
  let* n := Len in
  up (n - 1).

(** [func Pop(h Interface) any] *)
Definition heap_Pop : M HeapSt nat :=
  let* len := Len in
  let n := len - 1 in
  Swap 0 n ;;
  down 0 n ;;
  Pop.

(** [func Fix(h Interface, i int)] *)
Definition heap_Fix (i : Z) : M HeapSt unit :=
  let* len := Len in
  let* moved := down i len in
  if negb moved then up i else ret tt.

(** ** cache.go: entries and the cache *)

Record entry : Type := mkEntry {
  ent_key : K;
  ent_value : V;
  ent_expiration : Z;
  ent_exp : option nat
}.

Definition set_ent_exp (r : option nat) (e : entry) : entry :=
  mkEntry (ent_key e) (ent_value e) (ent_expiration e) r.

Record Cache : Type := mkCache {
  capacity : Z;            (* maximum number of items *)
  ll : list nat;           (* LRU order of element handles, front first *)
  cache : gmap K nat;      (* key -> element handle *)
  expHeap : list nat;      (* min-heap of record handles *)
  updateCh : bool;         (* a signal is pending in the 1-slot channel *)
  elems : list entry;      (* arena: element handle -> its entry *)
  exps : list expEntry     (* arena: record handle -> its record *)
}.

Definition set_capacity (n : Z) (c : Cache) : Cache :=
  mkCache n (ll c) (cache c) (expHeap c) (updateCh c) (elems c) (exps c).
Definition set_ll (l : list nat) (c : Cache) : Cache :=
  mkCache (capacity c) l (cache c) (expHeap c) (updateCh c) (elems c) (exps c).
Definition set_cache (m : gmap K nat) (c : Cache) : Cache :=
  mkCache (capacity c) (ll c) m (expHeap c) (updateCh c) (elems c) (exps c).
Definition set_updateCh (b : bool) (c : Cache) : Cache :=
  mkCache (capacity c) (ll c) (cache c) (expHeap c) b (elems c) (exps c).
Definition set_elems (l : list entry) (c : Cache) : Cache :=
  mkCache (capacity c) (ll c) (cache c) (expHeap c) (updateCh c) l (exps c).
Definition set_heap (s : HeapSt) (c : Cache) : Cache :=
  mkCache (capacity c) (ll c) (cache c) s.2 (updateCh c) (elems c) s.1.

(** Run a heap operation on [c.expHeap]. *)
Definition with_heap {A} (m : M HeapSt A) : M Cache A := fun c =>
  match m (exps c, expHeap c) with
  | Ret a s => Ret a (set_heap s c)
  | Panic p s => Panic p (set_heap s c)
  end.

(** [ele.Value.( *entry )] and assignments through the entry pointer. *)
Definition load_elem (ele : nat) : M Cache entry := fun c =>
  match elems c !! ele with
  | Some ent => Ret ent c
  | None => Panic NilPointer c
  end.

Definition store_elem (ele : nat) (ent : entry) : M Cache unit := fun c =>
  match elems c !! ele with
  | Some _ => Ret tt (set_elems (<[ele := ent]> (elems c)) c)
  | None => Panic NilPointer c
  end.

(** [&expEntry[K]{key: key, expiration: expiration}] *)
Definition new_exp (key : K) (expiration : Z) : M Cache nat := fun c =>
  Ret (length (exps c))
      (set_heap (exps c ++ [mkExp key expiration 0 false], expHeap c) c).

(** [ent.exp.canceled = true] *)
Definition cancel (r : nat) : M Cache unit :=
  with_heap (let* x := deref r in assign r (set_exp_canceled true x)).

(** *** container/list on the list of handles *)

Definition list_Remove (ele : nat) (l : list nat) : list nat :=
  filter (fun e => e <> ele) l.

Definition list_MoveToFront (ele : nat) (l : list nat) : list nat :=
  if decide (ele ∈ l) then ele :: list_Remove ele l else l.

Definition list_PushFront (ent : entry) : M Cache nat := fun c =>
  let ele := length (elems c) in
  Ret ele (set_ll (ele :: ll c) (set_elems (elems c ++ [ent]) c)).

Definition list_Len (c : Cache) : Z := Z.of_nat (length (ll c)).

(** *** Constructor and methods *)

Definition NewCache (cap : Z) : panic_value + Cache :=
  if cap <=? 0 then inl (PanicMsg "capacity must be greater than zero")
  else
    match with_heap heap_Init (mkCache cap [] ∅ [] false [] []) with
    | Ret _ c => inr c
    | Panic p _ => inl p
    end.

Definition Get (key : K) (now : Z) : M Cache (V * bool) :=
  let* c := get in
  match cache c !! key with
  | Some ele =>
      let* ent := load_elem ele in
      if negb (ent_expiration ent =? 0) && (ent_expiration ent <? now) then
        modify (fun c => set_ll (list_Remove ele (ll c)) c) ;;
        modify (fun c => set_cache (delete key (cache c)) c) ;;
        ret (zero, false)
      else
        modify (fun c => set_ll (list_MoveToFront ele (ll c)) c) ;;
        ret (ent_value ent, true)
  | None => ret (zero, false)
  end.

Definition signalExpirationUpdate : M Cache unit :=
  modify (set_updateCh true).

Definition removeOldestLocked : M Cache unit :=
  let* c := get in
  match last (ll c) with
  | None => ret tt
  | Some ele =>
      let* ent := load_elem ele in
      match ent_exp ent with
      | Some r => cancel r
      | None => ret tt
      end ;;
      modify (fun c => set_ll (list_Remove ele (ll c)) c) ;;
      modify (fun c => set_cache (delete (ent_key ent) (cache c)) c)
  end.

Definition SetWithTTL (key : K) (value : V) (ttl now : Z) : M Cache unit :=
  let expiration := if 0 <? ttl then now + ttl else 0 in
  let* c := get in
  match cache c !! key with
  | Some ele =>
      let* ent := load_elem ele in
      store_elem ele (mkEntry (ent_key ent) value expiration (ent_exp ent)) ;;
      modify (fun c => set_ll (list_MoveToFront ele (ll c)) c) ;;
      if 0 <? ttl then
        match ent_exp ent with
        | Some r =>
            with_heap (let* x := deref r in
                       assign r (set_exp_expiration expiration x)) ;;
            let* i := with_heap (let* x := deref r in ret (exp_index x)) in
            with_heap (heap_Fix i)
        | None =>
            let* expE := new_exp key expiration in
            let* ent := load_elem ele in
            store_elem ele (set_ent_exp (Some expE) ent) ;;
            with_heap (heap_Push expE)
        end ;;
        signalExpirationUpdate
      else
        match ent_exp ent with
        | Some r =>
            cancel r ;;
            let* ent := load_elem ele in
            store_elem ele (set_ent_exp None ent)
        | None => ret tt
        end
  | None =>
      let* ele := list_PushFront (mkEntry key value expiration None) in
      modify (fun c => set_cache (<[key := ele]> (cache c)) c) ;;
      (if 0 <? ttl then
         let* expE := new_exp key expiration in
         let* ent := load_elem ele in
         store_elem ele (set_ent_exp (Some expE) ent) ;;
         with_heap (heap_Push expE) ;;
         signalExpirationUpdate
       else ret tt) ;;
      let* c := get in
      if capacity c <? list_Len c then removeOldestLocked else ret tt
  end.

(** [Set] observes no clock: with [ttl = 0] the branch calling
    [time.Now()] is not taken. *)
Definition Set_ (key : K) (value : V) : M Cache unit :=
  SetWithTTL key value 0 0.

Definition Delete (key : K) : M Cache unit :=
  let* c := get in
  match cache c !! key with
  | Some ele =>
      let* ent := load_elem ele in
      match ent_exp ent with
      | Some r => cancel r
      | None => ret tt
      end ;;
      modify (fun c => set_ll (list_Remove ele (ll c)) c) ;;
      modify (fun c => set_cache (delete key (cache c)) c)
  | None => ret tt
  end.

Definition Dump : M Cache unit :=
  modify (set_ll []) ;;
  modify (set_cache ∅) ;;
  modify (fun c => set_heap (exps c, []) c) ;;
  with_heap heap_Init.

(** [for c.ll.Len() > c.capacity { c.removeOldestLocked() }] *)
Fixpoint evict_loop (fuel : nat) : M Cache unit :=
  let* c := get in
  if capacity c <? list_Len c then
    match fuel with
    | O => panic OutOfFuel
    | S fuel' => removeOldestLocked ;; evict_loop fuel'
    end
  else ret tt.

Definition SetCapacity (newCapacity : Z) : M Cache unit :=
  if newCapacity <=? 0 then
    panic (PanicMsg "new capacity must be greater than zero")
  else
    modify (set_capacity newCapacity) ;;
    let* c := get in
    evict_loop (length (ll c)).

(** *** expirationProcessor: the two locked regions of one iteration *)

Definition Hour : Z := 3600000000000.

(** First locked region: computes [waitDuration]; [None] stands for the
    [continue] taken after popping a canceled root. *)
Definition nextWait (now : Z) : M Cache (option Z) :=
  let* n := with_heap Len in
  if n =? 0 then ret (Some Hour)
  else
    let* next := with_heap (slice_at 0) in
    let* x := with_heap (deref next) in
    if exp_canceled x then
      with_heap heap_Pop ;;
      ret None
    else if now <? exp_expiration x then ret (Some (exp_expiration x - now))
    else ret (Some 0).

(** One pass through the body of [for c.expHeap.Len() > 0]; the result
    says whether the loop goes round again. *)
Definition sweep_iter (now : Z) : M Cache bool :=
  let* n := with_heap Len in
  if negb (0 <? n) then ret false
  else
    let* next := with_heap (slice_at 0) in
    let* x := with_heap (deref next) in
    if exp_canceled x then
      with_heap heap_Pop ;;
      ret true
    else
      let* x := with_heap (deref next) in
      if now <? exp_expiration x then ret false
      else
        with_heap heap_Pop ;;
        let* x := with_heap (deref next) in
        let* c := get in
        match cache c !! exp_key x with
        | Some ele =>
            let* ent := load_elem ele in
            if negb (ent_expiration ent =? 0)
               && negb (now <? ent_expiration ent) then
              modify (fun c => set_ll (list_Remove ele (ll c)) c) ;;
              modify (fun c => set_cache (delete (exp_key x) (cache c)) c)
            else ret tt
        | None => ret tt
        end ;;
        ret true.

Fixpoint sweep_loop (fuel : nat) (now : Z) : M Cache unit :=
  let* again := sweep_iter now in
  if again then
    match fuel with
    | O => panic OutOfFuel
    | S fuel' => sweep_loop fuel' now
    end
  else ret tt.

(** Second locked region: remove all expired entries.  Every pass that
    goes round again pops one record, so [length c.expHeap] is enough. *)
Definition sweep (now : Z) : M Cache unit :=
  let* c := get in
  sweep_loop (length (expHeap c)) now.

(** *** Public operations as data, and the states they reach *)

Inductive op : Type :=
  | OpGet (key : K) (now : Z)
  | OpSet (key : K) (value : V)
  | OpSetWithTTL (key : K) (value : V) (ttl now : Z)
  | OpDelete (key : K)
  | OpDump
  | OpSetCapacity (newCapacity : Z)
  | OpNextWait (now : Z)
  | OpSweep (now : Z).

Definition exec (o : op) : M Cache unit :=
  match o with
  | OpGet key now => Get key now ;; ret tt
  | OpSet key value => Set_ key value
  | OpSetWithTTL key value ttl now => SetWithTTL key value ttl now
  | OpDelete key => Delete key
  | OpDump => Dump
  | OpSetCapacity n => SetCapacity n
  | OpNextWait now => nextWait now ;; ret tt
  | OpSweep now => sweep now
  end.

(** [time.Now()] never returns the zero instant. *)
Definition clock_ok (o : op) : Prop :=
  match o with
  | OpGet _ now | OpSetWithTTL _ _ _ now | OpNextWait now | OpSweep now =>
      0 < now
  | _ => True
  end.

Inductive reachable : Cache -> Prop :=
  | reach_new cap c : NewCache cap = inr c -> reachable c
  | reach_step c o c' :
      reachable c -> clock_ok o -> exec o c = Ret tt c' -> reachable c'.

(** ** Invariants *)

(** The heap's bookkeeping: handles are distinct, and every record knows
    its own position. *)
Definition hwf (s : HeapSt) : Prop :=
  NoDup s.2 /\
  forall (i : nat) (r : nat), s.2 !! i = Some r ->
    exists x, s.1 !! r = Some x /\ exp_index x = Z.of_nat i.

(** Heap operations only ever rewrite the [index] field of a record. *)
Definition hframe (s s' : HeapSt) : Prop :=
  length s'.1 = length s.1 /\
  forall r x, s.1 !! r = Some x ->
    exists x', s'.1 !! r = Some x' /\ exp_key x' = exp_key x /\
      exp_expiration x' = exp_expiration x /\
      exp_canceled x' = exp_canceled x.

(** Keys of the entries on the LRU list, front first. *)
Definition ll_keys (c : Cache) : list K :=
  omap (fun ele => ent_key <$> elems c !! ele) (ll c).

Record wf (c : Cache) : Prop := mk_wf {
  wf_nodup : NoDup (ll c);
  wf_elem : forall ele, ele ∈ ll c ->
    exists ent, elems c !! ele = Some ent /\
      cache c !! ent_key ent = Some ele;
  wf_map : forall k ele, cache c !! k = Some ele ->
    ele ∈ ll c /\ exists ent, elems c !! ele = Some ent /\ ent_key ent = k;
  wf_size : size (cache c) = length (ll c);
  wf_heap : hwf (exps c, expHeap c);
  wf_exp : forall ele ent r,
    ele ∈ ll c -> elems c !! ele = Some ent -> ent_exp ent = Some r ->
    r ∈ expHeap c /\
    exists x, exps c !! r = Some x /\ exp_key x = ent_key ent /\
      exp_expiration x = ent_expiration ent /\ exp_canceled x = false /\
      ent_expiration ent <> 0
}.

Definition cache_inv (c : Cache) : Prop :=
  wf c /\ 0 < capacity c /\ list_Len c <= capacity c.

(** Non-canceled records scheduled in the heap for [key]. *)
Definition is_pending (key : K) (c : Cache) (r : nat) : bool :=
  match exps c !! r with
  | Some x => bool_decide (exp_key x = key) && negb (exp_canceled x)
  | None => false
  end.

Definition pending (key : K) (c : Cache) : list nat :=
  filter (fun r => is_pending key c r = true) (expHeap c).

End Goutte.

Arguments expEntry K : clear implicits.
Arguments HeapSt K : clear implicits.
Arguments entry K V : clear implicits.
Arguments Cache K {_ _} V.
Arguments op K V : clear implicits.


(** ** States and relations used to describe what the methods do *)

Section Derived.
Context {K : Type} `{Countable K} {V : Type}.
Variable zero : V.
Implicit Types (c : Cache K V) (ent : entry K V) (x : expEntry K).
Implicit Types (s : HeapSt K).

(** What a heap operation that only permutes the slice guarantees. *)
Definition hperm (s s' : HeapSt K) : Prop :=
  hwf s' /\ hframe s s' /\ s'.2 ≡ₚ s.2.

(** A record handle some live entry points at. *)
Definition attached c (r : nat) : Prop :=
  exists ele ent, ele ∈ ll c /\ elems c !! ele = Some ent /\
    ent_exp ent = Some r.

(** The state after [ent.exp.canceled = true], when [ent.exp] is set. *)
Definition cancel_exp (r : option nat) c : Cache K V :=
  match r with
  | Some r =>
      match exps c !! r with
      | Some x => set_heap (<[r := set_exp_canceled true x]> (exps c), expHeap c) c
      | None => c
      end
  | None => c
  end.

(** The state after [c.ll.Remove(ele); delete(c.cache, key)]. *)
Definition unlink (ele : nat) (key : K) c : Cache K V :=
  set_cache (delete key (cache c)) (set_ll (list_Remove ele (ll c)) c).

(** The state after rewriting the entry of [ele] and moving it to the
    front. *)
Definition touch (ele : nat) ent c : Cache K V :=
  set_ll (list_MoveToFront ele (ll c))
    (set_elems (<[ele := ent]> (elems c)) c).

Definition expiry (ttl now : Z) : Z := if 0 <? ttl then now + ttl else 0.

(** The state after [PushFront] and the map store of a new key. *)
Definition link (key : K) (value : V) (t : Z) c : Cache K V :=
  set_cache (<[key := length (elems c)]> (cache c))
    (set_ll (length (elems c) :: ll c)
       (set_elems (elems c ++ [mkEntry key value t None]) c)).

Definition evict_if_over c : outcome (Cache K V) unit :=
  if capacity c <? list_Len c then removeOldestLocked c else Ret tt c.

(** The state after the sweeper's guarded removal of the entry stored
    under [key]. *)
Definition sweep_due (now : Z) (key : K) c : Cache K V :=
  match cache c !! key with
  | Some ele =>
      match elems c !! ele with
      | Some ent =>
          if negb (ent_expiration ent =? 0) && negb (now <? ent_expiration ent)
          then unlink ele key c else c
      | None => c
      end
  | None => c
  end.

(** A record scheduled for [key] at instant [t]. *)
Definition scheduled c (r : nat) (key : K) (t : Z) : Prop :=
  r ∈ expHeap c /\
  exists x, exps c !! r = Some x /\ exp_key x = key /\
    exp_expiration x = t /\ exp_canceled x = false.

(** A client: a list of calls made one after the other. *)
Fixpoint exec_all (os : list (op K V)) : M (Cache K V) unit :=
  match os with
  | [] => ret tt
  | o :: os' => exec zero o ;; exec_all os'
  end.

(** The cache a client holds after [NewCache cap] and the calls [os]. *)
Definition state_after (cap : Z) (os : list (op K V)) : option (Cache K V) :=
  match NewCache cap with
  | inr c =>
      match exec_all os c with
      | Ret _ c' => Some c'
      | Panic _ _ => None
      end
  | inl _ => None
  end.

(** From [c] to [c'] entries were only removed, and none that is not
    due at [now]. *)
Definition spares (now : Z) c c' : Prop :=
  elems c' = elems c /\ capacity c' = capacity c /\
  ll c' `sublist_of` ll c /\ cache c' ⊆ cache c /\
  forall k ele ent, cache c !! k = Some ele -> elems c !! ele = Some ent ->
    ent_expiration ent = 0 \/ now < ent_expiration ent ->
    cache c' !! k = Some ele.

(** The expiration found at position [i] of the slice. *)
Definition kat (s : HeapSt K) (i : nat) : option Z :=
  match s.2 !! i with
  | Some r => exp_expiration <$> s.1 !! r
  | None => None
  end.

(** Position [j] holds a child of position [i]. *)
Definition child (i j : nat) : Prop :=
  j = (2 * i + 1)%nat \/ j = (2 * i + 2)%nat.

(** The first [n] positions form a min-heap on expirations. *)
Definition hord_upto (n : nat) (s : HeapSt K) : Prop :=
  forall i j a b, child i j -> (j < n)%nat ->
    kat s i = Some a -> kat s j = Some b -> a <= b.

Definition hord (s : HeapSt K) : Prop := hord_upto (length s.2) s.

(** The child [down] compares with its parent: the right one when it is
    below [n] and strictly earlier than the left one. *)
Definition pick (s : HeapSt K) (i n : nat) : nat :=
  if decide (2 * i + 2 < n)%nat then
    match kat s (2 * i + 2), kat s (2 * i + 1) with
    | Some a2, Some a1 => if a2 <? a1 then (2 * i + 2)%nat else (2 * i + 1)%nat
    | _, _ => (2 * i + 1)%nat
    end
  else (2 * i + 1)%nat.

(** The expiration heap of the cache is a min-heap. *)
Definition sorted c : Prop := hord (exps c, expHeap c).

(** Every live entry that carries an expiration has a record. *)
Definition timed c : Prop :=
  forall ele ent, ele ∈ ll c -> elems c !! ele = Some ent ->
    ent_expiration ent <> 0 -> is_Some (ent_exp ent).

(** A step that leaves the heap slice, every record's expiration and
    every entry alone, and adds nothing to the list. *)
Definition quiet c c' : Prop :=
  expHeap c' = expHeap c /\
  (forall r, exp_expiration <$> exps c' !! r = exp_expiration <$> exps c !! r) /\
  elems c' = elems c /\ ll c' ⊆ ll c.

(** Where the sweep loop stops: nothing is scheduled, or the root is a
    record that is not canceled and not yet due. *)
Definition idle (now : Z) c : Prop :=
  expHeap c = [] \/
  exists r0 x, expHeap c !! 0%nat = Some r0 /\ exps c !! r0 = Some x /\
    exp_canceled x = false /\ now < exp_expiration x.


End Derived.

(** ** Clients with string keys and numeric values *)

Definition lru_ops : list (op string nat) :=
  [OpSet "a" 1%nat; OpSet "b" 2%nat; OpSet "c" 3%nat; OpGet "a" 1;
   OpSet "d" 4%nat].

Definition stale_ops : list (op string nat) :=
  [OpSetWithTTL "k" 1%nat 10 1; OpGet "k" 12; OpSetWithTTL "k" 2%nat 100 12].

Definition delete_ops : list (op string nat) :=
  [OpSetWithTTL "k" 1%nat 10 1; OpDelete "k"; OpSetWithTTL "k" 2%nat 100 12].

Definition mismatch_ops : list (op string nat) :=
  [OpSetWithTTL "k" 1%nat 10 1; OpGet "k" 12; OpSetWithTTL "k" 2%nat 1 12].

Definition plain_ops : list (op string nat) :=
  [OpSet "a" 1%nat; OpSet "b" 2%nat].

(** The cache after [plain_ops]: [b] in front of [a], nothing scheduled. *)
Definition plain_state : Cache string nat :=
  mkCache 2 [1%nat; 0%nat] (<["b" := 1%nat]> (<["a" := 0%nat]> ∅)) [] false
    [mkEntry "a" 1%nat 0 None; mkEntry "b" 2%nat 0 None] [].

Definition ttl_ops : list (op string nat) :=
  [OpSetWithTTL "k" 1%nat 10 1].

(** The cache after [ttl_ops]: one entry, due at instant 11. *)
Definition ttl_state : Cache string nat :=
  mkCache 2 [0%nat] (<["k" := 0%nat]> ∅) [0%nat] true
    [mkEntry "k" 1%nat 11 (Some 0%nat)] [mkExp "k" 11 0 false].

(** The heap of [ttl_state], on its own. *)
Definition ttl_heap : HeapSt string := ([mkExp "k" 11 0 false], [0%nat]).


(** * Proofs *)

Ltac mrun :=
  repeat (progress (unfold bind, get, modify, ret; simpl)).

Ltac clock := repeat constructor; simpl; lia.


Section HeapProofs.
Context {K : Type} `{Countable K}.
Implicit Types (s : HeapSt K) (x : expEntry K) (o : list (expEntry K)) (h : list nat).

Lemma bind_Ret {S A B} (m : M S A) (f : A -> M S B) (s : S) (a : A) (s' : S) :
  m s = Ret a s' -> bind m f s = f a s'.
Proof. unfold bind. by intros ->. Qed.

Lemma hframe_refl s : hframe s s.
Proof. split; [done|]. intros r x Hx. by exists x. Qed.

Lemma hframe_trans s1 s2 s3 : hframe s1 s2 -> hframe s2 s3 -> hframe s1 s3.
Proof.
  intros [L1 F1] [L2 F2]. split; [congruence|].
  intros r x Hx. destruct (F1 r x Hx) as (x1 & Hx1 & ? & ? & ?).
  destruct (F2 r x1 Hx1) as (x2 & Hx2 & ? & ? & ?).
  exists x2. repeat split; congruence.
Qed.

Lemma slice_at_ok o h (n : nat) r :
  h !! n = Some r -> slice_at (Z.of_nat n) (o, h) = Ret r (o, h).
Proof.
  intros Hr. unfold slice_at. simpl.
  destruct (Z.leb_spec 0 (Z.of_nat n)); [|lia].
  by rewrite Nat2Z.id, Hr.
Qed.

Lemma deref_ok o h r x : o !! r = Some x -> deref r (o, h) = Ret x (o, h).
Proof. intros Hx. unfold deref. simpl. by rewrite Hx. Qed.

Lemma assign_ok o h r x0 x :
  o !! r = Some x0 -> assign r x (o, h) = Ret tt (<[r := x]> o, h).
Proof. intros Hx. unfold assign. simpl. by rewrite Hx. Qed.

Lemma slice_set_ok o h (n : nat) r :
  (n < length h)%nat ->
  slice_set (Z.of_nat n) r (o, h) = Ret tt (o, <[n := r]> h).
Proof.
  intros Hn. unfold slice_set. simpl.
  destruct (Z.leb_spec 0 (Z.of_nat n)); [|lia].
  destruct (Z.ltb_spec (Z.of_nat n) (Z.of_nat (length h))); [|lia].
  simpl. by rewrite Nat2Z.id.
Qed.

Lemma Less_ok o h (i j : nat) :
  hwf (o, h) -> (i < length h)%nat -> (j < length h)%nat ->
  exists b, Less (Z.of_nat i) (Z.of_nat j) (o, h) = Ret b (o, h).
Proof.
  intros [_ Hidx] Hi Hj.
  destruct (lookup_lt_is_Some_2 h i Hi) as [ri Hri].
  destruct (lookup_lt_is_Some_2 h j Hj) as [rj Hrj].
  destruct (Hidx i ri Hri) as (xi & Hxi & _).
  destruct (Hidx j rj Hrj) as (xj & Hxj & _).
  eexists. unfold Less.
  rewrite (bind_Ret _ _ _ _ _ (slice_at_ok o h i ri Hri)).
  rewrite (bind_Ret _ _ _ _ _ (deref_ok o h ri xi Hxi)).
  rewrite (bind_Ret _ _ _ _ _ (slice_at_ok o h j rj Hrj)).
  rewrite (bind_Ret _ _ _ _ _ (deref_ok o h rj xj Hxj)).
  reflexivity.
Qed.

Lemma hperm_refl s : hwf s -> hperm s s.
Proof. intros. split; [done|]. split; [apply hframe_refl|done]. Qed.

Lemma hperm_trans s1 s2 s3 : hperm s1 s2 -> hperm s2 s3 -> hperm s1 s3.
Proof.
  intros (_ & F1 & P1) (W & F2 & P2). split; [done|].
  split; [by eapply hframe_trans|]. by etrans.
Qed.

Lemma Swap_ok o h (i j : nat) :
  hwf (o, h) -> (i < length h)%nat -> (j < length h)%nat ->
  exists s', Swap (Z.of_nat i) (Z.of_nat j) (o, h) = Ret tt s' /\
    hperm (o, h) s' /\
    s'.2 !! i = h !! j /\ s'.2 !! j = h !! i /\
    (forall k, k <> i -> k <> j -> s'.2 !! k = h !! k).
Proof.
  intros [Hnd Hidx] Hi Hj.
  destruct (lookup_lt_is_Some_2 h i Hi) as [ri Hri].
  destruct (lookup_lt_is_Some_2 h j Hj) as [rj Hrj].
  destruct (Hidx i ri Hri) as (xi & Hxi & Hxii).
  destruct (Hidx j rj Hrj) as (xj & Hxj & Hxjj).
  simpl in Hidx, Hnd, Hri, Hrj, Hxi, Hxj.
  set (h' := <[j := ri]> (<[i := rj]> h)).
  assert (Hh'i : h' !! i = Some rj).
  { unfold h'. destruct (decide (i = j)) as [->|Hne].
    - rewrite list_lookup_insert_eq by (rewrite length_insert; lia). congruence.
    - rewrite list_lookup_insert_ne by done.
      by rewrite list_lookup_insert_eq by lia. }
  assert (Hh'j : h' !! j = Some ri).
  { unfold h'. by rewrite list_lookup_insert_eq by (rewrite length_insert; lia). }
  assert (Hh'k : forall k, k <> i -> k <> j -> h' !! k = h !! k).
  { intros k Hki Hkj. unfold h'. by rewrite !list_lookup_insert_ne by done. }
  set (o1 := <[rj := set_exp_index (Z.of_nat i) xj]> o).
  assert (Hlen : (rj < length o)%nat) by by eapply lookup_lt_Some.
  assert (Hlen' : (ri < length o)%nat) by by eapply lookup_lt_Some.
  assert (exists x1, o1 !! ri = Some x1 /\ exp_key x1 = exp_key xi /\
     exp_expiration x1 = exp_expiration xi /\ exp_canceled x1 = exp_canceled xi)
    as (x1 & Hx1 & Hk1 & He1 & Hc1).
  { unfold o1. destruct (decide (ri = rj)) as [->|Hne].
    - rewrite list_lookup_insert_eq by done. eexists. split; [done|].
      assert (xi = xj) by congruence. by subst.
    - rewrite list_lookup_insert_ne by done. by exists xi. }
  set (o2 := <[ri := set_exp_index (Z.of_nat j) x1]> o1).
  exists (o2, h'). split.
  { unfold Swap.
    rewrite (bind_Ret _ _ _ _ _ (slice_at_ok o h j rj Hrj)).
    rewrite (bind_Ret _ _ _ _ _ (slice_at_ok o h i ri Hri)).
    rewrite (bind_Ret _ _ _ _ _ (slice_set_ok o h i rj Hi)).
    rewrite (bind_Ret _ _ _ _ _ (slice_set_ok o _ j ri
       ltac:(rewrite length_insert; exact Hj))).
    fold h'.
    rewrite (bind_Ret _ _ _ _ _ (slice_at_ok o h' i rj Hh'i)).
    rewrite (bind_Ret _ _ _ _ _ (deref_ok o h' rj xj Hxj)).
    rewrite (bind_Ret _ _ _ _ _ (assign_ok o h' rj xj _ Hxj)).
    fold o1.
    rewrite (bind_Ret _ _ _ _ _ (slice_at_ok o1 h' j ri Hh'j)).
    rewrite (bind_Ret _ _ _ _ _ (deref_ok o1 h' ri x1 Hx1)).
    by rewrite (assign_ok o1 h' ri x1 _ Hx1). }
  assert (Hnd' : NoDup h').
  { apply NoDup_alt. intros a b r Ha Hb.
    assert (Hsrc : forall k, h' !! k = Some r ->
      exists k', h !! k' = Some r /\
        (k = i /\ k' = j \/ k = j /\ k' = i \/ k <> i /\ k <> j /\ k' = k)).
    { intros k Hk. destruct (decide (k = i)) as [->|Hki].
      - exists j. split; [congruence|auto].
      - destruct (decide (k = j)) as [->|Hkj].
        + exists i. split; [congruence|auto].
        + exists k. rewrite <-Hh'k by done. split; [done|tauto]. }
    destruct (Hsrc a Ha) as (a' & Ha' & Ca).
    destruct (Hsrc b Hb) as (b' & Hb' & Cb).
    pose proof (proj1 (NoDup_alt h) Hnd a' b' r Ha' Hb'). lia. }
  assert (Hmem : forall r, r ∈ h' <-> r ∈ h).
  { intros r. rewrite !list_elem_of_lookup. split; intros [k Hk].
    - destruct (decide (k = i)) as [->|Hki]; [exists j; congruence|].
      destruct (decide (k = j)) as [->|Hkj]; [exists i; congruence|].
      exists k. by rewrite <-Hh'k.
    - destruct (decide (k = i)) as [->|Hki]; [exists j; congruence|].
      destruct (decide (k = j)) as [->|Hkj]; [exists i; congruence|].
      exists k. by rewrite Hh'k. }
  split; [|simpl; split; [congruence|split; [congruence|done]]].
  split; [|split].
  - split; [done|]. simpl. intros k r Hk.
    destruct (decide (k = j)) as [->|Hkj].
    { assert (r = ri) by congruence. subst r.
      exists (set_exp_index (Z.of_nat j) x1). split; [|done].
      unfold o2. apply list_lookup_insert_eq. unfold o1.
      by rewrite length_insert. }
    destruct (decide (k = i)) as [->|Hki].
    { assert (r = rj) by congruence. subst r.
      assert (ri <> rj).
      { intros ->. apply Hkj.
        exact (proj1 (NoDup_alt h) Hnd _ _ _ Hri Hrj). }
      exists (set_exp_index (Z.of_nat i) xj). split; [|done].
      unfold o2. rewrite list_lookup_insert_ne by done.
      unfold o1. by apply list_lookup_insert_eq. }
    rewrite Hh'k in Hk by done.
    destruct (Hidx k r Hk) as (x & Hx & Hxk).
    assert (r <> ri).
    { intros ->. apply Hki. exact (proj1 (NoDup_alt h) Hnd _ _ _ Hk Hri). }
    assert (r <> rj).
    { intros ->. apply Hkj. exact (proj1 (NoDup_alt h) Hnd _ _ _ Hk Hrj). }
    exists x. split; [|done].
    unfold o2, o1. by rewrite !list_lookup_insert_ne by done.
  - split; simpl.
    { unfold o2, o1. by rewrite !length_insert. }
    intros r x Hx. simpl in Hx. unfold o2.
    destruct (decide (r = ri)) as [->|Hri'].
    { exists (set_exp_index (Z.of_nat j) x1). split.
      - apply list_lookup_insert_eq. unfold o1. by rewrite length_insert.
      - assert (x = xi) by congruence. subst. simpl. auto. }
    rewrite list_lookup_insert_ne by done. unfold o1.
    destruct (decide (r = rj)) as [->|Hrj'].
    { exists (set_exp_index (Z.of_nat i) xj). split.
      - by apply list_lookup_insert_eq.
      - assert (x = xj) by congruence. subst. simpl. auto. }
    rewrite list_lookup_insert_ne by done. by exists x.
  - simpl. by apply NoDup_Permutation.
Qed.

Lemma up_loop_ok fuel : forall (j : nat) s,
  hwf s -> (j < length s.2)%nat -> (j < fuel)%nat ->
  exists s', up_loop fuel (Z.of_nat j) s = Ret tt s' /\ hperm s s'.
Proof.
  induction fuel as [|fuel IH]; intros j [o h] Hwf Hj Hfuel; [lia|].
  simpl in Hj. cbn [up_loop].
  destruct (decide (j = 0%nat)) as [->|Hj0].
  { exists (o, h). split; [done|]. by apply hperm_refl. }
  set (p := ((j - 1) / 2)%nat).
  assert (Hp : (Z.of_nat j - 1) `quot` 2 = Z.of_nat p).
  { unfold p. rewrite Z.quot_div_nonneg by lia.
    rewrite Nat2Z.inj_div, Nat2Z.inj_sub by lia. done. }
  assert (Hpj : (p < j)%nat).
  { unfold p. apply Nat.lt_le_trans with (S ((j - 1) / 2)); [lia|].
    pose proof (Nat.Div0.div_le_upper_bound (j - 1) 2 (j - 1)). lia. }
  rewrite Hp.
  destruct (Z.eqb_spec (Z.of_nat p) (Z.of_nat j)) as [Heq|_]; [lia|].
  destruct (Less_ok o h j p Hwf) as [b Hb]; [lia..|].
  rewrite (bind_Ret _ _ _ _ _ Hb).
  destruct b; simpl.
  - destruct (Swap_ok o h p j Hwf) as (s1 & Hs1 & Hp1 & _); [lia..|].
    rewrite (bind_Ret _ _ _ _ _ Hs1).
    assert (Hlen1 : length s1.2 = length h).
    { apply Permutation_length, Hp1. }
    destruct (IH p s1) as (s2 & Hs2 & Hp2); [apply Hp1|lia|lia|].
    exists s2. split; [done|]. by eapply hperm_trans.
  - exists (o, h). split; [done|]. by apply hperm_refl.
Qed.

Lemma up_ok (j : nat) s :
  hwf s -> (j < length s.2)%nat ->
  exists s', up (Z.of_nat j) s = Ret tt s' /\ hperm s s'.
Proof.
  intros Hwf Hj. unfold up. rewrite Nat2Z.id.
  apply up_loop_ok; [done|done|lia].
Qed.

Lemma down_loop_ok fuel : forall (i0 : Z) (i n : nat) s,
  hwf s -> (n <= length s.2)%nat -> (n - i < fuel)%nat ->
  exists b s', down_loop fuel i0 (Z.of_nat i) (Z.of_nat n) s = Ret b s' /\
    hperm s s' /\ forall k, (n <= k)%nat -> s'.2 !! k = s.2 !! k.
Proof.
  induction fuel as [|fuel IH]; intros i0 i n [o h] Hwf Hn Hfuel; [lia|].
  simpl in Hn. cbn [down_loop].
  destruct (Z.leb_spec (Z.of_nat n) (2 * Z.of_nat i + 1)) as [Hge|Hlt]; simpl.
  { exists (i0 <? Z.of_nat i), (o, h). split; [done|].
    split; [by apply hperm_refl|done]. }
  destruct (Z.ltb_spec (2 * Z.of_nat i + 1) 0) as [?|_]; [lia|].
  set (j1 := (2 * i + 1)%nat).
  assert (Hj1 : 2 * Z.of_nat i + 1 = Z.of_nat j1) by (unfold j1; lia).
  rewrite Hj1.
  assert (Hj2 : Z.of_nat j1 + 1 = Z.of_nat (S j1)) by lia.
  rewrite Hj2.
  assert (exists b, (if Z.of_nat (S j1) <? Z.of_nat n
                     then Less (Z.of_nat (S j1)) (Z.of_nat j1)
                     else ret false) (o, h) = Ret b (o, h) /\
            ((if b then S j1 else j1) < n)%nat) as (b21 & Hb21 & Hj).
  { destruct (Z.ltb_spec (Z.of_nat (S j1)) (Z.of_nat n)).
    - destruct (Less_ok o h (S j1) j1 Hwf) as [b Hb]; [lia..|].
      exists b. split; [done|]. destruct b; lia.
    - exists false. split; [done|]. lia. }
  rewrite (bind_Ret _ _ _ _ _ Hb21).
  set (j := if b21 then S j1 else j1) in *.
  assert (Hjz : (if b21 then Z.of_nat (S j1) else Z.of_nat j1) = Z.of_nat j).
  { unfold j. by destruct b21. }
  rewrite Hjz.
  assert (Hij : (i < j)%nat) by (unfold j, j1; destruct b21; lia).
  destruct (Less_ok o h j i Hwf) as [b Hb]; [lia..|].
  rewrite (bind_Ret _ _ _ _ _ Hb).
  destruct b; simpl.
  - destruct (Swap_ok o h i j Hwf) as (s1 & Hs1 & Hp1 & _ & _ & Hk1); [lia..|].
    rewrite (bind_Ret _ _ _ _ _ Hs1).
    assert (Hlen1 : length s1.2 = length h).
    { apply Permutation_length, Hp1. }
    destruct (IH i0 j n s1) as (b2 & s2 & Hs2 & Hp2 & Hk2);
      [apply Hp1|lia|lia|].
    exists b2, s2. split; [done|]. split; [by eapply hperm_trans|].
    intros k Hk. rewrite Hk2 by done. apply Hk1; lia.
  - exists (i0 <? Z.of_nat i), (o, h). split; [done|].
    split; [by apply hperm_refl|done].
Qed.

Lemma down_ok (i n : nat) s :
  hwf s -> (n <= length s.2)%nat ->
  exists b s', down (Z.of_nat i) (Z.of_nat n) s = Ret b s' /\
    hperm s s' /\ forall k, (n <= k)%nat -> s'.2 !! k = s.2 !! k.
Proof.
  intros Hwf Hn. unfold down. rewrite Nat2Z.id.
  apply down_loop_ok; [done|done|lia].
Qed.

Lemma heap_Fix_ok (i : nat) s :
  hwf s -> (i < length s.2)%nat ->
  exists s', heap_Fix (Z.of_nat i) s = Ret tt s' /\ hperm s s'.
Proof.
  intros Hwf Hi. unfold heap_Fix, Len at 1.
  unfold bind at 1.
  destruct (down_ok i (length s.2) s Hwf) as (b & s1 & Hs1 & Hp1 & _); [lia|].
  rewrite (bind_Ret _ _ _ _ _ Hs1).
  destruct b; simpl.
  - by exists s1.
  - destruct (up_ok i s1) as (s2 & Hs2 & Hp2); [apply Hp1| |].
    { destruct Hp1 as (_ & _ & Hp). by rewrite (Permutation_length Hp). }
    exists s2. split; [done|]. by eapply hperm_trans.
Qed.

Lemma heap_Init_nil o : heap_Init ((o, []) : HeapSt K) = Ret tt (o, []).
Proof. reflexivity. Qed.

Lemma heap_Push_ok o h r x :
  hwf (o, h) -> o !! r = Some x -> r ∉ h ->
  exists s', heap_Push r (o, h) = Ret tt s' /\
    hwf s' /\ hframe (o, h) s' /\ s'.2 ≡ₚ r :: h.
Proof.
  intros [Hnd Hidx] Hx Hr. simpl in Hnd, Hidx.
  set (n := length h).
  set (s1 := (<[r := set_exp_index (Z.of_nat n) x]> o, h ++ [r]) : HeapSt K).
  assert (Hr_lt : (r < length o)%nat) by by eapply lookup_lt_Some.
  assert (Hs1 : Push r (o, h) = Ret tt s1).
  { unfold Push, Len. unfold bind at 1.
    rewrite (bind_Ret _ _ _ _ _ (deref_ok o h r x Hx)). simpl.
    by rewrite (bind_Ret _ _ _ _ _ (assign_ok o h r x _ Hx)). }
  assert (Hwf1 : hwf s1).
  { split; simpl.
    - apply NoDup_app. split; [done|]. split; [|apply NoDup_singleton].
      intros y Hy Hy'. apply list_elem_of_singleton in Hy'. by subst.
    - intros k r' Hk.
      destruct (decide (k < n)%nat) as [Hkn|Hkn].
      + rewrite lookup_app_l in Hk by done.
        destruct (Hidx k r' Hk) as (x' & Hx' & Hi').
        exists x'. split; [|done].
        rewrite list_lookup_insert_ne; [done|].
        intros ->. apply Hr. by eapply list_elem_of_lookup_2.
      + rewrite lookup_app_r in Hk by (fold n; lia).
        destruct (k - length h)%nat eqn:Hkk; [|by destruct n0].
        simpl in Hk. injection Hk as <-.
        exists (set_exp_index (Z.of_nat n) x).
        split; [by apply list_lookup_insert_eq|]. simpl. unfold n in *. lia. }
  assert (Hf1 : hframe (o, h) s1).
  { split; simpl; [by rewrite length_insert|].
    intros r' x' Hx'. destruct (decide (r' = r)) as [->|Hne].
    - exists (set_exp_index (Z.of_nat n) x).
      split; [by apply list_lookup_insert_eq|].
      assert (x' = x) by congruence. by subst.
    - exists x'. by rewrite list_lookup_insert_ne. }
  destruct (up_ok n s1 Hwf1) as (s2 & Hs2 & Hw2 & Hf2 & Hp2).
  { simpl. rewrite length_app. simpl. unfold n. lia. }
  exists s2. split.
  { unfold heap_Push. rewrite (bind_Ret _ _ _ _ _ Hs1).
    unfold Len. unfold bind at 1. simpl.
    rewrite length_app. simpl.
    replace (Z.of_nat (length h + 1) - 1) with (Z.of_nat n)
      by (unfold n; lia).
    done. }
  split; [done|]. split; [by eapply hframe_trans|].
  rewrite Hp2. simpl. by rewrite Permutation_app_comm.
Qed.

Lemma heap_Pop_ok o h r0 :
  hwf (o, h) -> h !! 0%nat = Some r0 ->
  exists s', heap_Pop (o, h) = Ret r0 s' /\
    hwf s' /\ hframe (o, h) s' /\ h ≡ₚ r0 :: s'.2.
Proof.
  intros Hwf Hr0.
  assert (Hlen : (0 < length h)%nat) by by eapply lookup_lt_Some.
  set (n := (length h - 1)%nat).
  destruct (Swap_ok o h 0 n Hwf) as (s1 & Hs1 & Hp1 & _ & Hn1 & _);
    [lia|unfold n; lia|].
  assert (Hlen1 : length s1.2 = length h).
  { apply Permutation_length, Hp1. }
  destruct (down_ok 0 n s1) as (b & s2 & Hs2 & Hp2 & Hk2);
    [apply Hp1|unfold n; lia|].
  assert (Hlen2 : length s2.2 = length h).
  { rewrite <-Hlen1. apply Permutation_length, Hp2. }
  assert (Hn2 : s2.2 !! n = Some r0).
  { rewrite Hk2 by lia. by rewrite Hn1. }
  destruct Hp2 as (Hwf2 & Hf2 & Hperm2).
  destruct s2 as [o2 h2]. simpl in *.
  destruct Hwf2 as [Hnd2 Hidx2]. simpl in *.
  destruct (Hidx2 n r0 Hn2) as (x2 & Hx2 & _).
  set (s3 := (<[r0 := set_exp_index (-1) x2]> o2, take n h2) : HeapSt K).
  assert (Hdrop : h2 = take n h2 ++ [r0]).
  { rewrite <-(take_drop n h2) at 1. f_equal.
    apply list_eq. intros k. rewrite lookup_drop.
    destruct k as [|k]; simpl.
    - by rewrite Nat.add_0_r.
    - apply lookup_ge_None_2. unfold n. lia. }
  exists s3. split.
  { unfold heap_Pop, Len at 1. unfold bind at 1. simpl.
    replace (Z.of_nat (length h) - 1) with (Z.of_nat n) by (unfold n; lia).
    rewrite (bind_Ret _ _ _ _ _ Hs1).
    rewrite (bind_Ret _ _ _ _ _ Hs2).
    unfold Pop, Len. unfold bind at 1. simpl.
    replace (Z.of_nat (length h2) - 1) with (Z.of_nat n) by (unfold n; lia).
    rewrite (bind_Ret _ _ _ _ _ (slice_at_ok o2 h2 n r0 Hn2)).
    rewrite (bind_Ret _ _ _ _ _ (deref_ok o2 h2 r0 x2 Hx2)).
    rewrite (bind_Ret _ _ _ _ _ (assign_ok o2 h2 r0 x2 _ Hx2)).
    unfold modify, bind, ret. simpl. by rewrite Nat2Z.id. }
  assert (Hnd3 : NoDup (take n h2) /\ r0 ∉ take n h2).
  { rewrite Hdrop in Hnd2. apply NoDup_app in Hnd2 as (? & Hdis & _).
    split; [done|]. intros Hin. apply (Hdis r0 Hin). by left. }
  split; [|split].
  - split; simpl; [apply Hnd3|].
    intros k r Hk. assert (Hkn : (k < n)%nat).
    { apply lookup_lt_Some in Hk. rewrite length_take in Hk. lia. }
    assert (Hr : r ∈ take n h2) by by eapply list_elem_of_lookup_2.
    rewrite lookup_take_lt in Hk by done.
    destruct (Hidx2 k r Hk) as (x & Hx & Hxi).
    exists x. split; [|done]. rewrite list_lookup_insert_ne; [done|].
    intros ->. by apply Hnd3.
  - eapply hframe_trans; [apply Hp1|]. eapply hframe_trans; [apply Hf2|].
    split; simpl; [by rewrite length_insert|].
    intros r x Hx. destruct (decide (r = r0)) as [->|Hne].
    + exists (set_exp_index (-1) x2).
      split; [apply list_lookup_insert_eq; by eapply lookup_lt_Some|].
      assert (x = x2) by congruence. by subst.
    + exists x. by rewrite list_lookup_insert_ne.
  - simpl. destruct Hp1 as (_ & _ & Hperm1). simpl in Hperm1.
    rewrite <-Hperm1, <-Hperm2. rewrite Hdrop at 1.
    by rewrite Permutation_app_comm.
Qed.

End HeapProofs.

Section CacheProofs.
Context {K : Type} `{Countable K} {V : Type}.
Implicit Types (c : Cache K V) (ent : entry K V) (x : expEntry K).

Lemma list_Remove_perm (ele : nat) (l : list nat) :
  NoDup l -> ele ∈ l -> l ≡ₚ ele :: list_Remove ele l.
Proof.
  intros Hnd Hin. apply NoDup_Permutation; [done| |].
  - apply NoDup_cons. split; [|by apply NoDup_filter].
    unfold list_Remove. rewrite list_elem_of_filter. tauto.
  - intros e. unfold list_Remove.
    rewrite elem_of_cons, list_elem_of_filter.
    destruct (decide (e = ele)) as [->|]; tauto.
Qed.

Lemma list_Remove_length (ele : nat) (l : list nat) :
  NoDup l -> ele ∈ l -> length l = S (length (list_Remove ele l)).
Proof.
  intros Hnd Hin. by rewrite (Permutation_length (list_Remove_perm ele l Hnd Hin)).
Qed.

Lemma list_Remove_elem (ele e : nat) (l : list nat) :
  e ∈ list_Remove ele l <-> e <> ele /\ e ∈ l.
Proof. unfold list_Remove. by rewrite list_elem_of_filter. Qed.

Lemma list_Remove_last (l : list nat) (ele : nat) :
  NoDup (l ++ [ele]) -> list_Remove ele (l ++ [ele]) = l.
Proof.
  intros Hnd. apply NoDup_app in Hnd as (_ & Hdis & _).
  unfold list_Remove. rewrite filter_app.
  rewrite filter_cons_False by (intros ?; done). simpl.
  rewrite app_nil_r.
  induction l as [|a l IH]; [done|].
  rewrite filter_cons_True.
  - f_equal. apply IH. intros y Hy. apply Hdis. by right.
  - intros ->. apply (Hdis ele); [by left|by left].
Qed.

Lemma list_MoveToFront_in (ele : nat) (l : list nat) :
  ele ∈ l -> list_MoveToFront ele l = ele :: list_Remove ele l.
Proof. intros Hin. unfold list_MoveToFront. by rewrite decide_True. Qed.

Lemma list_MoveToFront_perm (ele : nat) (l : list nat) :
  NoDup l -> list_MoveToFront ele l ≡ₚ l.
Proof.
  intros Hnd. unfold list_MoveToFront. case_decide; [|done].
  symmetry. by apply list_Remove_perm.
Qed.

Lemma wf_attached_inj c ele ele' ent ent' r :
  wf c -> ele ∈ ll c -> ele' ∈ ll c ->
  elems c !! ele = Some ent -> elems c !! ele' = Some ent' ->
  ent_exp ent = Some r -> ent_exp ent' = Some r -> ele = ele'.
Proof.
  intros Hwf Hin Hin' He He' Hr Hr'.
  destruct (wf_exp c Hwf ele ent r Hin He Hr) as (_ & x & Hx & Hk & _).
  destruct (wf_exp c Hwf ele' ent' r Hin' He' Hr') as (_ & x' & Hx' & Hk' & _).
  destruct (wf_elem c Hwf ele Hin) as (e1 & He1 & Hc1).
  destruct (wf_elem c Hwf ele' Hin') as (e2 & He2 & Hc2).
  assert (e1 = ent) by congruence. assert (e2 = ent') by congruence.
  subst. assert (x = x') by congruence. subst.
  rewrite <-Hk, Hk' in Hc1. congruence.
Qed.

Lemma wf_key_inj c ele ele' ent ent' :
  wf c -> ele ∈ ll c -> ele' ∈ ll c ->
  elems c !! ele = Some ent -> elems c !! ele' = Some ent' ->
  ent_key ent = ent_key ent' -> ele = ele'.
Proof.
  intros Hwf Hin Hin' He He' Hk.
  destruct (wf_elem c Hwf ele Hin) as (e1 & He1 & Hc1).
  destruct (wf_elem c Hwf ele' Hin') as (e2 & He2 & Hc2).
  assert (e1 = ent) by congruence. assert (e2 = ent') by congruence.
  subst. rewrite Hk in Hc1. congruence.
Qed.

Lemma wf_set_ll c (l : list nat) :
  wf c -> l ≡ₚ ll c -> wf (set_ll l c).
Proof.
  intros Hwf Hp. split; simpl.
  - rewrite Hp. apply Hwf.
  - intros ele Hin. rewrite Hp in Hin. by apply (wf_elem c Hwf).
  - intros k ele Hk. rewrite Hp. by apply (wf_map c Hwf).
  - rewrite (Permutation_length Hp). apply Hwf.
  - apply Hwf.
  - intros ele ent r Hin. rewrite Hp in Hin. by apply (wf_exp c Hwf).
Qed.

Lemma wf_set_capacity c n : wf c -> wf (set_capacity n c).
Proof. intros Hwf. split; simpl; apply Hwf. Qed.

Lemma wf_set_updateCh c b : wf c -> wf (set_updateCh b c).
Proof. intros Hwf. split; simpl; apply Hwf. Qed.

Lemma wf_remove c ele ent :
  wf c -> ele ∈ ll c -> elems c !! ele = Some ent ->
  wf (set_cache (delete (ent_key ent) (cache c))
        (set_ll (list_Remove ele (ll c)) c)).
Proof.
  intros Hwf Hin He.
  destruct (wf_elem c Hwf ele Hin) as (e0 & He0 & Hc0).
  assert (e0 = ent) by congruence. subst e0.
  split; simpl.
  - apply NoDup_filter, Hwf.
  - intros ele' Hin'. apply list_Remove_elem in Hin' as [Hne Hin'].
    destruct (wf_elem c Hwf ele' Hin') as (ent' & He' & Hc').
    exists ent'. split; [done|]. rewrite lookup_delete_ne; [done|].
    intros Hk. apply Hne. symmetry.
    by eapply (wf_key_inj c ele ele' ent ent').
  - intros k ele' Hk. apply lookup_delete_Some in Hk as [Hne Hk].
    destruct (wf_map c Hwf k ele' Hk) as (Hin' & ent' & He' & Hk').
    split; [|by exists ent'].
    apply list_Remove_elem. split; [|done]. intros ->.
    apply Hne. congruence.
  - rewrite map_size_delete_Some by by eexists.
    rewrite (wf_size c Hwf).
    rewrite (list_Remove_length ele (ll c)); [done|apply Hwf|done].
  - apply Hwf.
  - intros ele' ent' r Hin'. apply list_Remove_elem in Hin' as [_ Hin'].
    by apply (wf_exp c Hwf).
Qed.

Lemma wf_set_heap c (s' : HeapSt K) :
  wf c -> hwf s' ->
  (forall ele ent r, ele ∈ ll c -> elems c !! ele = Some ent ->
     ent_exp ent = Some r ->
     r ∈ s'.2 /\ exists x, s'.1 !! r = Some x /\ exp_key x = ent_key ent /\
       exp_expiration x = ent_expiration ent /\ exp_canceled x = false) ->
  wf (set_heap s' c).
Proof.
  intros Hwf Hh Hatt. split; simpl; try apply Hwf.
  - by destruct s'.
  - intros ele ent r Hin He Hr.
    destruct (Hatt ele ent r Hin He Hr) as (Hr' & x & Hx & ? & ? & ?).
    split; [done|]. exists x. repeat split; try done.
    by destruct (wf_exp c Hwf ele ent r Hin He Hr) as (_ & ? & _ & _ & _ & _ & ?).
Qed.

Lemma wf_set_heap_frame c (s' : HeapSt K) :
  wf c -> hwf s' -> hframe (exps c, expHeap c) s' ->
  (forall r, attached c r -> r ∈ s'.2) ->
  wf (set_heap s' c).
Proof.
  intros Hwf Hh [_ Hf] Hin. apply wf_set_heap; [done..|].
  intros ele ent r Hl He Hr. split; [apply Hin; by exists ele, ent|].
  destruct (wf_exp c Hwf ele ent r Hl He Hr) as (_ & x & Hx & ? & ? & ? & _).
  destruct (Hf r x Hx) as (x' & Hx' & ? & ? & ?).
  exists x'. repeat split; congruence.
Qed.

Lemma wf_set_elem c ele ent ent' :
  wf c -> ele ∈ ll c -> elems c !! ele = Some ent ->
  ent_key ent' = ent_key ent ->
  (forall r, ent_exp ent' = Some r ->
     r ∈ expHeap c /\ exists x, exps c !! r = Some x /\
       exp_key x = ent_key ent' /\ exp_expiration x = ent_expiration ent' /\
       exp_canceled x = false /\ ent_expiration ent' <> 0) ->
  wf (set_elems (<[ele := ent']> (elems c)) c).
Proof.
  intros Hwf Hin He Hk Hexp.
  assert (Hlt : (ele < length (elems c))%nat) by by eapply lookup_lt_Some.
  assert (Hlook : forall e, exists ent1,
    (e = ele /\ ent1 = ent' \/ e <> ele /\ elems c !! e = Some ent1) \/
    (<[ele := ent']> (elems c) !! e = None /\ elems c !! e = None)).
  { intros e. destruct (decide (e = ele)) as [->|Hne].
    - exists ent'. left. by left.
    - destruct (elems c !! e) as [e1|] eqn:E.
      + exists e1. left. by right.
      + exists ent'. right. by rewrite list_lookup_insert_ne. }
  split; simpl; try apply Hwf.
  - intros e Hine. destruct (decide (e = ele)) as [->|Hne].
    + exists ent'. split; [by apply list_lookup_insert_eq|].
      rewrite Hk. destruct (wf_elem c Hwf ele Hin) as (e0 & ? & ?).
      congruence.
    + rewrite list_lookup_insert_ne by done. by apply (wf_elem c Hwf).
  - intros k e Hke. destruct (wf_map c Hwf k e Hke) as (Hine & e1 & He1 & Hk1).
    split; [done|]. destruct (decide (e = ele)) as [->|Hne].
    + exists ent'. split; [by apply list_lookup_insert_eq|]. congruence.
    + exists e1. by rewrite list_lookup_insert_ne.
  - intros e e1 r Hine He1 Hr. destruct (decide (e = ele)) as [->|Hne].
    + rewrite list_lookup_insert_eq in He1 by done. injection He1 as <-.
      by apply Hexp.
    + rewrite list_lookup_insert_ne in He1 by done. by apply (wf_exp c Hwf e).
Qed.

Lemma wf_insert c key (value : V) (t : Z) :
  wf c -> cache c !! key = None ->
  wf (set_cache (<[key := length (elems c)]> (cache c))
        (set_ll (length (elems c) :: ll c)
           (set_elems (elems c ++ [mkEntry key value t None]) c))).
Proof.
  intros Hwf Hnone.
  assert (Hlt : forall e, e ∈ ll c -> (e < length (elems c))%nat).
  { intros e He. destruct (wf_elem c Hwf e He) as (? & ? & _).
    by eapply lookup_lt_Some. }
  assert (Hfresh : length (elems c) ∉ ll c).
  { intros Hin. apply Hlt in Hin. lia. }
  split; simpl; try apply Hwf.
  - apply NoDup_cons. split; [done|apply Hwf].
  - intros e He. apply elem_of_cons in He as [->|He].
    + exists (mkEntry key value t None). split.
      * rewrite lookup_app_r by lia. by rewrite Nat.sub_diag.
      * simpl. apply lookup_insert_eq.
    + destruct (wf_elem c Hwf e He) as (e1 & He1 & Hc1).
      exists e1. split; [by rewrite lookup_app_l by by apply Hlt|].
      rewrite lookup_insert_ne; [done|]. congruence.
  - intros k e Hk. apply lookup_insert_Some in Hk as [[<- <-]|[Hne Hk]].
    + split; [by left|]. exists (mkEntry key value t None). split; [|done].
      rewrite lookup_app_r by lia. by rewrite Nat.sub_diag.
    + destruct (wf_map c Hwf k e Hk) as (Hin & e1 & He1 & Hk1).
      split; [by right|]. exists e1. split; [|done].
      by rewrite lookup_app_l by by apply Hlt.
  - rewrite map_size_insert_None by done. by rewrite (wf_size c Hwf).
  - intros e e1 r He He1 Hr. apply elem_of_cons in He as [->|He].
    + rewrite lookup_app_r in He1 by lia. rewrite Nat.sub_diag in He1.
      simpl in He1. injection He1 as <-. done.
    + rewrite lookup_app_l in He1 by by apply Hlt.
      by apply (wf_exp c Hwf e).
Qed.

End CacheProofs.

Section OpProofs.
Context {K : Type} `{Countable K} {V : Type} (zero : V).
Implicit Types (c : Cache K V) (ent : entry K V) (x : expEntry K).

Lemma cancel_ok c r x :
  exps c !! r = Some x ->
  cancel r c =
    Ret tt (set_heap (<[r := set_exp_canceled true x]> (exps c), expHeap c) c).
Proof.
  intros Hx. unfold cancel, with_heap.
  rewrite (bind_Ret _ _ _ _ _ (deref_ok _ _ r x Hx)).
  by rewrite (assign_ok _ _ r x _ Hx).
Qed.

Lemma hwf_same_index (o : list (expEntry K)) (h : list nat) r x x' :
  hwf (o, h) -> o !! r = Some x -> exp_index x' = exp_index x ->
  hwf (<[r := x']> o, h).
Proof.
  intros [Hnd Hidx] Hx Hi. split; [done|]. simpl in *.
  intros i r' Hr'. destruct (Hidx i r' Hr') as (x0 & Hx0 & Hi0).
  destruct (decide (r' = r)) as [->|Hne].
  - exists x'. split; [apply list_lookup_insert_eq; by eapply lookup_lt_Some|].
    congruence.
  - exists x0. by rewrite list_lookup_insert_ne.
Qed.

Lemma wf_unlink_cancel c ele ent :
  wf c -> ele ∈ ll c -> elems c !! ele = Some ent ->
  wf (unlink ele (ent_key ent) (cancel_exp (ent_exp ent) c)).
Proof.
  intros Hwf Hin He.
  pose proof (wf_remove c ele ent Hwf Hin He) as Hwf1.
  destruct (ent_exp ent) as [r|] eqn:Hr; simpl; [|done].
  destruct (wf_exp c Hwf ele ent r Hin He Hr) as (Hrh & x & Hx & _).
  rewrite Hx.
  change (wf (set_heap (<[r := set_exp_canceled true x]> (exps c), expHeap c)
                (set_cache (delete (ent_key ent) (cache c))
                   (set_ll (list_Remove ele (ll c)) c)))).
  apply wf_set_heap; [done| |].
  - eapply hwf_same_index; [apply Hwf|done|done].
  - simpl. intros ele' ent' r' Hin' He' Hr'.
    apply list_Remove_elem in Hin' as [Hne Hin'].
    destruct (wf_exp c Hwf ele' ent' r' Hin' He' Hr')
      as (Hrh' & x' & Hx' & ? & ? & ? & _).
    split; [done|]. exists x'. split; [|done].
    rewrite list_lookup_insert_ne; [done|]. intros <-.
    apply Hne. symmetry. by eapply (wf_attached_inj c ele ele' ent ent' r).
Qed.

Lemma removeOldestLocked_nil c :
  ll c = [] -> removeOldestLocked c = Ret tt c.
Proof. intros Hll. unfold removeOldestLocked. mrun. by rewrite Hll. Qed.

Lemma maybe_cancel_ok c (r : option nat) :
  (forall r', r = Some r' -> is_Some (exps c !! r')) ->
  match r with Some r => cancel r | None => ret tt end c
  = Ret tt (cancel_exp r c).
Proof.
  intros Hr. destruct r as [r|]; [|done]. simpl.
  destruct (Hr r eq_refl) as [x Hx]. rewrite Hx. by apply cancel_ok.
Qed.

Lemma removeOldestLocked_ok c l ele :
  wf c -> ll c = l ++ [ele] ->
  exists ent, elems c !! ele = Some ent /\
    removeOldestLocked c =
      Ret tt (unlink ele (ent_key ent) (cancel_exp (ent_exp ent) c)) /\
    ll (unlink ele (ent_key ent) (cancel_exp (ent_exp ent) c)) = l.
Proof.
  intros Hwf Hll.
  assert (Hin : ele ∈ ll c) by (rewrite Hll; set_solver).
  destruct (wf_elem c Hwf ele Hin) as (ent & He & Hc).
  exists ent. split; [done|]. split.
  - unfold removeOldestLocked. mrun. rewrite Hll, last_snoc.
    unfold load_elem. rewrite He.
    rewrite maybe_cancel_ok; [done|].
    intros r Hr.
    by destruct (wf_exp c Hwf ele ent r Hin He Hr) as (_ & x & -> & _).
  - assert (Hl : ll (cancel_exp (ent_exp ent) c) = ll c).
    { unfold cancel_exp. destruct (ent_exp ent); [|done].
      by destruct (exps c !! n). }
    simpl. rewrite Hl, Hll. apply list_Remove_last.
    rewrite <-Hll. apply Hwf.
Qed.

Lemma Delete_absent c key :
  cache c !! key = None -> Delete key c = Ret tt c.
Proof. intros Hc. unfold Delete. mrun. by rewrite Hc. Qed.

Lemma Delete_ok c key ele :
  wf c -> cache c !! key = Some ele ->
  exists ent, elems c !! ele = Some ent /\ ent_key ent = key /\
    Delete key c = Ret tt (unlink ele key (cancel_exp (ent_exp ent) c)).
Proof.
  intros Hwf Hc.
  destruct (wf_map c Hwf key ele Hc) as (Hin & ent & He & Hk).
  exists ent. split; [done|]. split; [done|].
  unfold Delete. mrun. rewrite Hc. unfold load_elem. rewrite He.
  rewrite maybe_cancel_ok; [done|].
  intros r Hr.
  by destruct (wf_exp c Hwf ele ent r Hin He Hr) as (_ & x & -> & _).
Qed.

Lemma Get_absent c key now :
  cache c !! key = None -> Get zero key now c = Ret (zero, false) c.
Proof. intros Hc. unfold Get. mrun. by rewrite Hc. Qed.

Lemma Get_expired c key now ele ent :
  cache c !! key = Some ele -> elems c !! ele = Some ent ->
  ent_expiration ent <> 0 -> ent_expiration ent < now ->
  Get zero key now c = Ret (zero, false) (unlink ele key c).
Proof.
  intros Hc He Hz Hlt. unfold Get. mrun. rewrite Hc.
  unfold load_elem. rewrite He.
  destruct (Z.eqb_spec (ent_expiration ent) 0); [done|].
  destruct (Z.ltb_spec (ent_expiration ent) now); [|lia]. done.
Qed.

Lemma Get_hit c key now ele ent :
  cache c !! key = Some ele -> elems c !! ele = Some ent ->
  ent_expiration ent = 0 \/ now <= ent_expiration ent ->
  Get zero key now c =
    Ret (ent_value ent, true) (set_ll (list_MoveToFront ele (ll c)) c).
Proof.
  intros Hc He Hz. unfold Get. mrun. rewrite Hc.
  unfold load_elem. rewrite He.
  destruct (Z.eqb_spec (ent_expiration ent) 0); [done|].
  destruct (Z.ltb_spec (ent_expiration ent) now); [lia|]. done.
Qed.

End OpProofs.

Section SetProofs.
Context {K : Type} `{Countable K} {V : Type} (zero : V).
Implicit Types (c : Cache K V) (ent : entry K V) (x : expEntry K).
Local Arguments heap_Fix : simpl never.
Local Arguments heap_Push : simpl never.
Local Arguments heap_Pop : simpl never.
Local Arguments removeOldestLocked : simpl never.

Lemma SetWithTTL_update_clear c key value ttl now ele ent :
  cache c !! key = Some ele -> elems c !! ele = Some ent ->
  (forall r, ent_exp ent = Some r -> is_Some (exps c !! r)) ->
  ttl <= 0 ->
  SetWithTTL key value ttl now c =
    Ret tt (touch ele (mkEntry (ent_key ent) value 0 None)
              (cancel_exp (ent_exp ent) c)).
Proof.
  intros Hc He Hr Httl.
  assert (Hlt : (ele < length (elems c))%nat) by by eapply lookup_lt_Some.
  unfold SetWithTTL. mrun. rewrite Hc.
  unfold load_elem, store_elem. rewrite !He. simpl.
  destruct (Z.ltb_spec 0 ttl); [lia|]. simpl.
  destruct (ent_exp ent) as [r|] eqn:Hexp; simpl; [|done].
  destruct (Hr r eq_refl) as [x Hx].
  erewrite cancel_ok by (simpl; exact Hx). simpl.
  repeat (rewrite list_lookup_insert_eq by done; simpl).
  rewrite Hx. unfold touch, set_ent_exp. simpl.
  by rewrite list_insert_insert_eq.
Qed.

Lemma SetWithTTL_update_fix c key value ttl now ele ent r x s' :
  cache c !! key = Some ele -> elems c !! ele = Some ent ->
  ent_exp ent = Some r -> exps c !! r = Some x ->
  0 < ttl ->
  heap_Fix (exp_index x)
    (<[r := set_exp_expiration (now + ttl) x]> (exps c), expHeap c)
  = Ret tt s' ->
  SetWithTTL key value ttl now c =
    Ret tt (set_updateCh true
              (set_heap s'
                 (touch ele (mkEntry (ent_key ent) value (now + ttl) (Some r))
                    c))).
Proof.
  intros Hc He Hexp Hx Httl Hfix.
  assert (Hlt : (ele < length (elems c))%nat) by by eapply lookup_lt_Some.
  assert (Hrlt : (r < length (exps c))%nat) by by eapply lookup_lt_Some.
  unfold SetWithTTL. mrun. rewrite Hc.
  unfold load_elem, store_elem. rewrite !He. simpl.
  destruct (Z.ltb_spec 0 ttl); [|lia]. simpl.
  rewrite Hexp.
  unfold with_heap, deref, assign. simpl.
  repeat (first [rewrite Hx | rewrite list_lookup_insert_eq by done]; simpl).
  rewrite Hfix. by unfold signalExpirationUpdate, modify.
Qed.

Lemma SetWithTTL_update_push c key value ttl now ele ent s' :
  cache c !! key = Some ele -> elems c !! ele = Some ent ->
  ent_exp ent = None ->
  0 < ttl ->
  heap_Push (length (exps c))
    (exps c ++ [mkExp key (now + ttl) 0 false], expHeap c)
  = Ret tt s' ->
  SetWithTTL key value ttl now c =
    Ret tt (set_updateCh true
              (set_heap s'
                 (touch ele (mkEntry (ent_key ent) value (now + ttl)
                               (Some (length (exps c)))) c))).
Proof.
  intros Hc He Hexp Httl Hpush.
  assert (Hlt : (ele < length (elems c))%nat) by by eapply lookup_lt_Some.
  unfold SetWithTTL. mrun. rewrite Hc.
  unfold load_elem, store_elem. rewrite !He. simpl.
  destruct (Z.ltb_spec 0 ttl); [|lia]. simpl.
  rewrite Hexp. unfold new_exp. simpl.
  repeat (rewrite list_lookup_insert_eq by done; simpl).
  unfold with_heap. simpl. rewrite Hpush.
  unfold signalExpirationUpdate, touch, set_ent_exp, modify. simpl.
  by rewrite list_insert_insert_eq.
Qed.

Lemma SetWithTTL_insert_plain c key value ttl now :
  cache c !! key = None -> ttl <= 0 ->
  SetWithTTL key value ttl now c = evict_if_over (link key value 0 c).
Proof.
  intros Hc Httl. unfold SetWithTTL. mrun. rewrite Hc.
  unfold list_PushFront. simpl.
  destruct (Z.ltb_spec 0 ttl); [lia|].
  unfold evict_if_over, link, list_Len. simpl.
  by destruct (capacity c <? _).
Qed.

Lemma SetWithTTL_insert_ttl c key value ttl now s' :
  cache c !! key = None -> 0 < ttl ->
  heap_Push (length (exps c))
    (exps c ++ [mkExp key (now + ttl) 0 false], expHeap c)
  = Ret tt s' ->
  SetWithTTL key value ttl now c =
    evict_if_over
      (set_updateCh true
         (set_heap s'
            (set_elems (<[length (elems c) :=
                           mkEntry key value (now + ttl)
                             (Some (length (exps c)))]>
                          (elems (link key value (now + ttl) c)))
               (link key value (now + ttl) c)))).
Proof.
  intros Hc Httl Hpush. unfold SetWithTTL. mrun. rewrite Hc.
  unfold list_PushFront. simpl.
  destruct (Z.ltb_spec 0 ttl); [|lia]. simpl.
  unfold new_exp, load_elem, store_elem. simpl.
  rewrite lookup_app_r by lia. rewrite Nat.sub_diag. simpl.
  rewrite lookup_app_r by lia. rewrite Nat.sub_diag. simpl.
  unfold with_heap. simpl. rewrite Hpush.
  unfold signalExpirationUpdate, evict_if_over, link, list_Len.
  unfold modify. simpl.
  by destruct (capacity c <? _).
Qed.

End SetProofs.

Section SetWf.
Context {K : Type} `{Countable K} {V : Type} (zero : V).
Implicit Types (c : Cache K V) (ent : entry K V) (x : expEntry K).
Local Arguments heap_Fix : simpl never.
Local Arguments heap_Push : simpl never.
Local Arguments heap_Pop : simpl never.
Local Arguments removeOldestLocked : simpl never.

Lemma hwf_alloc (o : list (expEntry K)) (h : list nat) x :
  hwf (o, h) -> hwf (o ++ [x], h) /\ length o ∉ h.
Proof.
  intros [Hnd Hidx]. simpl in *. split; [split; [done|]|].
  - simpl. intros i r Hr. destruct (Hidx i r Hr) as (x0 & Hx0 & Hi).
    exists x0. split; [|done]. rewrite lookup_app_l; [done|].
    by eapply lookup_lt_Some.
  - intros Hin. apply list_elem_of_lookup in Hin as [i Hi].
    destruct (Hidx i _ Hi) as (x0 & Hx0 & _).
    apply lookup_lt_Some in Hx0. lia.
Qed.

Lemma hwf_index_lt (o : list (expEntry K)) (h : list nat) r x :
  hwf (o, h) -> r ∈ h -> o !! r = Some x ->
  exists i : nat, exp_index x = Z.of_nat i /\ (i < length h)%nat.
Proof.
  intros [_ Hidx] Hin Hx. simpl in *.
  apply list_elem_of_lookup in Hin as [i Hi].
  destruct (Hidx i r Hi) as (x0 & Hx0 & Hi0).
  exists i. split; [congruence|]. by eapply lookup_lt_Some.
Qed.

Lemma wf_touch c ele ent :
  wf (set_elems (<[ele := ent]> (elems c)) c) -> wf (touch ele ent c).
Proof.
  intros Hwf. unfold touch.
  apply (wf_set_ll (set_elems (<[ele := ent]> (elems c)) c)); [done|].
  simpl. apply list_MoveToFront_perm.
  apply (wf_nodup _ Hwf).
Qed.

(** Attaching a freshly allocated record to an entry that has none. *)
Lemma attach_wf c ele ent key :
  wf c -> ele ∈ ll c -> elems c !! ele = Some ent ->
  ent_exp ent = None -> ent_expiration ent <> 0 -> key = ent_key ent ->
  exists s',
    heap_Push (length (exps c))
      (exps c ++ [mkExp key (ent_expiration ent) 0 false], expHeap c)
    = Ret tt s' /\
    wf (set_heap s'
          (set_elems (<[ele := set_ent_exp (Some (length (exps c))) ent]>
                        (elems c)) c)) /\
    s'.2 ≡ₚ length (exps c) :: expHeap c /\
    length s'.1 = S (length (exps c)).
Proof.
  intros Hwf Hin He Hexp Hnz ->.
  set (x := mkExp (ent_key ent) (ent_expiration ent) 0 false).
  destruct (hwf_alloc (exps c) (expHeap c) x (wf_heap c Hwf)) as [Hh Hfresh].
  destruct (heap_Push_ok (exps c ++ [x]) (expHeap c) (length (exps c)) x Hh)
    as (s' & Hs' & Hwf' & [Hlen Hf] & Hperm); [|done|].
  { rewrite lookup_app_r by lia. by rewrite Nat.sub_diag. }
  simpl in Hlen, Hf.
  exists s'. split; [done|]. split; [|split; [done|]].
  2: { rewrite Hlen, length_app. simpl. lia. }
  assert (Hwf1 : wf (set_heap s' c)).
  { apply wf_set_heap; [done..|].
    intros ele' ent' r Hin' He' Hr.
    destruct (wf_exp c Hwf ele' ent' r Hin' He' Hr)
      as (Hrh & x' & Hx' & ? & ? & ? & _).
    split; [rewrite Hperm; by right|].
    destruct (Hf r x') as (x'' & Hx'' & ? & ? & ?).
    { rewrite lookup_app_l; [done|]. by eapply lookup_lt_Some. }
    exists x''. repeat split; congruence. }
  apply (wf_set_elem (set_heap s' c) ele ent); [done..|].
  simpl. intros r [= <-]. split; [rewrite Hperm; by left|].
  destruct (Hf (length (exps c)) x) as (x'' & Hx'' & ? & ? & ?).
  { rewrite lookup_app_r by lia. by rewrite Nat.sub_diag. }
  exists x''. by repeat split.
Qed.

(** Rescheduling the record an entry already owns. *)
Lemma refresh_wf c ele ent r (value : V) (e : Z) :
  wf c -> ele ∈ ll c -> elems c !! ele = Some ent ->
  ent_exp ent = Some r -> e <> 0 ->
  exists x s',
    exps c !! r = Some x /\
    heap_Fix (exp_index x)
      (<[r := set_exp_expiration e x]> (exps c), expHeap c) = Ret tt s' /\
    wf (set_heap s'
          (set_elems (<[ele := mkEntry (ent_key ent) value e (Some r)]>
                        (elems c)) c)) /\
    s'.2 ≡ₚ expHeap c /\ length s'.1 = length (exps c).
Proof.
  intros Hwf Hin He Hexp Hnz.
  destruct (wf_exp c Hwf ele ent r Hin He Hexp)
    as (Hrh & x & Hx & Hk & Hxe & Hxc & _).
  destruct (hwf_index_lt _ _ r x (wf_heap c Hwf) Hrh Hx) as (i & Hi & Hilt).
  assert (Hh : hwf (<[r := set_exp_expiration e x]> (exps c), expHeap c)).
  { eapply hwf_same_index; [apply Hwf|done|done]. }
  destruct (heap_Fix_ok i _ Hh Hilt) as (s' & Hs' & Hwf' & [Hlen Hf] & Hperm).
  simpl in Hlen, Hf, Hperm. rewrite length_insert in Hlen.
  exists x, s'. split; [done|]. split; [by rewrite Hi|].
  split; [|done].
  assert (Hlt : (ele < length (elems c))%nat) by by eapply lookup_lt_Some.
  assert (Hrlt : (r < length (exps c))%nat) by by eapply lookup_lt_Some.
  set (c1 := set_elems (<[ele := mkEntry (ent_key ent) value e None]> (elems c)) c).
  assert (Hwf1 : wf c1).
  { apply (wf_set_elem c ele ent); [done..|]. simpl. by intros ?. }
  assert (Hwf2 : wf (set_heap s' c1)).
  { apply wf_set_heap; [done..|]. simpl.
    intros ele' ent' r' Hin' He' Hr'.
    destruct (decide (ele' = ele)) as [->|Hne].
    { rewrite list_lookup_insert_eq in He' by done.
      injection He' as <-. done. }
    rewrite list_lookup_insert_ne in He' by done.
    destruct (wf_exp c Hwf ele' ent' r' Hin' He' Hr')
      as (Hrh' & x' & Hx' & ? & ? & ? & _).
    split; [by rewrite Hperm|].
    assert (r' <> r).
    { intros ->. apply Hne.
      by eapply (wf_attached_inj c ele' ele ent' ent r). }
    destruct (Hf r' x') as (x'' & Hx'' & ? & ? & ?).
    { by rewrite list_lookup_insert_ne. }
    exists x''. repeat split; congruence. }
  pose proof (wf_set_elem (set_heap s' c1) ele
    (mkEntry (ent_key ent) value e None)
    (mkEntry (ent_key ent) value e (Some r)) Hwf2 Hin) as Hfin.
  simpl in Hfin. rewrite list_insert_insert_eq in Hfin.
  apply Hfin; [by apply list_lookup_insert_eq|done|].
  intros r' [= <-]. split; [by rewrite Hperm|].
  destruct (Hf r (set_exp_expiration e x)) as (x'' & Hx'' & ? & ? & ?).
  { by apply list_lookup_insert_eq. }
  exists x''. simpl in *. repeat split; congruence.
Qed.

(** Clearing the TTL of an entry. *)
Lemma clear_wf c ele ent (value : V) :
  wf c -> ele ∈ ll c -> elems c !! ele = Some ent ->
  wf (set_elems (<[ele := mkEntry (ent_key ent) value 0 None]> (elems c))
        (cancel_exp (ent_exp ent) c)).
Proof.
  intros Hwf Hin He.
  assert (Hlt : (ele < length (elems c))%nat) by by eapply lookup_lt_Some.
  set (c1 := set_elems (<[ele := mkEntry (ent_key ent) value 0 None]> (elems c)) c).
  assert (Hwf1 : wf c1).
  { apply (wf_set_elem c ele ent); [done..|]. simpl. by intros ?. }
  destruct (ent_exp ent) as [r|] eqn:Hexp; simpl; [|done].
  destruct (wf_exp c Hwf ele ent r Hin He Hexp) as (Hrh & x & Hx & _).
  rewrite Hx.
  change (wf (set_heap (<[r := set_exp_canceled true x]> (exps c), expHeap c) c1)).
  apply wf_set_heap; [done| |].
  - eapply hwf_same_index; [apply Hwf|done|done].
  - simpl. intros ele' ent' r' Hin' He' Hr'.
    destruct (decide (ele' = ele)) as [->|Hne].
    { rewrite list_lookup_insert_eq in He' by done.
      injection He' as <-. done. }
    rewrite list_lookup_insert_ne in He' by done.
    destruct (wf_exp c Hwf ele' ent' r' Hin' He' Hr')
      as (Hrh' & x' & Hx' & ? & ? & ? & _).
    split; [done|]. exists x'. split; [|done].
    rewrite list_lookup_insert_ne; [done|]. intros <-.
    apply Hne. by eapply (wf_attached_inj c ele' ele ent' ent r).
Qed.

Lemma cancel_exp_frame c (r : option nat) :
  ll (cancel_exp r c) = ll c /\ cache (cancel_exp r c) = cache c /\
  capacity (cancel_exp r c) = capacity c /\
  elems (cancel_exp r c) = elems c /\
  expHeap (cancel_exp r c) = expHeap c /\
  length (exps (cancel_exp r c)) = length (exps c).
Proof.
  unfold cancel_exp. destruct r as [r|]; [|done].
  destruct (exps c !! r); [|done]. simpl.
  by rewrite length_insert.
Qed.

(** [SetWithTTL] on a key that is present. *)
Lemma SetWithTTL_update_ok c key (value : V) ttl now ele :
  wf c -> cache c !! key = Some ele -> (0 < ttl -> 0 < now) ->
  exists c', SetWithTTL key value ttl now c = Ret tt c' /\ wf c' /\
    ll c' = list_MoveToFront ele (ll c) /\ cache c' = cache c /\
    capacity c' = capacity c.
Proof.
  intros Hwf Hc Hnow.
  destruct (wf_map c Hwf key ele Hc) as (Hin & ent & He & Hk).
  destruct (Z.ltb_spec 0 ttl) as [Httl|Httl].
  - destruct (ent_exp ent) as [r|] eqn:Hexp.
    + destruct (refresh_wf c ele ent r value (now + ttl) Hwf Hin He Hexp)
        as (x & s' & Hx & Hfix & Hwf' & _); [lia|].
      eexists. split.
      { by eapply SetWithTTL_update_fix. }
      split; [|done]. apply wf_set_updateCh.
      apply (wf_set_ll (set_heap s' (set_elems _ c))); [done|].
      simpl. apply list_MoveToFront_perm, Hwf.
    + assert (Hwf1 : wf (set_elems
        (<[ele := mkEntry (ent_key ent) value (now + ttl) None]> (elems c)) c)).
      { apply (wf_set_elem c ele ent); [done..|]. simpl. by intros ?. }
      assert (Hlt : (ele < length (elems c))%nat) by by eapply lookup_lt_Some.
      destruct (attach_wf _ ele (mkEntry (ent_key ent) value (now + ttl) None)
                  key Hwf1 Hin) as (s' & Hpush & Hwf' & _).
      { simpl. by apply list_lookup_insert_eq. }
      { done. } { simpl. lia. } { done. }
      simpl in Hpush, Hwf'. rewrite list_insert_insert_eq in Hwf'.
      eexists. split.
      { by eapply SetWithTTL_update_push. }
      split; [|done]. apply wf_set_updateCh.
      apply (wf_set_ll (set_heap s' (set_elems _ c))); [done|].
      simpl. apply list_MoveToFront_perm, Hwf.
  - eexists. split.
    { eapply SetWithTTL_update_clear; [done..| |done].
      intros r Hr.
      by destruct (wf_exp c Hwf ele ent r Hin He Hr) as (_ & x & -> & _). }
    destruct (cancel_exp_frame c (ent_exp ent)) as (Hl & Hca & Hcap & Hel & _).
    split; [|simpl; by rewrite Hl, Hca, Hcap].
    apply wf_touch. rewrite Hel. by apply clear_wf.
Qed.

End SetWf.

Section InsertWf.
Context {K : Type} `{Countable K} {V : Type} (zero : V).
Implicit Types (c : Cache K V) (ent : entry K V) (x : expEntry K).
Local Arguments heap_Fix : simpl never.
Local Arguments heap_Push : simpl never.
Local Arguments heap_Pop : simpl never.
Local Arguments removeOldestLocked : simpl never.

Lemma snoc_of_nonempty (l : list nat) :
  l <> [] -> exists l' a, l = l' ++ [a].
Proof.
  intros Hne. destruct (last l) as [a|] eqn:Hl.
  - apply last_Some in Hl as [l' ->]. by exists l', a.
  - by apply last_None in Hl.
Qed.

Lemma evict_if_over_ok c :
  wf c -> ll c <> [] ->
  exists c', evict_if_over c = Ret tt c' /\ wf c' /\
    capacity c' = capacity c /\
    (if capacity c <? list_Len c
     then exists ele, ll c = ll c' ++ [ele]
     else c' = c).
Proof.
  intros Hwf Hne. unfold evict_if_over.
  destruct (capacity c <? list_Len c); [|by exists c].
  destruct (snoc_of_nonempty _ Hne) as (l & ele & Hll).
  destruct (removeOldestLocked_ok c l ele Hwf Hll) as (ent & He & Hrun & Hl').
  eexists. split; [done|].
  assert (Hin : ele ∈ ll c) by (rewrite Hll; set_solver).
  split; [by apply wf_unlink_cancel|].
  split.
  - simpl. by destruct (cancel_exp_frame c (ent_exp ent)) as (_ & _ & -> & _).
  - exists ele. by rewrite Hl'.
Qed.

(** [SetWithTTL] on a key that is absent: the state before the
    capacity check. *)
Lemma SetWithTTL_insert_ok c key (value : V) ttl now :
  wf c -> cache c !! key = None -> (0 < ttl -> 0 < now) ->
  exists c1, SetWithTTL key value ttl now c = evict_if_over c1 /\ wf c1 /\
    ll c1 = length (elems c) :: ll c /\
    cache c1 = <[key := length (elems c)]> (cache c) /\
    capacity c1 = capacity c.
Proof.
  intros Hwf Hc Hnow.
  destruct (Z.ltb_spec 0 ttl) as [Httl|Httl].
  - pose proof (wf_insert c key value (now + ttl) Hwf Hc) as Hwf1.
    fold (link key value (now + ttl) c) in Hwf1.
    destruct (attach_wf (link key value (now + ttl) c) (length (elems c))
                (mkEntry key value (now + ttl) None) key Hwf1)
      as (s' & Hpush & Hwf' & _).
    { simpl. by left. }
    { simpl. rewrite lookup_app_r by lia. by rewrite Nat.sub_diag. }
    { done. } { simpl. lia. } { done. }
    simpl in Hpush.
    eexists. split; [by eapply SetWithTTL_insert_ttl|].
    split; [by apply wf_set_updateCh|]. done.
  - exists (link key value 0 c).
    split; [by apply SetWithTTL_insert_plain|].
    split; [by apply wf_insert|]. done.
Qed.

Lemma SetWithTTL_inv c key (value : V) ttl now :
  cache_inv c -> (0 < ttl -> 0 < now) ->
  exists c', SetWithTTL key value ttl now c = Ret tt c' /\ cache_inv c'.
Proof.
  intros (Hwf & Hpos & Hcap) Hnow.
  destruct (cache c !! key) as [ele|] eqn:Hc.
  - destruct (SetWithTTL_update_ok c key value ttl now ele Hwf Hc Hnow)
      as (c' & Hrun & Hwf' & Hll & _ & Hcap').
    exists c'. split; [done|]. split; [done|].
    unfold list_Len in *. rewrite Hcap', Hll.
    rewrite (Permutation_length (list_MoveToFront_perm ele (ll c) (wf_nodup c Hwf))).
    done.
  - destruct (SetWithTTL_insert_ok c key value ttl now Hwf Hc Hnow)
      as (c1 & Hrun & Hwf1 & Hll1 & _ & Hcap1).
    destruct (evict_if_over_ok c1 Hwf1) as (c' & Hev & Hwf' & Hcap' & Hif).
    { by rewrite Hll1. }
    exists c'. split; [congruence|]. split; [done|].
    rewrite Hcap', Hcap1. split; [done|].
    unfold list_Len in *. rewrite Hcap1, Hll1 in Hif.
    destruct (Z.ltb_spec (capacity c) (Z.of_nat (length (length (elems c) :: ll c))))
      as [Hover|Hfit].
    + destruct Hif as [ele Hele].
      apply (f_equal length) in Hele. rewrite length_app in Hele.
      simpl in *. lia.
    + subst c'. rewrite Hll1. done.
Qed.

Lemma Delete_inv c key :
  cache_inv c -> exists c', Delete key c = Ret tt c' /\ cache_inv c'.
Proof.
  intros (Hwf & Hpos & Hcap).
  destruct (cache c !! key) as [ele|] eqn:Hc.
  - destruct (Delete_ok c key ele Hwf Hc) as (ent & He & Hk & Hrun).
    destruct (wf_map c Hwf key ele Hc) as (Hin & _).
    eexists. split; [done|]. subst key.
    split; [by apply wf_unlink_cancel|].
    destruct (cancel_exp_frame c (ent_exp ent)) as (Hl & _ & Hcp & _).
    unfold list_Len in *. simpl. rewrite Hl, Hcp. split; [done|].
    pose proof (length_filter (fun e => e <> ele) (ll c)).
    unfold list_Remove. lia.
  - exists c. split; [by apply Delete_absent|]. done.
Qed.

Lemma Get_inv c key now :
  cache_inv c ->
  exists v b c', Get zero key now c = Ret (v, b) c' /\ cache_inv c'.
Proof.
  intros (Hwf & Hpos & Hcap).
  destruct (cache c !! key) as [ele|] eqn:Hc.
  - destruct (wf_map c Hwf key ele Hc) as (Hin & ent & He & Hk).
    destruct (decide (ent_expiration ent <> 0 /\ ent_expiration ent < now))
      as [[Hz Hlt]|Hno].
    + exists zero, false. eexists. split; [by eapply Get_expired|].
      subst key. split; [by apply wf_remove|].
      unfold list_Len in *. simpl. split; [done|].
      pose proof (length_filter (fun e => e <> ele) (ll c)).
      unfold list_Remove. lia.
    + exists (ent_value ent), true. eexists. split.
      { eapply Get_hit; [done..|]. lia. }
      split.
      { apply wf_set_ll; [done|]. apply list_MoveToFront_perm, Hwf. }
      unfold list_Len in *. simpl. split; [done|].
      by rewrite (Permutation_length
        (list_MoveToFront_perm ele (ll c) (wf_nodup c Hwf))).
  - exists zero, false, c. split; [by apply Get_absent|]. done.
Qed.

Lemma wf_empty cap (el : list (entry K V)) (ex : list (expEntry K)) b :
  wf (mkCache cap [] ∅ [] b el ex).
Proof.
  split; simpl.
  - apply NoDup_nil_2.
  - intros ele Hin. by apply elem_of_nil in Hin.
  - intros k ele Hk. by rewrite lookup_empty in Hk.
  - by rewrite map_size_empty.
  - split; simpl; [apply NoDup_nil_2|]. intros i r Hr. done.
  - intros ele ent r Hin. by apply elem_of_nil in Hin.
Qed.

Lemma Dump_ok c :
  Dump c = Ret tt (mkCache (capacity c) [] ∅ [] (updateCh c) (elems c) (exps c)).
Proof. reflexivity. Qed.

Lemma Dump_inv c :
  cache_inv c -> exists c', Dump c = Ret tt c' /\ cache_inv c'.
Proof.
  intros (Hwf & Hpos & Hcap). eexists. split; [apply Dump_ok|].
  split; [apply wf_empty|]. unfold list_Len. simpl. lia.
Qed.

Lemma NewCache_ok cap :
  0 < cap -> NewCache cap = inr (mkCache cap [] ∅ [] false [] [] : Cache K V).
Proof.
  intros Hcap. unfold NewCache.
  destruct (Z.leb_spec cap 0); [lia|]. reflexivity.
Qed.

Lemma NewCache_inv cap c :
  NewCache cap = inr c -> cache_inv c /\ 0 < cap.
Proof.
  unfold NewCache. destruct (Z.leb_spec cap 0); [done|].
  intros [= <-]. split; [|done].
  split; [apply wf_empty|]. unfold list_Len. simpl. lia.
Qed.

Lemma evict_loop_ok (fuel : nat) : forall c,
  wf c -> 0 < capacity c -> (length (ll c) <= fuel)%nat ->
  exists c', evict_loop fuel c = Ret tt c' /\ wf c' /\
    capacity c' = capacity c /\
    ll c' = take (Z.to_nat (capacity c)) (ll c) /\
    elems c' = elems c /\
    (forall k, cache c' !! k =
       match cache c !! k with
       | Some ele => if decide (ele ∈ ll c') then Some ele else None
       | None => None
       end).
Proof.
  induction fuel as [|fuel IH]; intros c Hwf Hpos Hfuel.
  - destruct (ll c) eqn:Hll; [|simpl in Hfuel; lia].
    exists c. split.
    { simpl. unfold bind, get, list_Len. rewrite Hll. simpl.
      destruct (Z.ltb_spec (capacity c) (Z.of_nat 0)); [lia|]. done. }
    split; [done|]. split; [done|]. rewrite Hll.
    split; [by rewrite take_nil|]. split; [done|].
    intros k. destruct (cache c !! k) as [ele|] eqn:Hk; [|done].
    destruct (wf_map c Hwf k ele Hk) as (Hin & _).
    rewrite Hll in Hin. by apply elem_of_nil in Hin.
  - simpl. unfold bind at 1, get at 1.
    destruct (Z.ltb_spec (capacity c) (list_Len c)) as [Hover|Hfit].
    + unfold list_Len in Hover.
      assert (Hne : ll c <> []) by (intros E; rewrite E in Hover; simpl in Hover; lia).
      destruct (snoc_of_nonempty _ Hne) as (l & ele & Hll).
      destruct (removeOldestLocked_ok c l ele Hwf Hll) as (ent & He & Hrun & Hl').
      assert (Hin : ele ∈ ll c) by (rewrite Hll; set_solver).
      pose proof (wf_unlink_cancel c ele ent Hwf Hin He) as Hwf1.
      set (c1 := unlink ele (ent_key ent) (cancel_exp (ent_exp ent) c)) in *.
      destruct (cancel_exp_frame c (ent_exp ent))
        as (Hfl & Hfc & Hfcap & Hfel & _).
      assert (Hcap1 : capacity c1 = capacity c) by (simpl; done).
      destruct (IH c1 Hwf1) as (c' & Hrun' & Hwf' & Hcap' & Hll' & Hel' & Hca').
      { by rewrite Hcap1. }
      { rewrite Hl'. rewrite Hll, length_app in Hfuel. simpl in Hfuel. lia. }
      exists c'. split.
      { unfold bind. rewrite Hrun. done. }
      split; [done|]. split; [congruence|].
      rewrite Hll, length_app in Hover. simpl in Hover.
      split.
      { rewrite Hll', Hcap1, Hl', Hll. rewrite take_app_le; [done|]. lia. }
      split; [by rewrite Hel'|].
      intros k. rewrite Hca'. simpl. rewrite Hfc.
      destruct (decide (k = ent_key ent)) as [->|Hne'].
      * rewrite lookup_delete_eq.
        destruct (wf_elem c Hwf ele Hin) as (e0 & He0 & Hc0).
        assert (e0 = ent) by congruence. subst e0. rewrite Hc0.
        rewrite decide_False; [done|].
        rewrite Hll', Hl'. intros Hin'%subseteq_take.
        pose proof (wf_nodup c Hwf) as Hnd. rewrite Hll in Hnd.
        apply NoDup_app in Hnd as (_ & Hdis & _).
        apply (Hdis ele Hin'). by left.
      * by rewrite lookup_delete_ne.
    + exists c. split; [done|]. split; [done|]. split; [done|].
      unfold list_Len in Hfit.
      split; [rewrite take_ge; [done|lia]|]. split; [done|].
      intros k. destruct (cache c !! k) as [ele|] eqn:Hk; [|done].
      destruct (wf_map c Hwf k ele Hk) as (Hin & _).
      by rewrite decide_True.
Qed.

Lemma SetCapacity_ok c n :
  wf c -> 0 < n ->
  exists c', SetCapacity n c = Ret tt c' /\ wf c' /\
    capacity c' = n /\
    ll c' = take (Z.to_nat n) (ll c) /\
    elems c' = elems c /\
    (forall k, cache c' !! k =
       match cache c !! k with
       | Some ele => if decide (ele ∈ ll c') then Some ele else None
       | None => None
       end).
Proof.
  intros Hwf Hn. unfold SetCapacity.
  destruct (Z.leb_spec n 0); [lia|].
  unfold bind, modify, get.
  destruct (evict_loop_ok (length (ll c)) (set_capacity n c))
    as (c' & Hrun & Hwf' & Hcap' & Hrest); [by apply wf_set_capacity|done..|].
  exists c'. simpl in *. by rewrite Hrun.
Qed.

Lemma SetCapacity_inv c n :
  cache_inv c -> 0 < n ->
  exists c', SetCapacity n c = Ret tt c' /\ cache_inv c'.
Proof.
  intros (Hwf & _ & _) Hn.
  destruct (SetCapacity_ok c n Hwf Hn) as (c' & Hrun & Hwf' & Hcap & Hll & _).
  exists c'. split; [done|]. split; [done|]. rewrite Hcap. split; [done|].
  unfold list_Len. rewrite Hll, length_take. lia.
Qed.

End InsertWf.

Section SweepProofs.
Context {K : Type} `{Countable K} {V : Type} (zero : V).
Implicit Types (c : Cache K V) (ent : entry K V) (x : expEntry K).
Local Arguments heap_Fix : simpl never.
Local Arguments heap_Push : simpl never.
Local Arguments heap_Pop : simpl never.
Local Arguments removeOldestLocked : simpl never.

Lemma set_heap_id c : set_heap (exps c, expHeap c) c = c.
Proof. by destruct c. Qed.

Lemma with_heap_run {A} (m : M (HeapSt K) A) c (a : A) (s' : HeapSt K) :
  m (exps c, expHeap c) = Ret a s' -> with_heap m c = Ret a (set_heap s' c).
Proof. unfold with_heap. by intros ->. Qed.

Lemma with_heap_read {A} (m : M (HeapSt K) A) c (a : A) :
  m (exps c, expHeap c) = Ret a (exps c, expHeap c) -> with_heap m c = Ret a c.
Proof. intros Hm. rewrite (with_heap_run m c a _ Hm). by rewrite set_heap_id. Qed.

Lemma with_heap_Len c :
  with_heap Len c = Ret (Z.of_nat (length (expHeap c))) c.
Proof. by apply with_heap_read. Qed.

Lemma with_heap_root c r0 :
  expHeap c !! 0%nat = Some r0 -> with_heap (slice_at 0) c = Ret r0 c.
Proof. intros Hr. apply with_heap_read. by apply (slice_at_ok _ _ 0%nat). Qed.

Lemma with_heap_deref c r x :
  exps c !! r = Some x -> with_heap (deref r) c = Ret x c.
Proof. intros Hx. apply with_heap_read. by apply deref_ok. Qed.

Lemma nextWait_nil c now :
  expHeap c = [] -> nextWait now c = Ret (Some Hour) c.
Proof.
  intros Hh. unfold nextWait.
  rewrite (bind_Ret _ _ _ _ _ (with_heap_Len c)). by rewrite Hh.
Qed.

Lemma nextWait_canceled c now r0 x s' :
  expHeap c !! 0%nat = Some r0 -> exps c !! r0 = Some x ->
  exp_canceled x = true ->
  heap_Pop (exps c, expHeap c) = Ret r0 s' ->
  nextWait now c = Ret None (set_heap s' c).
Proof.
  intros Hr Hx Hc Hpop. unfold nextWait.
  rewrite (bind_Ret _ _ _ _ _ (with_heap_Len c)).
  assert (Hlen : (0 < length (expHeap c))%nat) by (by eapply lookup_lt_Some).
  destruct (Z.eqb_spec (Z.of_nat (length (expHeap c))) 0); [lia|].
  rewrite (bind_Ret _ _ _ _ _ (with_heap_root c r0 Hr)).
  rewrite (bind_Ret _ _ _ _ _ (with_heap_deref c r0 x Hx)).
  rewrite Hc.
  by rewrite (bind_Ret _ _ _ _ _ (with_heap_run _ c r0 s' Hpop)).
Qed.

Lemma nextWait_pending c now r0 x :
  expHeap c !! 0%nat = Some r0 -> exps c !! r0 = Some x ->
  exp_canceled x = false ->
  nextWait now c =
    Ret (Some (if now <? exp_expiration x then exp_expiration x - now else 0)) c.
Proof.
  intros Hr Hx Hc. unfold nextWait.
  rewrite (bind_Ret _ _ _ _ _ (with_heap_Len c)).
  assert (Hlen : (0 < length (expHeap c))%nat) by (by eapply lookup_lt_Some).
  destruct (Z.eqb_spec (Z.of_nat (length (expHeap c))) 0); [lia|].
  rewrite (bind_Ret _ _ _ _ _ (with_heap_root c r0 Hr)).
  rewrite (bind_Ret _ _ _ _ _ (with_heap_deref c r0 x Hx)).
  rewrite Hc. by destruct (now <? exp_expiration x).
Qed.

Lemma sweep_iter_nil c now :
  expHeap c = [] -> sweep_iter now c = Ret false c.
Proof.
  intros Hh. unfold sweep_iter.
  rewrite (bind_Ret _ _ _ _ _ (with_heap_Len c)). by rewrite Hh.
Qed.

Lemma sweep_iter_canceled c now r0 x s' :
  expHeap c !! 0%nat = Some r0 -> exps c !! r0 = Some x ->
  exp_canceled x = true ->
  heap_Pop (exps c, expHeap c) = Ret r0 s' ->
  sweep_iter now c = Ret true (set_heap s' c).
Proof.
  intros Hr Hx Hc Hpop. unfold sweep_iter.
  rewrite (bind_Ret _ _ _ _ _ (with_heap_Len c)).
  assert (Hlen : (0 < length (expHeap c))%nat) by (by eapply lookup_lt_Some).
  destruct (Z.ltb_spec 0 (Z.of_nat (length (expHeap c)))); [|lia].
  cbn [negb].
  rewrite (bind_Ret _ _ _ _ _ (with_heap_root c r0 Hr)).
  rewrite (bind_Ret _ _ _ _ _ (with_heap_deref c r0 x Hx)).
  rewrite Hc.
  by rewrite (bind_Ret _ _ _ _ _ (with_heap_run _ c r0 s' Hpop)).
Qed.

Lemma sweep_iter_early c now r0 x :
  expHeap c !! 0%nat = Some r0 -> exps c !! r0 = Some x ->
  exp_canceled x = false -> now < exp_expiration x ->
  sweep_iter now c = Ret false c.
Proof.
  intros Hr Hx Hc Hlt. unfold sweep_iter.
  rewrite (bind_Ret _ _ _ _ _ (with_heap_Len c)).
  assert (Hlen : (0 < length (expHeap c))%nat) by (by eapply lookup_lt_Some).
  destruct (Z.ltb_spec 0 (Z.of_nat (length (expHeap c)))); [|lia].
  cbn [negb].
  rewrite (bind_Ret _ _ _ _ _ (with_heap_root c r0 Hr)).
  rewrite (bind_Ret _ _ _ _ _ (with_heap_deref c r0 x Hx)).
  rewrite Hc.
  rewrite (bind_Ret _ _ _ _ _ (with_heap_deref c r0 x Hx)).
  by destruct (Z.ltb_spec now (exp_expiration x)); [|lia].
Qed.

Lemma sweep_iter_due c now r0 x s' x' :
  expHeap c !! 0%nat = Some r0 -> exps c !! r0 = Some x ->
  exp_canceled x = false -> exp_expiration x <= now ->
  heap_Pop (exps c, expHeap c) = Ret r0 s' -> s'.1 !! r0 = Some x' ->
  (forall ele, cache c !! exp_key x' = Some ele -> is_Some (elems c !! ele)) ->
  sweep_iter now c = Ret true (sweep_due now (exp_key x') (set_heap s' c)).
Proof.
  intros Hr Hx Hc Hle Hpop Hx' Hel. unfold sweep_iter.
  rewrite (bind_Ret _ _ _ _ _ (with_heap_Len c)).
  assert (Hlen : (0 < length (expHeap c))%nat) by (by eapply lookup_lt_Some).
  destruct (Z.ltb_spec 0 (Z.of_nat (length (expHeap c)))); [|lia].
  cbn [negb].
  rewrite (bind_Ret _ _ _ _ _ (with_heap_root c r0 Hr)).
  rewrite (bind_Ret _ _ _ _ _ (with_heap_deref c r0 x Hx)).
  rewrite Hc.
  rewrite (bind_Ret _ _ _ _ _ (with_heap_deref c r0 x Hx)).
  destruct (Z.ltb_spec now (exp_expiration x)); [lia|].
  rewrite (bind_Ret _ _ _ _ _ (with_heap_run _ c r0 s' Hpop)).
  rewrite (bind_Ret _ _ _ _ _ (with_heap_deref (set_heap s' c) r0 x' Hx')).
  unfold sweep_due. mrun.
  destruct (cache c !! exp_key x') as [ele|]; [|done].
  unfold load_elem. simpl.
  destruct (Hel ele eq_refl) as [ent ->].
  by destruct (negb (ent_expiration ent =? 0) && negb (now <? ent_expiration ent)).
Qed.

End SweepProofs.

Section SweepWf.
Context {K : Type} `{Countable K} {V : Type} (zero : V).
Implicit Types (c : Cache K V) (ent : entry K V) (x : expEntry K).
Local Arguments heap_Fix : simpl never.
Local Arguments heap_Push : simpl never.
Local Arguments heap_Pop : simpl never.
Local Arguments removeOldestLocked : simpl never.

(** What the record a live entry points at looks like. *)
Lemma attached_record c ele ent r x :
  wf c -> ele ∈ ll c -> elems c !! ele = Some ent -> ent_exp ent = Some r ->
  exps c !! r = Some x ->
  cache c !! exp_key x = Some ele /\
  exp_expiration x = ent_expiration ent /\ exp_canceled x = false /\
  ent_expiration ent <> 0.
Proof.
  intros Hwf Hin He Hr Hx.
  destruct (wf_exp c Hwf ele ent r Hin He Hr)
    as (_ & x0 & Hx0 & Hk & He0 & Hc0 & Hz).
  assert (x0 = x) by congruence. subst x0.
  destruct (wf_elem c Hwf ele Hin) as (ent0 & He1 & Hc1).
  assert (ent0 = ent) by congruence. subst ent0.
  rewrite Hk. done.
Qed.

(** Popping a record no live entry points at keeps the cache
    well-formed. *)
Lemma wf_pop c r0 (s' : HeapSt K) :
  wf c -> hwf s' -> hframe (exps c, expHeap c) s' ->
  expHeap c ≡ₚ r0 :: s'.2 ->
  (forall ele ent, ele ∈ ll c -> elems c !! ele = Some ent ->
     ent_exp ent <> Some r0) ->
  wf (set_heap s' c).
Proof.
  intros Hwf Hh Hf Hp Hno. apply wf_set_heap_frame; [done..|].
  intros r (ele & ent & Hin & He & Hr).
  destruct (wf_exp c Hwf ele ent r Hin He Hr) as (Hrh & _).
  rewrite Hp in Hrh. apply elem_of_cons in Hrh as [->|Hrh]; [|done].
  by destruct (Hno ele ent Hin He).
Qed.

Lemma wf_root c r0 :
  wf c -> expHeap c !! 0%nat = Some r0 ->
  exists x s', exps c !! r0 = Some x /\
    heap_Pop (exps c, expHeap c) = Ret r0 s' /\
    hwf s' /\ hframe (exps c, expHeap c) s' /\ expHeap c ≡ₚ r0 :: s'.2.
Proof.
  intros Hwf Hr.
  destruct (wf_heap c Hwf) as [_ Hidx].
  destruct (Hidx 0%nat r0 Hr) as (x & Hx & _). simpl in Hx.
  destruct (heap_Pop_ok (exps c) (expHeap c) r0 (wf_heap c Hwf) Hr)
    as (s' & Hpop & Hh & Hf & Hp).
  by exists x, s'.
Qed.

Lemma nextWait_inv c now :
  cache_inv c ->
  exists w c', nextWait now c = Ret w c' /\ cache_inv c'.
Proof.
  intros (Hwf & Hpos & Hcap).
  destruct (expHeap c !! 0%nat) as [r0|] eqn:Hr.
  - destruct (wf_root c r0 Hwf Hr) as (x & s' & Hx & Hpop & Hh & Hf & Hp).
    destruct (exp_canceled x) eqn:Hc.
    + exists None, (set_heap s' c).
      split; [by eapply nextWait_canceled|].
      split; [|done]. apply (wf_pop c r0); [done..|].
      intros ele ent Hin He Hexp.
      destruct (attached_record c ele ent r0 x Hwf Hin He Hexp Hx)
        as (_ & _ & ? & _). congruence.
    + eexists _, c. split; [by eapply nextWait_pending|]. done.
  - exists (Some Hour), c. split; [|done]. apply nextWait_nil.
    destruct (expHeap c); [done|discriminate].
Qed.

Lemma wf_sweep_due c now r0 x x' (s' : HeapSt K) :
  wf c -> exps c !! r0 = Some x -> exp_canceled x = false ->
  exp_expiration x <= now ->
  hwf s' -> hframe (exps c, expHeap c) s' -> expHeap c ≡ₚ r0 :: s'.2 ->
  s'.1 !! r0 = Some x' -> exp_key x' = exp_key x ->
  wf (sweep_due now (exp_key x') (set_heap s' c)).
Proof.
  intros Hwf Hx Hc Hle Hh Hf Hp Hx' Hk. unfold sweep_due. simpl.
  destruct (cache c !! exp_key x') as [ele|] eqn:Hm.
  - destruct (wf_map c Hwf _ ele Hm) as (Hin & ent & He & Hkey).
    rewrite He.
    destruct (negb (ent_expiration ent =? 0) && negb (now <? ent_expiration ent))
      eqn:Hcond.
    + change (wf (set_heap s' (unlink ele (exp_key x') c))).
      rewrite <-Hkey.
      apply (wf_pop _ r0); [by apply wf_remove|done..|].
      simpl. intros ele' ent' Hin' He' Hexp.
      apply list_Remove_elem in Hin' as [Hne Hin'].
      destruct (attached_record c ele' ent' r0 x Hwf Hin' He' Hexp Hx)
        as (Hm' & _).
      rewrite <-Hk, Hm in Hm'. congruence.
    + apply (wf_pop c r0); [done..|].
      intros ele' ent' Hin' He' Hexp.
      destruct (attached_record c ele' ent' r0 x Hwf Hin' He' Hexp Hx)
        as (Hm' & Hexpn & _ & Hz).
      rewrite <-Hk, Hm in Hm'. assert (ele' = ele) by congruence. subst ele'.
      assert (ent' = ent) by congruence. subst ent'.
      apply andb_false_iff in Hcond as [Hcond|Hcond];
        apply negb_false_iff in Hcond; lia.
  - apply (wf_pop c r0); [done..|].
    intros ele' ent' Hin' He' Hexp.
    destruct (attached_record c ele' ent' r0 x Hwf Hin' He' Hexp Hx)
      as (Hm' & _).
    rewrite <-Hk in Hm'. congruence.
Qed.

Lemma sweep_due_frame c now key :
  capacity (sweep_due now key c) = capacity c /\
  expHeap (sweep_due now key c) = expHeap c /\
  (length (ll (sweep_due now key c)) <= length (ll c))%nat.
Proof.
  unfold sweep_due. destruct (cache c !! key) as [ele|]; [|done].
  destruct (elems c !! ele) as [ent|]; [|done].
  destruct (negb _ && _); [|done]. simpl.
  repeat split. apply length_filter.
Qed.

Lemma sweep_iter_inv c now :
  cache_inv c ->
  exists b c', sweep_iter now c = Ret b c' /\ cache_inv c' /\
    if b then S (length (expHeap c')) = length (expHeap c) else c' = c.
Proof.
  intros (Hwf & Hpos & Hcap).
  destruct (expHeap c !! 0%nat) as [r0|] eqn:Hr.
  - destruct (wf_root c r0 Hwf Hr) as (x & s' & Hx & Hpop & Hh & Hf & Hp).
    pose proof (Permutation_length Hp) as Hlen. simpl in Hlen.
    destruct (exp_canceled x) eqn:Hc.
    + exists true, (set_heap s' c).
      split; [by eapply sweep_iter_canceled|].
      split; [|by destruct s'].
      split; [|done]. apply (wf_pop c r0); [done..|].
      intros ele ent Hin He Hexp.
      destruct (attached_record c ele ent r0 x Hwf Hin He Hexp Hx)
        as (_ & _ & ? & _). congruence.
    + destruct (Z.lt_ge_cases now (exp_expiration x)) as [Hlt|Hle].
      * exists false, c. split; [by eapply sweep_iter_early|]. done.
      * destruct Hf as [Hfl Hfr].
        destruct (Hfr r0 x Hx) as (x' & Hx' & Hk & _).
        exists true. eexists. split.
        { eapply sweep_iter_due; try done.
          intros ele Hm. destruct (wf_map c Hwf _ ele Hm) as (_ & ent & -> & _).
          by eexists. }
        destruct (sweep_due_frame (set_heap s' c) now (exp_key x'))
          as (Hcp & Hhp & Hll).
        split; [|rewrite Hhp; by destruct s'].
        split; [by eapply (wf_sweep_due c now r0 x x')|].
        unfold list_Len in *. rewrite Hcp. simpl in *. lia.
  - exists false, c. split; [|done]. apply sweep_iter_nil.
    destruct (expHeap c); [done|discriminate].
Qed.

Lemma sweep_loop_inv (fuel : nat) now : forall c,
  cache_inv c -> (length (expHeap c) <= fuel)%nat ->
  exists c', sweep_loop fuel now c = Ret tt c' /\ cache_inv c'.
Proof.
  induction fuel as [|fuel IH]; intros c Hinv Hlen;
    destruct (sweep_iter_inv c now Hinv) as (b & c1 & Hrun & Hinv1 & Hb);
    simpl; rewrite (bind_Ret _ _ _ _ _ Hrun); destruct b.
  - lia.
  - by exists c1.
  - apply IH; [done|lia].
  - by exists c1.
Qed.

Lemma sweep_inv c now :
  cache_inv c -> exists c', sweep now c = Ret tt c' /\ cache_inv c'.
Proof. intros Hinv. by apply (sweep_loop_inv (length (expHeap c)) now c). Qed.

(** Every public operation, called with a legal argument, returns and
    keeps the invariant. *)
Lemma exec_inv c (o : op K V) :
  cache_inv c -> clock_ok o ->
  (forall n, o = OpSetCapacity n -> 0 < n) ->
  exists c', exec zero o c = Ret tt c' /\ cache_inv c'.
Proof.
  intros Hinv Hclk Hn. destruct o as [k now|k v|k v ttl now|k| |n|now|now]; simpl.
  - destruct (Get_inv zero c k now Hinv) as (v & b & c' & Hrun & Hinv').
    exists c'. by rewrite (bind_Ret _ _ _ _ _ Hrun).
  - apply SetWithTTL_inv; [done|lia].
  - apply SetWithTTL_inv; [done|]. by intros _.
  - by apply Delete_inv.
  - by apply Dump_inv.
  - apply SetCapacity_inv; [done|]. by apply Hn.
  - destruct (nextWait_inv c now Hinv) as (w & c' & Hrun & Hinv').
    exists c'. by rewrite (bind_Ret _ _ _ _ _ Hrun).
  - by apply sweep_inv.
Qed.

Lemma SetCapacity_nonpos c n :
  n <= 0 ->
  SetCapacity n c = Panic (PanicMsg "new capacity must be greater than zero") c.
Proof.
  intros Hn. unfold SetCapacity.
  by destruct (Z.leb_spec n 0); [|lia].
Qed.

Lemma reachable_inv c : reachable zero c -> cache_inv c.
Proof.
  induction 1 as [cap c Hnew|c o c' Hreach IH Hclk Hrun].
  - by eapply NewCache_inv.
  - destruct (exec_inv c o IH Hclk) as (c'' & Hrun' & Hinv).
    { intros n ->. simpl in Hrun.
      destruct (Z.le_gt_cases n 0) as [Hle|Hgt]; [|lia].
      by rewrite (SetCapacity_nonpos c n Hle) in Hrun. }
    congruence.
Qed.

End SweepWf.

Section CacheFacts.
Context {K : Type} `{Countable K} {V : Type} (zero : V).
Implicit Types (c : Cache K V) (ent : entry K V) (x : expEntry K).
Local Arguments heap_Fix : simpl never.
Local Arguments heap_Push : simpl never.
Local Arguments heap_Pop : simpl never.
Local Arguments removeOldestLocked : simpl never.

Lemma ll_keys_map c (k : K) :
  wf c -> k ∈ ll_keys c <-> is_Some (cache c !! k).
Proof.
  intros Hwf. unfold ll_keys. rewrite list_elem_of_omap. split.
  - intros (ele & Hin & Hk).
    destruct (wf_elem c Hwf ele Hin) as (ent & He & Hc).
    rewrite He in Hk. injection Hk as <-. by eexists.
  - intros [ele Hc].
    destruct (wf_map c Hwf k ele Hc) as (Hin & ent & He & Hk).
    exists ele. split; [done|]. by rewrite He, <-Hk.
Qed.

Lemma list_MoveToFront_elem (ele : nat) (l : list nat) :
  ele ∈ l -> list_MoveToFront ele l = ele :: list_Remove ele l.
Proof. intros Hin. unfold list_MoveToFront. by rewrite decide_True. Qed.

(** C1.  In every state reached from [NewCache] by any sequence of
    method calls and sweeper steps, the number of live entries is at most
    the capacity, the lookup map and the LRU list have the same size and
    hold exactly the same keys; and from such a state every call with a
    legal argument returns, to a state where this holds again. *)
Theorem capacity_and_index_agree c :
  reachable zero c ->
  list_Len c <= capacity c /\
  size (cache c) = length (ll c) /\
  (forall k, is_Some (cache c !! k) <-> k ∈ ll_keys c) /\
  (forall o : op K V, clock_ok o -> (forall n, o = OpSetCapacity n -> 0 < n) ->
     exists c', exec zero o c = Ret tt c' /\
       list_Len c' <= capacity c' /\ size (cache c') = length (ll c')).
Proof.
  intros Hreach. pose proof (reachable_inv zero c Hreach) as Hinv.
  destruct Hinv as (Hwf & Hpos & Hcap).
  split; [done|]. split; [apply Hwf|].
  split; [intros k; symmetry; by apply ll_keys_map|].
  intros o Hclk Hn.
  destruct (exec_inv zero c o (conj Hwf (conj Hpos Hcap)) Hclk Hn)
    as (c' & Hrun & Hwf' & _ & Hcap').
  exists c'. split; [done|]. split; [done|]. apply Hwf'.
Qed.

(** C2.  [Get] on an absent key returns not-found and leaves the cache
    alone.  On a present key whose expiration is set and strictly earlier
    than [now] it deletes the key from the map, removes its element from
    the list and returns not-found.  Otherwise it moves the element to
    the front of the list and returns the stored value with [true]. *)
Theorem Get_spec c (key : K) (now : Z) :
  reachable zero c ->
  match cache c !! key with
  | None => Get zero key now c = Ret (zero, false) c
  | Some ele =>
      exists ent, elems c !! ele = Some ent /\ ent_key ent = key /\
        ele ∈ ll c /\
        (if decide (ent_expiration ent <> 0 /\ ent_expiration ent < now)
         then
          exists c', Get zero key now c = Ret (zero, false) c' /\
            cache c' = delete key (cache c) /\
            ll c' = list_Remove ele (ll c) /\
            (ele ∉ ll c') /\ (key ∉ ll_keys c')
        else
          exists c', Get zero key now c = Ret (ent_value ent, true) c' /\
            cache c' = cache c /\
            ll c' = ele :: list_Remove ele (ll c))
  end.
Proof.
  intros Hreach. destruct (reachable_inv zero c Hreach) as (Hwf & _ & _).
  destruct (cache c !! key) as [ele|] eqn:Hc; [|by apply Get_absent].
  destruct (wf_map c Hwf key ele Hc) as (Hin & ent & He & Hk).
  exists ent. split; [done|]. split; [done|]. split; [done|].
  destruct (decide _) as [[Hz Hlt]|Hno].
  - eexists. split; [by eapply Get_expired|]. simpl.
    split; [done|]. split; [done|].
    split.
    + intros Hin'. by apply list_Remove_elem in Hin' as [? _].
    + subst key. pose proof (wf_remove c ele ent Hwf Hin He) as Hwf'.
      rewrite (ll_keys_map _ _ Hwf'). simpl. rewrite lookup_delete_eq.
      by intros [? ?].
  - eexists. split; [eapply Get_hit; [done..|lia]|]. simpl.
    split; [done|]. by apply list_MoveToFront_elem.
Qed.

(** C10.  Whenever [Get] answers [found = false], the value it returns
    with it is the zero value of [V], whatever the key and the state. *)
Theorem Get_not_found_zero c (key : K) (now : Z) (v : V) c' :
  Get zero key now c = Ret (v, false) c' -> v = zero.
Proof.
  unfold Get, bind, get, load_elem, modify, ret.
  destruct (cache c !! key) as [ele|]; [|congruence].
  destruct (elems c !! ele) as [ent|]; [|discriminate].
  destruct (negb _ && _); congruence.
Qed.

End CacheFacts.

Section CapacityFacts.
Context {K : Type} `{Countable K} {V : Type} (zero : V).
Implicit Types (c : Cache K V) (ent : entry K V) (x : expEntry K).
Local Arguments heap_Fix : simpl never.
Local Arguments heap_Push : simpl never.
Local Arguments heap_Pop : simpl never.
Local Arguments removeOldestLocked : simpl never.

(** C7.  [SetCapacity n] with [0 < n] sets the capacity to [n] and
    evicts from the back of the LRU list until at most [n] entries are
    left: the list becomes its first [n] elements, the map keeps exactly
    the keys of those elements, and when the cache already holds at most
    [n] entries nothing is evicted. *)
Theorem SetCapacity_spec c (n : Z) :
  reachable zero c -> 0 < n ->
  exists c', SetCapacity n c = Ret tt c' /\
    capacity c' = n /\
    list_Len c' <= n /\
    ll c' = take (Z.to_nat n) (ll c) /\
    elems c' = elems c /\
    (forall k, cache c' !! k =
       match cache c !! k with
       | Some ele =>
           if decide (ele ∈ take (Z.to_nat n) (ll c)) then Some ele else None
       | None => None
       end) /\
    (list_Len c <= n -> ll c' = ll c /\ cache c' = cache c).
Proof.
  intros Hreach Hn. destruct (reachable_inv zero c Hreach) as (Hwf & _ & _).
  destruct (SetCapacity_ok c n Hwf Hn)
    as (c' & Hrun & Hwf' & Hcap & Hll & Hel & Hm).
  exists c'. split; [done|]. split; [done|].
  split; [unfold list_Len; rewrite Hll, length_take; lia|].
  split; [done|]. split; [done|].
  split; [intros k; rewrite (Hm k); by rewrite Hll|].
  unfold list_Len. intros Hle.
  assert (Hsame : ll c' = ll c) by (rewrite Hll; apply take_ge; lia).
  split; [done|]. apply map_eq. intros k. rewrite (Hm k), Hsame.
  destruct (cache c !! k) as [ele|] eqn:Hk; [|done].
  destruct (wf_map c Hwf k ele Hk) as (Hin & _).
  by rewrite decide_True.
Qed.

(** C8.  [NewCache] and [SetCapacity] panic exactly when the capacity
    they are given is at most zero.  [NewCache] then returns no cache at
    all, and [SetCapacity] panics in the very state it was called in;
    with a positive capacity [NewCache] returns the empty cache. *)
Theorem invalid_capacity_spec c (cap n : Z) :
  reachable zero c ->
  ((exists p, NewCache (K:=K) (V:=V) cap = inl p) <-> cap <= 0) /\
  (cap <= 0 ->
     NewCache (K:=K) (V:=V) cap
     = inl (PanicMsg "capacity must be greater than zero")) /\
  (0 < cap -> NewCache (K:=K) (V:=V) cap = inr (mkCache cap [] ∅ [] false [] [])) /\
  ((exists p c', SetCapacity n c = Panic p c') <-> n <= 0) /\
  (n <= 0 ->
     SetCapacity n c
     = Panic (PanicMsg "new capacity must be greater than zero") c).
Proof.
  intros Hreach. destruct (reachable_inv zero c Hreach) as (Hwf & _ & _).
  assert (Hnew : cap <= 0 ->
    NewCache (K:=K) (V:=V) cap
    = inl (PanicMsg "capacity must be greater than zero")).
  { intros Hle. unfold NewCache. by destruct (Z.leb_spec cap 0); [|lia]. }
  split; [|split; [done|split; [apply NewCache_ok|split]]].
  - split.
    + intros [p Hp]. destruct (Z.le_gt_cases cap 0) as [|Hgt]; [done|].
      rewrite NewCache_ok in Hp by lia. discriminate.
    + intros Hle. eexists. by apply Hnew.
  - split.
    + intros (p & c' & Hp). destruct (Z.le_gt_cases n 0) as [|Hgt]; [done|].
      destruct (SetCapacity_ok c n Hwf) as (c'' & Hrun & _); [lia|].
      congruence.
    + intros Hle. eexists _, _. by apply SetCapacity_nonpos.
  - apply SetCapacity_nonpos.
Qed.

(** C9.  [SetWithTTL] and [Set] on a key that is present change neither
    the number of entries nor the map: the LRU list is only reordered,
    the set of live keys and the capacity stay what they were. *)
Theorem update_keeps_size c (key : K) (value : V) (ttl now : Z) :
  reachable zero c -> is_Some (cache c !! key) -> (0 < ttl -> 0 < now) ->
  (exists c', SetWithTTL key value ttl now c = Ret tt c' /\
     list_Len c' = list_Len c /\ size (cache c') = size (cache c) /\
     cache c' = cache c /\ ll c' ≡ₚ ll c /\
     (forall k, k ∈ ll_keys c' <-> k ∈ ll_keys c) /\
     capacity c' = capacity c) /\
  (exists c', Set_ key value c = Ret tt c' /\
     list_Len c' = list_Len c /\ size (cache c') = size (cache c) /\
     cache c' = cache c /\ ll c' ≡ₚ ll c /\
     (forall k, k ∈ ll_keys c' <-> k ∈ ll_keys c) /\
     capacity c' = capacity c).
Proof.
  intros Hreach [ele Hc] Hnow.
  destruct (reachable_inv zero c Hreach) as (Hwf & _ & _).
  assert (Hgen : forall t n, (0 < t -> 0 < n) ->
    exists c', SetWithTTL key value t n c = Ret tt c' /\
      list_Len c' = list_Len c /\ size (cache c') = size (cache c) /\
      cache c' = cache c /\ ll c' ≡ₚ ll c /\
      (forall k, k ∈ ll_keys c' <-> k ∈ ll_keys c) /\
      capacity c' = capacity c).
  { intros t n Hn.
    destruct (SetWithTTL_update_ok c key value t n ele Hwf Hc Hn)
      as (c' & Hrun & Hwf' & Hll & Hm & Hcap).
    pose proof (list_MoveToFront_perm ele (ll c) (wf_nodup c Hwf)) as Hp.
    rewrite <-Hll in Hp.
    exists c'. split; [done|].
    split; [unfold list_Len; by rewrite (Permutation_length Hp)|].
    split; [by rewrite Hm|]. split; [done|]. split; [done|].
    split; [|done].
    intros k. rewrite (ll_keys_map c' k Hwf'), (ll_keys_map c k Hwf).
    by rewrite Hm. }
  split; [by apply Hgen|]. apply Hgen. lia.
Qed.

End CapacityFacts.

Section UpdateFacts.
Context {K : Type} `{Countable K} {V : Type} (zero : V).
Implicit Types (c : Cache K V) (ent : entry K V) (x : expEntry K).
Local Arguments heap_Fix : simpl never.
Local Arguments heap_Push : simpl never.
Local Arguments heap_Pop : simpl never.
Local Arguments removeOldestLocked : simpl never.

Lemma wf_scheduled c ele ent r :
  wf c -> ele ∈ ll c -> elems c !! ele = Some ent -> ent_exp ent = Some r ->
  scheduled c r (ent_key ent) (ent_expiration ent).
Proof.
  intros Hwf Hin He Hr.
  destruct (wf_exp c Hwf ele ent r Hin He Hr) as (Hrh & x & Hx & ? & ? & ? & _).
  split; [done|]. by exists x.
Qed.

(** C5.  [SetWithTTL] on a key that is present rewrites the entry's value
    and expiration in place and moves its element to the front.  With
    [0 < ttl] an attached record is reused (its expiration is updated and
    [heap.Fix] is run at its index, no record is allocated), and an entry
    with no record gets a fresh one pushed on the heap.  With [ttl <= 0]
    an attached record is only flagged as canceled and stays in the heap,
    and the entry forgets it. *)
Theorem SetWithTTL_existing c (key : K) (value : V) (ttl now : Z) ele ent :
  reachable zero c -> (0 < ttl -> 0 < now) ->
  cache c !! key = Some ele -> elems c !! ele = Some ent ->
  exists c', SetWithTTL key value ttl now c = Ret tt c' /\
    cache c' = cache c /\
    ll c' = ele :: list_Remove ele (ll c) /\
    if 0 <? ttl then
      match ent_exp ent with
      | Some r =>
          elems c' = <[ele := mkEntry key value (now + ttl) (Some r)]> (elems c) /\
          (exists x s', exps c !! r = Some x /\
             heap_Fix (exp_index x)
               (<[r := set_exp_expiration (now + ttl) x]> (exps c), expHeap c)
             = Ret tt s' /\
             exps c' = s'.1 /\ expHeap c' = s'.2) /\
          expHeap c' ≡ₚ expHeap c /\
          length (exps c') = length (exps c) /\
          scheduled c' r key (now + ttl)
      | None =>
          elems c' =
            <[ele := mkEntry key value (now + ttl) (Some (length (exps c)))]>
              (elems c) /\
          expHeap c' ≡ₚ length (exps c) :: expHeap c /\
          length (exps c') = S (length (exps c)) /\
          scheduled c' (length (exps c)) key (now + ttl)
      end
    else
      elems c' = <[ele := mkEntry key value 0 None]> (elems c) /\
      expHeap c' = expHeap c /\
      match ent_exp ent with
      | Some r =>
          exists x, exps c !! r = Some x /\
            exps c' = <[r := set_exp_canceled true x]> (exps c) /\
            r ∈ expHeap c'
      | None => exps c' = exps c
      end.
Proof.
  intros Hreach Hnow Hc He.
  destruct (reachable_inv zero c Hreach) as (Hwf & _ & _).
  destruct (wf_map c Hwf key ele Hc) as (Hin & ent0 & He0 & Hk).
  assert (ent0 = ent) by congruence. subst ent0.
  assert (Hlt : (ele < length (elems c))%nat) by by eapply lookup_lt_Some.
  pose proof (list_MoveToFront_elem ele (ll c) Hin) as Hmv.
  destruct (Z.ltb_spec 0 ttl) as [Httl|Httl].
  - destruct (ent_exp ent) as [r|] eqn:Hexp.
    + destruct (refresh_wf c ele ent r value (now + ttl) Hwf Hin He Hexp)
        as (x & s' & Hx & Hfix & Hwf' & Hp & Hlen); [lia|].
      eexists. split; [by eapply SetWithTTL_update_fix|]. simpl.
      split; [done|]. split; [done|]. rewrite Hk.
      split; [done|]. split; [by exists x, s'|]. split; [done|].
      split; [done|].
      pose proof (wf_scheduled _ ele _ r Hwf' Hin
        (list_lookup_insert_eq _ _ _ Hlt) eq_refl) as Hs.
      simpl in Hs. by rewrite Hk in Hs.
    + assert (Hwf1 : wf (set_elems
        (<[ele := mkEntry (ent_key ent) value (now + ttl) None]> (elems c)) c)).
      { apply (wf_set_elem c ele ent); [done..|]. simpl. by intros ?. }
      destruct (attach_wf _ ele (mkEntry (ent_key ent) value (now + ttl) None)
                  key Hwf1 Hin) as (s' & Hpush & Hwf' & Hp & Hlen).
      { simpl. by apply list_lookup_insert_eq. }
      { done. } { simpl. lia. } { done. }
      simpl in Hpush, Hwf', Hlen. rewrite list_insert_insert_eq in Hwf'.
      eexists. split; [by eapply SetWithTTL_update_push|]. simpl.
      split; [done|]. split; [done|]. rewrite Hk.
      split; [done|]. split; [done|]. split; [done|].
      assert (Hlt' : (ele < length (elems c))%nat) by done.
      pose proof (wf_scheduled _ ele _ (length (exps c)) Hwf' Hin
        (list_lookup_insert_eq _ _ _ Hlt') eq_refl) as Hs.
      simpl in Hs. by rewrite Hk in Hs.
  - eexists. split.
    { eapply SetWithTTL_update_clear; [done..| |done].
      intros r Hr.
      by destruct (wf_exp c Hwf ele ent r Hin He Hr) as (_ & x & -> & _). }
    destruct (cancel_exp_frame c (ent_exp ent))
      as (Hl & Hca & Hcap & Hel & Hh & _).
    simpl. rewrite Hl, Hca, Hel, Hh, Hk.
    split; [done|]. split; [done|]. split; [done|]. split; [done|].
    destruct (ent_exp ent) as [r|] eqn:Hexp; [|done].
    destruct (wf_exp c Hwf ele ent r Hin He Hexp) as (Hrh & x & Hx & _).
    exists x. split; [done|]. simpl. rewrite Hx. simpl. by split.
Qed.

End UpdateFacts.

Section SweepFacts.
Context {K : Type} `{Countable K} {V : Type} (zero : V).
Implicit Types (c : Cache K V) (ent : entry K V) (x : expEntry K).
Local Arguments heap_Fix : simpl never.
Local Arguments heap_Push : simpl never.
Local Arguments heap_Pop : simpl never.
Local Arguments removeOldestLocked : simpl never.

(** C6, amended.  One pass of the sweep loop over a heap whose root is
    [r0]: a canceled root is popped and no entry is touched; a root that
    is not yet due stops the loop; a due root is popped, and the entry
    stored under its key is removed if and only if that entry's own
    expiration is set and not after [now] -- the record's expiration is
    not compared with it. *)
Theorem sweep_iter_spec c (now : Z) (r0 : nat) x :
  reachable zero c ->
  expHeap c !! 0%nat = Some r0 -> exps c !! r0 = Some x ->
  if exp_canceled x then
    exists c', sweep_iter now c = Ret true c' /\
      ll c' = ll c /\ cache c' = cache c /\ elems c' = elems c /\
      expHeap c ≡ₚ r0 :: expHeap c'
  else if now <? exp_expiration x then
    sweep_iter now c = Ret false c
  else
    exists c', sweep_iter now c = Ret true c' /\
      expHeap c ≡ₚ r0 :: expHeap c' /\ elems c' = elems c /\
      match cache c !! exp_key x with
      | Some ele =>
          exists ent, elems c !! ele = Some ent /\
            if decide (ent_expiration ent <> 0 /\ ent_expiration ent <= now)
            then ll c' = list_Remove ele (ll c) /\
                 cache c' = delete (exp_key x) (cache c)
            else ll c' = ll c /\ cache c' = cache c
      | None => ll c' = ll c /\ cache c' = cache c
      end.
Proof.
  intros Hreach Hr Hx.
  destruct (reachable_inv zero c Hreach) as (Hwf & _ & _).
  destruct (wf_root c r0 Hwf Hr) as (x0 & s' & Hx0 & Hpop & Hh & Hf & Hp).
  assert (x0 = x) by congruence. subst x0.
  destruct (exp_canceled x) eqn:Hc.
  - exists (set_heap s' c). split; [by eapply sweep_iter_canceled|]. done.
  - destruct (Z.ltb_spec now (exp_expiration x)) as [Hlt|Hle].
    + by eapply sweep_iter_early.
    + destruct Hf as [_ Hfr]. destruct (Hfr r0 x Hx) as (x' & Hx' & Hk & _).
      simpl in Hx'.
      eexists. split.
      { eapply sweep_iter_due; try done.
        intros ele Hm. destruct (wf_map c Hwf _ ele Hm) as (_ & ent & -> & _).
        by eexists. }
      rewrite Hk. unfold sweep_due. simpl.
      destruct (cache c !! exp_key x) as [ele|] eqn:Hm; [|done].
      destruct (wf_map c Hwf _ ele Hm) as (_ & ent & He & _). rewrite He.
      destruct (Z.eqb_spec (ent_expiration ent) 0) as [Hz|Hz];
        [|destruct (Z.ltb_spec now (ent_expiration ent)) as [Hlt|Hge]];
        simpl; (split; [by destruct s'|]); (split; [done|]);
        exists ent; (split; [done|]);
        destruct (decide _) as [[? ?]|Hno]; try done; lia.
Qed.

End SweepFacts.

Section RunsProofs.
Context {K : Type} `{Countable K} {V : Type} (zero : V).

Lemma exec_all_reachable (os : list (op K V)) : forall c c',
  reachable zero c -> Forall clock_ok os -> exec_all zero os c = Ret tt c' ->
  reachable zero c'.
Proof.
  induction os as [|o os IH]; intros c c' Hreach Hclk Hrun; simpl in Hrun.
  - unfold ret in Hrun. congruence.
  - apply Forall_cons in Hclk as [Ho Hos]. unfold bind in Hrun.
    destruct (exec zero o c) as [[] c1|] eqn:Hstep; [|discriminate].
    apply (IH c1); [|done..]. by eapply reach_step.
Qed.

Lemma state_after_reachable (cap : Z) (os : list (op K V)) c :
  Forall clock_ok os -> state_after zero cap os = Some c -> reachable zero c.
Proof.
  unfold state_after. intros Hclk Hrun.
  destruct (NewCache cap) as [|c0] eqn:Hnew; [discriminate|].
  destruct (exec_all zero os c0) as [[] c1|] eqn:Hexec; [|discriminate].
  injection Hrun as <-.
  eapply exec_all_reachable; [by eapply reach_new|done..].
Qed.

End RunsProofs.

Section InsertState.
Context {K : Type} `{Countable K} {V : Type} (zero : V).
Implicit Types (c : Cache K V) (ent : entry K V) (x : expEntry K).
Local Arguments heap_Fix : simpl never.
Local Arguments heap_Push : simpl never.
Local Arguments heap_Pop : simpl never.
Local Arguments removeOldestLocked : simpl never.

Lemma unlink_cancel_frame c ele (key : K) (r : option nat) :
  elems (unlink ele key (cancel_exp r c)) = elems c /\
  capacity (unlink ele key (cancel_exp r c)) = capacity c /\
  expHeap (unlink ele key (cancel_exp r c)) = expHeap c /\
  ll (unlink ele key (cancel_exp r c)) = list_Remove ele (ll c) /\
  cache (unlink ele key (cancel_exp r c)) = delete key (cache c).
Proof.
  destruct (cancel_exp_frame c r) as (Hl & Hc & Hcap & Hel & Hh & _).
  simpl. by rewrite Hl, Hc, Hcap, Hel, Hh.
Qed.

(** What [ent.exp.canceled = true] leaves behind. *)
Lemma cancel_exp_flag c ele ent r :
  wf c -> ele ∈ ll c -> elems c !! ele = Some ent -> ent_exp ent = Some r ->
  r ∈ expHeap (cancel_exp (Some r) c) /\
  exists x', exps (cancel_exp (Some r) c) !! r = Some x' /\
    exp_canceled x' = true /\ exp_key x' = ent_key ent /\
    exp_expiration x' = ent_expiration ent.
Proof.
  intros Hwf Hin He Hr.
  destruct (wf_exp c Hwf ele ent r Hin He Hr) as (Hrh & x & Hx & Hk & Hex & _).
  simpl. rewrite Hx. simpl. split; [done|].
  exists (set_exp_canceled true x).
  split; [apply list_lookup_insert_eq; by eapply lookup_lt_Some|done].
Qed.

(** The state [SetWithTTL] builds for a new key before it looks at the
    capacity. *)
Lemma SetWithTTL_insert_state c (key : K) (value : V) ttl now :
  wf c -> cache c !! key = None -> (0 < ttl -> 0 < now) ->
  exists c1 rec, SetWithTTL key value ttl now c = evict_if_over c1 /\ wf c1 /\
    ll c1 = length (elems c) :: ll c /\
    cache c1 = <[key := length (elems c)]> (cache c) /\
    capacity c1 = capacity c /\
    elems c1 = elems c ++ [mkEntry key value (expiry ttl now) rec] /\
    (rec = None <-> ttl <= 0).
Proof.
  intros Hwf Hc Hnow. unfold expiry.
  destruct (Z.ltb_spec 0 ttl) as [Httl|Httl].
  - pose proof (wf_insert c key value (now + ttl) Hwf Hc) as Hwf1.
    fold (link key value (now + ttl) c) in Hwf1.
    destruct (attach_wf (link key value (now + ttl) c) (length (elems c))
                (mkEntry key value (now + ttl) None) key Hwf1)
      as (s' & Hpush & Hwf' & _).
    { simpl. by left. }
    { simpl. rewrite lookup_app_r by lia. by rewrite Nat.sub_diag. }
    { done. } { simpl. lia. } { done. }
    simpl in Hpush.
    eexists _, (Some (length (exps c))).
    split; [by eapply SetWithTTL_insert_ttl|].
    split; [by apply wf_set_updateCh|]. simpl.
    split; [done|]. split; [done|]. split; [done|].
    split; [|split; [done|lia]].
    rewrite insert_app_r_alt by lia. by rewrite Nat.sub_diag.
  - exists (link key value 0 c), None.
    split; [by apply SetWithTTL_insert_plain|].
    split; [by apply wf_insert|]. done.
Qed.

Lemma evict_if_over_state c :
  wf c -> ll c <> [] ->
  if capacity c <? list_Len c then
    exists l old ent, ll c = l ++ [old] /\ elems c !! old = Some ent /\
      cache c !! ent_key ent = Some old /\
      evict_if_over c
      = Ret tt (unlink old (ent_key ent) (cancel_exp (ent_exp ent) c)) /\
      wf (unlink old (ent_key ent) (cancel_exp (ent_exp ent) c)) /\
      ll (unlink old (ent_key ent) (cancel_exp (ent_exp ent) c)) = l
  else evict_if_over c = Ret tt c.
Proof.
  intros Hwf Hne. unfold evict_if_over.
  destruct (capacity c <? list_Len c); [|done].
  destruct (snoc_of_nonempty _ Hne) as (l & old & Hll).
  destruct (removeOldestLocked_ok c l old Hwf Hll) as (ent & He & Hrun & Hl').
  assert (Hin : old ∈ ll c) by (rewrite Hll; set_solver).
  destruct (wf_elem c Hwf old Hin) as (ent0 & He0 & Hc0).
  assert (ent0 = ent) by congruence. subst ent0.
  exists l, old, ent.
  split; [done|]. split; [done|]. split; [done|]. split; [done|].
  split; [by apply wf_unlink_cancel|done].
Qed.

End InsertState.

Section StoreLookup.
Context {K : Type} `{Countable K} {V : Type} (zero : V).
Implicit Types (c : Cache K V) (ent : entry K V) (x : expEntry K).
Local Arguments heap_Fix : simpl never.
Local Arguments heap_Push : simpl never.
Local Arguments heap_Pop : simpl never.
Local Arguments removeOldestLocked : simpl never.

(** The entry [SetWithTTL] leaves for a key that was present. *)
Lemma SetWithTTL_update_state c (key : K) (value : V) ttl now ele ent :
  wf c -> cache c !! key = Some ele -> elems c !! ele = Some ent ->
  (0 < ttl -> 0 < now) ->
  exists c' rec, SetWithTTL key value ttl now c = Ret tt c' /\ wf c' /\
    ll c' = ele :: list_Remove ele (ll c) /\ cache c' = cache c /\
    capacity c' = capacity c /\
    elems c' = <[ele := mkEntry key value (expiry ttl now) rec]> (elems c).
Proof.
  intros Hwf Hc He Hnow.
  destruct (wf_map c Hwf key ele Hc) as (Hin & ent0 & He0 & Hk).
  assert (ent0 = ent) by congruence. subst ent0.
  destruct (SetWithTTL_update_ok c key value ttl now ele Hwf Hc Hnow)
    as (c' & Hrun & Hwf' & Hll & Hm & Hcap).
  rewrite (list_MoveToFront_elem ele (ll c) Hin) in Hll.
  assert (Hel : exists rec,
    elems c' = <[ele := mkEntry key value (expiry ttl now) rec]> (elems c)).
  { unfold expiry. destruct (Z.ltb_spec 0 ttl) as [Httl|Httl].
    - destruct (ent_exp ent) as [r|] eqn:Hexp.
      + destruct (refresh_wf c ele ent r value (now + ttl) Hwf Hin He Hexp)
          as (x & s' & Hx & Hfix & _); [lia|].
        rewrite (SetWithTTL_update_fix c key value ttl now ele ent r x s'
                   Hc He Hexp Hx Httl Hfix) in Hrun.
        injection Hrun as <-. exists (Some r). simpl. by rewrite Hk.
      + assert (Hwf1 : wf (set_elems
          (<[ele := mkEntry (ent_key ent) value (now + ttl) None]> (elems c)) c)).
        { apply (wf_set_elem c ele ent); [done..|]. simpl. by intros ?. }
        assert (Hlt : (ele < length (elems c))%nat) by by eapply lookup_lt_Some.
        destruct (attach_wf _ ele (mkEntry (ent_key ent) value (now + ttl) None)
                    key Hwf1 Hin) as (s' & Hpush & _).
        { simpl. by apply list_lookup_insert_eq. }
        { done. } { simpl. lia. } { done. }
        simpl in Hpush.
        rewrite (SetWithTTL_update_push c key value ttl now ele ent s'
                   Hc He Hexp Httl Hpush) in Hrun.
        injection Hrun as <-. exists (Some (length (exps c))). simpl.
        by rewrite Hk.
    - rewrite (SetWithTTL_update_clear c key value ttl now ele ent Hc He) in Hrun;
        [|intros r Hr;
          by destruct (wf_exp c Hwf ele ent r Hin He Hr) as (_ & x & -> & _)
         |done].
      injection Hrun as <-. exists None. simpl.
      destruct (cancel_exp_frame c (ent_exp ent)) as (_ & _ & _ & -> & _).
      by rewrite Hk. }
  destruct Hel as [rec Hel]. by exists c', rec.
Qed.

(** After [SetWithTTL], the key is bound to an element at the front of
    the list that carries the value and the expiration just given. *)
Lemma SetWithTTL_stores c (key : K) (value : V) ttl now :
  cache_inv c -> (0 < ttl -> 0 < now) ->
  exists c' ele rec, SetWithTTL key value ttl now c = Ret tt c' /\
    cache_inv c' /\ cache c' !! key = Some ele /\
    elems c' !! ele = Some (mkEntry key value (expiry ttl now) rec) /\
    head (ll c') = Some ele.
Proof.
  intros (Hwf & Hpos & Hcap) Hnow.
  destruct (SetWithTTL_inv c key value ttl now (conj Hwf (conj Hpos Hcap)) Hnow)
    as (c0 & Hrun0 & Hinv0).
  destruct (cache c !! key) as [ele|] eqn:Hc.
  - destruct (wf_map c Hwf key ele Hc) as (Hin & ent & He & Hk).
    destruct (SetWithTTL_update_state c key value ttl now ele ent Hwf Hc He Hnow)
      as (c' & rec & Hrun & Hwf' & Hll & Hm & Hcp & Hel).
    assert (c0 = c') by congruence. subst c0.
    exists c', ele, rec. split; [done|]. split; [done|].
    split; [by rewrite Hm|]. split; [|by rewrite Hll].
    rewrite Hel. apply list_lookup_insert_eq. by eapply lookup_lt_Some.
  - destruct (SetWithTTL_insert_state c key value ttl now Hwf Hc Hnow)
      as (c1 & rec & Hrun & Hwf1 & Hll & Hm & Hcp & Hel & _).
    assert (Hnew : elems c1 !! length (elems c)
                   = Some (mkEntry key value (expiry ttl now) rec)).
    { rewrite Hel, lookup_app_r by lia. by rewrite Nat.sub_diag. }
    assert (Hne : ll c1 <> []) by by rewrite Hll.
    pose proof (evict_if_over_state c1 Hwf1 Hne) as Hev.
    destruct (Z.ltb_spec (capacity c1) (list_Len c1)) as [Hover|Hfit].
    + destruct Hev as (l & old & ent & Hsnoc & He & Hck & Hev & Hwf' & Hl').
      rewrite Hrun0, Hev in Hrun. injection Hrun as ->.
      destruct (unlink_cancel_frame c1 old (ent_key ent) (ent_exp ent))
        as (Hel' & _ & _ & Hll' & Hm').
      assert (Hlen : (2 <= length (ll c1))%nat).
      { unfold list_Len in Hover. lia. }
      assert (Hold : old <> length (elems c)).
      { intros ->. pose proof (wf_nodup c1 Hwf1) as Hnd.
        rewrite Hll in Hnd, Hsnoc, Hlen. simpl in Hlen.
        destruct l as [|a l]; simpl in Hsnoc.
        - injection Hsnoc as Hs. destruct (ll c); [simpl in Hlen; lia|done].
        - injection Hsnoc as <- Hs. apply NoDup_cons in Hnd as [Hnin _].
          apply Hnin. rewrite Hs. set_solver. }
      eexists _, (length (elems c)), rec.
      split; [done|]. split; [done|].
      split.
      { rewrite Hm', lookup_delete_ne.
        - rewrite Hm. apply lookup_insert_eq.
        - intros Hk. rewrite Hk, Hm, lookup_insert_eq in Hck. congruence. }
      split; [by rewrite Hel'|].
      rewrite Hll', Hll. unfold list_Remove.
      by rewrite filter_cons_True by done.
    + rewrite Hrun0, Hev in Hrun. injection Hrun as ->.
      exists c1, (length (elems c)), rec.
      split; [done|]. split; [done|].
      split; [rewrite Hm; apply lookup_insert_eq|].
      split; [done|by rewrite Hll].
Qed.

End StoreLookup.

Section MethodFacts.
Context {K : Type} `{Countable K} {V : Type} (zero : V).
Implicit Types (c : Cache K V) (ent : entry K V) (x : expEntry K).
Local Arguments heap_Fix : simpl never.
Local Arguments heap_Push : simpl never.
Local Arguments heap_Pop : simpl never.
Local Arguments removeOldestLocked : simpl never.

(** X1.  A value stored with [SetWithTTL] is what [Get] returns for the key,
    as long as the call to [Get] is not made after the expiration: with
    [ttl <= 0] at any later instant, with [0 < ttl] up to and including
    the instant [now + ttl]. *)
Theorem Set_then_Get c (key : K) (value : V) (ttl now now' : Z) :
  reachable zero c -> (0 < ttl -> 0 < now /\ now' <= now + ttl) ->
  exists c1 c2, SetWithTTL key value ttl now c = Ret tt c1 /\
    Get zero key now' c1 = Ret (value, true) c2 /\
    cache c2 = cache c1.
Proof.
  intros Hreach Httl. pose proof (reachable_inv zero c Hreach) as Hinv.
  destruct (SetWithTTL_stores c key value ttl now Hinv)
    as (c1 & ele & rec & Hrun & Hinv1 & Hm & He & _); [intros Hp; by destruct (Httl Hp)|].
  exists c1, (set_ll (list_MoveToFront ele (ll c1)) c1).
  split; [done|]. split; [|done].
  apply (Get_hit zero c1 key now' ele _ Hm He). simpl. unfold expiry.
  destruct (Z.ltb_spec 0 ttl) as [Hpos|Hle]; [right; by apply Httl|by left].
Qed.

(** X2.  A value stored with a positive TTL is gone for any [Get] made after
    [now + ttl]: the call answers not-found and unbinds the key. *)
Theorem Get_after_expiry c (key : K) (value : V) (ttl now now' : Z) :
  reachable zero c -> 0 < ttl -> 0 < now -> now + ttl < now' ->
  exists c1 c2, SetWithTTL key value ttl now c = Ret tt c1 /\
    Get zero key now' c1 = Ret (zero, false) c2 /\
    cache c2 !! key = None /\ list_Len c2 = list_Len c1 - 1 /\
    forall t, Get zero key t c2 = Ret (zero, false) c2.
Proof.
  intros Hreach Httl Hnow Hlate.
  pose proof (reachable_inv zero c Hreach) as Hinv.
  destruct (SetWithTTL_stores c key value ttl now Hinv)
    as (c1 & ele & rec & Hrun & (Hwf1 & _) & Hm & He & _); [done|].
  exists c1. eexists. split; [done|].
  assert (Hexp : expiry ttl now = now + ttl).
  { unfold expiry. by destruct (Z.ltb_spec 0 ttl); [|lia]. }
  split.
  { eapply Get_expired; [done..|simpl; lia|simpl; lia]. }
  simpl. split; [apply lookup_delete_eq|]. split.
  - destruct (wf_map c1 Hwf1 key ele Hm) as (Hin & _).
    unfold list_Len. simpl.
    rewrite (list_Remove_length ele (ll c1)); [|apply Hwf1|done].
    assert (0 < length (ll c1))%nat; [|lia].
    destruct (ll c1); [by apply elem_of_nil in Hin|simpl; lia].
  - intros t. apply Get_absent. simpl. apply lookup_delete_eq.
Qed.

(** X3.  [Delete] of an absent key changes nothing.  [Delete] of a present key
    unbinds it and takes its element off the list, so the next [Get]
    misses; every other key keeps its binding, the capacity is kept, and
    a record attached to the entry stays in the heap, flagged as
    canceled. *)
Theorem Delete_spec c (key : K) :
  reachable zero c ->
  match cache c !! key with
  | None => Delete key c = Ret tt c
  | Some ele =>
      exists ent c', elems c !! ele = Some ent /\
        Delete key c = Ret tt c' /\
        cache c' = delete key (cache c) /\
        ll c' = list_Remove ele (ll c) /\
        list_Len c' = list_Len c - 1 /\
        capacity c' = capacity c /\
        expHeap c' = expHeap c /\
        (forall now, Get zero key now c' = Ret (zero, false) c') /\
        (forall r, ent_exp ent = Some r ->
           r ∈ expHeap c' /\
           exists x', exps c' !! r = Some x' /\ exp_canceled x' = true)
  end.
Proof.
  intros Hreach. destruct (reachable_inv zero c Hreach) as (Hwf & _ & _).
  destruct (cache c !! key) as [ele|] eqn:Hc; [|by apply Delete_absent].
  destruct (Delete_ok c key ele Hwf Hc) as (ent & He & Hk & Hrun).
  destruct (wf_map c Hwf key ele Hc) as (Hin & _).
  destruct (unlink_cancel_frame c ele key (ent_exp ent))
    as (Hel & Hcap & Hh & Hll & Hm).
  exists ent. eexists. split; [done|]. split; [done|].
  split; [done|]. split; [done|].
  split.
  { unfold list_Len. rewrite Hll.
    rewrite (list_Remove_length ele (ll c)); [|apply Hwf|done].
    assert (0 < length (ll c))%nat; [|lia].
    destruct (ll c); [by apply elem_of_nil in Hin|simpl; lia]. }
  split; [done|]. split; [done|].
  split.
  { intros now. apply Get_absent. rewrite Hm. apply lookup_delete_eq. }
  intros r Hr. rewrite Hr.
  destruct (cancel_exp_flag c ele ent r Hwf Hin He Hr)
    as (Hrh & x' & Hx' & Hcx & _).
  split; [done|]. by exists x'.
Qed.

(** X4.  [Dump] empties the list, the map and the heap and keeps the capacity;
    afterwards every [Get] misses and leaves the cache as it is. *)
Theorem Dump_spec c :
  exists c', Dump c = Ret tt c' /\
    ll c' = [] /\ cache c' = ∅ /\ expHeap c' = [] /\
    capacity c' = capacity c /\
    forall (key : K) now, Get zero key now c' = Ret (zero, false) c'.
Proof.
  eexists. split; [apply Dump_ok|]. simpl.
  split; [done|]. split; [done|]. split; [done|]. split; [done|].
  intros key now. by apply Get_absent.
Qed.

(** X5.  [removeOldestLocked] does nothing on an empty cache; otherwise it
    takes the element at the back of the list off the list, unbinds its
    key and leaves everything in front of it in place. *)
Theorem removeOldestLocked_spec c :
  reachable zero c ->
  match last (ll c) with
  | None => removeOldestLocked c = Ret tt c
  | Some old =>
      exists ent c', elems c !! old = Some ent /\
        cache c !! ent_key ent = Some old /\
        removeOldestLocked c = Ret tt c' /\
        ll c = ll c' ++ [old] /\
        cache c' = delete (ent_key ent) (cache c) /\
        capacity c' = capacity c /\ expHeap c' = expHeap c /\
        (forall r, ent_exp ent = Some r ->
           exists x', exps c' !! r = Some x' /\ exp_canceled x' = true)
  end.
Proof.
  intros Hreach. destruct (reachable_inv zero c Hreach) as (Hwf & _ & _).
  destruct (last (ll c)) as [old|] eqn:Hlast.
  - apply last_Some in Hlast as [l Hll].
    destruct (removeOldestLocked_ok c l old Hwf Hll) as (ent & He & Hrun & Hl').
    assert (Hin : old ∈ ll c) by (rewrite Hll; set_solver).
    destruct (wf_elem c Hwf old Hin) as (ent0 & He0 & Hc0).
    assert (ent0 = ent) by congruence. subst ent0.
    destruct (unlink_cancel_frame c old (ent_key ent) (ent_exp ent))
      as (_ & Hcap & Hh & _ & Hm).
    exists ent. eexists. split; [done|]. split; [done|]. split; [done|].
    split; [by rewrite Hl'|]. split; [done|]. split; [done|].
    split; [done|].
    intros r Hr. rewrite Hr.
    destruct (cancel_exp_flag c old ent r Hwf Hin He Hr)
      as (_ & x' & Hx' & Hcx & _).
    by exists x'.
  - apply last_None in Hlast. by apply removeOldestLocked_nil.
Qed.

(** X6.  [SetWithTTL] of a key that is absent puts a new element at the front.
    Below capacity nothing else changes; in a full cache exactly the
    element at the back of the list is evicted, and its key unbound. *)
Theorem insert_evicts_lru c (key : K) (value : V) (ttl now : Z) :
  reachable zero c -> cache c !! key = None -> (0 < ttl -> 0 < now) ->
  exists c', SetWithTTL key value ttl now c = Ret tt c' /\
    cache c' !! key = Some (length (elems c)) /\
    if decide (list_Len c < capacity c) then
      ll c' = length (elems c) :: ll c /\
      cache c' = <[key := length (elems c)]> (cache c)
    else
      exists l old ent, ll c = l ++ [old] /\ elems c !! old = Some ent /\
        ll c' = length (elems c) :: l /\
        cache c' = delete (ent_key ent) (<[key := length (elems c)]> (cache c)) /\
        ent_key ent <> key.
Proof.
  intros Hreach Hc Hnow.
  destruct (reachable_inv zero c Hreach) as (Hwf & Hpos & Hcap).
  destruct (SetWithTTL_insert_state c key value ttl now Hwf Hc Hnow)
    as (c1 & rec & Hrun & Hwf1 & Hll & Hm & Hcp & Hel & _).
  assert (Hne : ll c1 <> []) by by rewrite Hll.
  pose proof (evict_if_over_state c1 Hwf1 Hne) as Hev.
  assert (Hlen1 : list_Len c1 = list_Len c + 1).
  { unfold list_Len. rewrite Hll. simpl. lia. }
  destruct (Z.ltb_spec (capacity c1) (list_Len c1)) as [Hover|Hfit].
  - destruct Hev as (l & old & ent & Hsnoc & He & Hck & Hev & Hwf' & Hl').
    destruct (unlink_cancel_frame c1 old (ent_key ent) (ent_exp ent))
      as (_ & _ & _ & _ & Hm').
    assert (Hlen : (1 <= length (ll c))%nat).
    { unfold list_Len in *. lia. }
    rewrite Hll in Hsnoc.
    destruct l as [|a l]; simpl in Hsnoc; injection Hsnoc as Ha Hs.
    { destruct (ll c); [simpl in Hlen; lia|done]. }
    subst a.
    assert (Hold : old <> length (elems c)).
    { intros ->. pose proof (wf_nodup c1 Hwf1) as Hnd. rewrite Hll in Hnd.
      apply NoDup_cons in Hnd as [Hnin _]. apply Hnin. rewrite Hs. set_solver. }
    assert (Hkey : ent_key ent <> key).
    { intros Hk. rewrite Hk, Hm, lookup_insert_eq in Hck. congruence. }
    eexists. split; [by rewrite Hrun|].
    split; [rewrite Hm', lookup_delete_ne by done; rewrite Hm;
            apply lookup_insert_eq|].
    rewrite decide_False by lia.
    exists l, old, ent. split; [done|].
    split.
    { rewrite Hel in He. rewrite lookup_app_l in He; [done|].
      assert (Hin : old ∈ ll c) by (rewrite Hs; set_solver).
      destruct (wf_elem c Hwf old Hin) as (? & ? & _).
      by eapply lookup_lt_Some. }
    split; [done|]. split; [by rewrite Hm', Hm|done].
  - rewrite Hev in Hrun. exists c1. split; [done|].
    split; [rewrite Hm; apply lookup_insert_eq|].
    rewrite decide_True by lia. done.
Qed.

End MethodFacts.

Section SweepSound.
Context {K : Type} `{Countable K} {V : Type} (zero : V).
Implicit Types (c : Cache K V) (ent : entry K V) (x : expEntry K).
Local Arguments heap_Fix : simpl never.
Local Arguments heap_Push : simpl never.
Local Arguments heap_Pop : simpl never.
Local Arguments removeOldestLocked : simpl never.

Lemma spares_refl now c : spares now c c.
Proof. by repeat split. Qed.

Lemma spares_trans now c1 c2 c3 :
  spares now c1 c2 -> spares now c2 c3 -> spares now c1 c3.
Proof.
  intros (He1 & Hc1 & Hl1 & Hm1 & Hk1) (He2 & Hc2 & Hl2 & Hm2 & Hk2).
  split; [congruence|]. split; [congruence|].
  split; [by etrans|]. split; [by etrans|].
  intros k ele ent Hm He Hexp.
  apply (Hk2 k ele ent); [by eapply Hk1|by rewrite He1|done].
Qed.

Lemma spares_set_heap now c (s' : HeapSt K) : spares now c (set_heap s' c).
Proof. by repeat split. Qed.

Lemma spares_sweep_due now c (key : K) : spares now c (sweep_due now key c).
Proof.
  unfold sweep_due.
  destruct (cache c !! key) as [ele|] eqn:Hm; [|apply spares_refl].
  destruct (elems c !! ele) as [ent|] eqn:He; [|apply spares_refl].
  destruct (negb (ent_expiration ent =? 0) && negb (now <? ent_expiration ent))
    eqn:Hcond; [|apply spares_refl].
  apply andb_true_iff in Hcond as [Hz Hdue].
  apply negb_true_iff in Hz, Hdue.
  split; [done|]. split; [done|]. simpl.
  split; [apply sublist_filter|]. split; [apply delete_subseteq|].
  intros k ele' ent' Hm' He' Hexp.
  rewrite lookup_delete_ne; [done|]. intros <-.
  assert (ele' = ele) by congruence. subst ele'.
  assert (ent' = ent) by congruence. subst ent'.
  destruct Hexp as [Hexp|Hexp]; [rewrite Hexp in Hz; discriminate|].
  apply Z.ltb_ge in Hdue. lia.
Qed.

(** One pass of the sweep loop, with all that the passes have in
    common. *)
Lemma sweep_iter_step c now :
  cache_inv c ->
  exists b c', sweep_iter now c = Ret b c' /\ cache_inv c' /\
    (if b then S (length (expHeap c')) = length (expHeap c) else c' = c) /\
    spares now c c'.
Proof.
  intros Hinv.
  destruct (sweep_iter_inv c now Hinv) as (b & c' & Hrun & Hinv' & Hb).
  exists b, c'. split; [done|]. split; [done|]. split; [done|].
  destruct Hinv as (Hwf & _ & _).
  destruct (expHeap c !! 0%nat) as [r0|] eqn:Hr.
  - destruct (wf_root c r0 Hwf Hr) as (x & s' & Hx & Hpop & Hh & Hf & Hp).
    destruct (exp_canceled x) eqn:Hc.
    + rewrite (sweep_iter_canceled c now r0 x s' Hr Hx Hc Hpop) in Hrun.
      injection Hrun as _ <-. apply spares_set_heap.
    + destruct (Z.lt_ge_cases now (exp_expiration x)) as [Hlt|Hle].
      * rewrite (sweep_iter_early c now r0 x Hr Hx Hc Hlt) in Hrun.
        injection Hrun as _ <-. apply spares_refl.
      * destruct Hf as [_ Hfr]. destruct (Hfr r0 x Hx) as (x' & Hx' & _).
        rewrite (sweep_iter_due c now r0 x s' x' Hr Hx Hc Hle Hpop Hx') in Hrun.
        { injection Hrun as _ <-.
          apply (spares_trans now c (set_heap s' c));
            [apply spares_set_heap|apply spares_sweep_due]. }
        intros ele Hm. destruct (wf_map c Hwf _ ele Hm) as (_ & ent & -> & _).
        by eexists.
  - rewrite sweep_iter_nil in Hrun.
    + injection Hrun as _ <-. apply spares_refl.
    + destruct (expHeap c); [done|discriminate].
Qed.

Lemma sweep_loop_step (fuel : nat) now : forall c,
  cache_inv c -> (length (expHeap c) <= fuel)%nat ->
  exists c', sweep_loop fuel now c = Ret tt c' /\ cache_inv c' /\
    spares now c c'.
Proof.
  induction fuel as [|fuel IH]; intros c Hinv Hlen;
    destruct (sweep_iter_step c now Hinv) as (b & c1 & Hrun & Hinv1 & Hb & Hsp);
    simpl; rewrite (bind_Ret _ _ _ _ _ Hrun); destruct b.
  - lia.
  - by exists c1.
  - destruct (IH c1 Hinv1) as (c' & Hrun' & Hinv' & Hsp'); [lia|].
    exists c'. split; [done|]. split; [done|]. by eapply spares_trans.
  - by exists c1.
Qed.

(** X9.  A sweep at [now] returns, never adds an entry and never reorders the
    list, and removes no entry that has no expiration or whose expiration
    is after [now]: such a key keeps its binding and its place. *)
Theorem sweep_spares_unexpired c (now : Z) :
  reachable zero c ->
  exists c', sweep now c = Ret tt c' /\
    elems c' = elems c /\ capacity c' = capacity c /\
    ll c' `sublist_of` ll c /\ cache c' ⊆ cache c /\
    forall k ele ent, cache c !! k = Some ele -> elems c !! ele = Some ent ->
      ent_expiration ent = 0 \/ now < ent_expiration ent ->
      cache c' !! k = Some ele /\ ele ∈ ll c'.
Proof.
  intros Hreach. pose proof (reachable_inv zero c Hreach) as Hinv.
  destruct (sweep_loop_step (length (expHeap c)) now c Hinv)
    as (c' & Hrun & (Hwf' & _) & He & Hc & Hl & Hm & Hk); [done|].
  exists c'. split; [done|]. split; [done|]. split; [done|].
  split; [done|]. split; [done|].
  intros k ele ent Hck Hel Hexp.
  pose proof (Hk k ele ent Hck Hel Hexp) as Hk'. split; [done|].
  by destruct (wf_map c' Hwf' k ele Hk') as (Hin & _).
Qed.

(** X11.  The first locked region of the sweeper: the wait it computes is never
    negative, it is an hour when nothing is scheduled, [None] is returned
    only after a canceled root has been popped, and no entry is touched
    either way. *)
Theorem nextWait_spec c (now : Z) :
  reachable zero c ->
  exists w c', nextWait now c = Ret w c' /\
    ll c' = ll c /\ cache c' = cache c /\ elems c' = elems c /\
    match w with
    | Some d =>
        c' = c /\ 0 <= d /\
        match expHeap c !! 0%nat with
        | None => d = Hour
        | Some r0 =>
            exists x, exps c !! r0 = Some x /\ exp_canceled x = false /\
              d = Z.max 0 (exp_expiration x - now)
        end
    | None =>
        exists r0 x, expHeap c !! 0%nat = Some r0 /\ exps c !! r0 = Some x /\
          exp_canceled x = true /\ expHeap c ≡ₚ r0 :: expHeap c'
    end.
Proof.
  intros Hreach. destruct (reachable_inv zero c Hreach) as (Hwf & _ & _).
  destruct (expHeap c !! 0%nat) as [r0|] eqn:Hr.
  - destruct (wf_root c r0 Hwf Hr) as (x & s' & Hx & Hpop & Hh & Hf & Hp).
    destruct (exp_canceled x) eqn:Hc.
    + exists None, (set_heap s' c).
      split; [by eapply nextWait_canceled|].
      split; [done|]. split; [done|]. split; [done|].
      exists r0, x. split; [done|]. split; [done|]. split; [done|].
      by destruct s'.
    + eexists _, c. split; [by eapply nextWait_pending|].
      split; [done|]. split; [done|]. split; [done|].
      split; [done|].
      destruct (Z.ltb_spec now (exp_expiration x)).
      * split; [lia|]. exists x. split; [done|]. split; [done|]. lia.
      * split; [lia|]. exists x. split; [done|]. split; [done|]. lia.
  - exists (Some Hour), c. split.
    { apply nextWait_nil. destruct (expHeap c); [done|discriminate]. }
    split; [done|]. split; [done|]. split; [done|]. split; [done|].
    split; [unfold Hour; lia|done].
Qed.

End SweepSound.

Section HeapOrder.
Context {K : Type} `{Countable K}.
Implicit Types (s : HeapSt K) (x : expEntry K) (o : list (expEntry K)) (h : list nat).

Lemma kat_is_Some s (i : nat) :
  hwf s -> (i < length s.2)%nat -> is_Some (kat s i).
Proof.
  intros [_ Hidx] Hi. unfold kat.
  destruct (lookup_lt_is_Some_2 _ _ Hi) as [r Hr]. rewrite Hr.
  destruct (Hidx i r Hr) as (x & -> & _). by eexists.
Qed.

Lemma kat_lt s (i : nat) a : kat s i = Some a -> (i < length s.2)%nat.
Proof.
  unfold kat. destruct (s.2 !! i) eqn:Hr; [|done].
  intros _. by eapply lookup_lt_Some.
Qed.

Lemma Less_kat s (i j : nat) a b :
  kat s i = Some a -> kat s j = Some b ->
  Less (Z.of_nat i) (Z.of_nat j) s = Ret (a <? b) s.
Proof.
  destruct s as [o h]. unfold kat. simpl. intros Hi Hj.
  destruct (h !! i) as [ri|] eqn:Hri; [|done].
  destruct (h !! j) as [rj|] eqn:Hrj; [|done].
  destruct (o !! ri) as [xi|] eqn:Hxi; [|done].
  destruct (o !! rj) as [xj|] eqn:Hxj; [|done].
  simpl in Hi, Hj. injection Hi as <-. injection Hj as <-.
  unfold Less.
  rewrite (bind_Ret _ _ _ _ _ (slice_at_ok o h i ri Hri)).
  rewrite (bind_Ret _ _ _ _ _ (deref_ok o h ri xi Hxi)).
  rewrite (bind_Ret _ _ _ _ _ (slice_at_ok o h j rj Hrj)).
  by rewrite (bind_Ret _ _ _ _ _ (deref_ok o h rj xj Hxj)).
Qed.

Lemma hframe_exp s s' (r : nat) :
  hframe s s' -> exp_expiration <$> s'.1 !! r = exp_expiration <$> s.1 !! r.
Proof.
  intros [Hlen Hf]. destruct (s.1 !! r) as [x|] eqn:Hx.
  - destruct (Hf r x Hx) as (x' & -> & _ & He & _). simpl. by rewrite He.
  - apply lookup_ge_None in Hx. rewrite <-Hlen in Hx.
    apply lookup_ge_None in Hx. by rewrite Hx.
Qed.

(** A permutation step as seen through the expirations. *)
Lemma hframe_kat s s' (k k' : nat) :
  hframe s s' -> s'.2 !! k = s.2 !! k' -> kat s' k = kat s k'.
Proof.
  intros Hf Hk. unfold kat. rewrite Hk.
  destruct (s.2 !! k'); [|done]. by apply hframe_exp.
Qed.

Lemma Swap_kat s (i j : nat) s' :
  hwf s -> (i < length s.2)%nat -> (j < length s.2)%nat ->
  Swap (Z.of_nat i) (Z.of_nat j) s = Ret tt s' ->
  hperm s s' /\ kat s' i = kat s j /\ kat s' j = kat s i /\
  forall k, k <> i -> k <> j -> kat s' k = kat s k.
Proof.
  destruct s as [o h]. intros Hwf Hi Hj Hrun.
  destruct (Swap_ok o h i j Hwf Hi Hj) as (s1 & Hs1 & Hp & Hii & Hjj & Hk).
  assert (s1 = s') by congruence. subst s1.
  pose proof Hp as (_ & Hf & _).
  split; [done|]. split; [by apply hframe_kat|].
  split; [by apply hframe_kat|].
  intros k Hki Hkj. apply hframe_kat; [done|]. by apply Hk.
Qed.

End HeapOrder.

Section HeapUp.
Context {K : Type} `{Countable K}.
Implicit Types (s : HeapSt K) (x : expEntry K) (o : list (expEntry K)) (h : list nat).

Lemma parent_child (j : nat) : j <> 0%nat -> child ((j - 1) / 2) j.
Proof.
  intros Hj. unfold child.
  pose proof (Nat.div_mod_eq (j - 1) 2) as Hd.
  pose proof (Nat.mod_upper_bound (j - 1) 2). lia.
Qed.

Lemma child_parent (i j : nat) : child i j -> i = ((j - 1) / 2)%nat /\ (i < j)%nat.
Proof.
  intros [->| ->]; split; try lia.
  - replace (2 * i + 1 - 1)%nat with (i * 2)%nat by lia.
    by rewrite Nat.div_mul.
  - replace (2 * i + 2 - 1)%nat with (1 + i * 2)%nat by lia.
    rewrite Nat.div_add by lia. done.
Qed.

Lemma parent_quot (j : nat) :
  j <> 0%nat -> (Z.of_nat j - 1) `quot` 2 = Z.of_nat ((j - 1) / 2).
Proof.
  intros Hj. rewrite Z.quot_div_nonneg by lia.
  rewrite Nat2Z.inj_div, Nat2Z.inj_sub by lia. done.
Qed.

Lemma up_loop_0 fuel s : up_loop (S fuel) 0 s = Ret tt s.
Proof. reflexivity. Qed.

Lemma up_loop_S fuel (j : nat) s a b :
  j <> 0%nat -> kat s j = Some a -> kat s ((j - 1) / 2) = Some b ->
  up_loop (S fuel) (Z.of_nat j) s =
    if a <? b
    then (Swap (Z.of_nat ((j - 1) / 2)) (Z.of_nat j) ;;
          up_loop fuel (Z.of_nat ((j - 1) / 2))) s
    else Ret tt s.
Proof.
  intros Hj Ha Hb. cbn [up_loop]. rewrite (parent_quot j Hj).
  destruct (child_parent _ _ (parent_child j Hj)) as [_ Hlt].
  destruct (Z.eqb_spec (Z.of_nat ((j - 1) / 2)) (Z.of_nat j)); [lia|].
  rewrite (bind_Ret _ _ _ _ _ (Less_kat s j _ a b Ha Hb)).
  by destruct (a <? b).
Qed.

(** [up] restores the order when the only pairs out of order are those
    with [j] as the child. *)
Lemma up_loop_ord fuel : forall (j : nat) s s',
  hwf s -> (j < length s.2)%nat -> (j < fuel)%nat ->
  (forall i' j' a b, child i' j' -> j' <> j ->
     kat s i' = Some a -> kat s j' = Some b -> a <= b) ->
  (forall p c a b, child p j -> child j c ->
     kat s p = Some a -> kat s c = Some b -> a <= b) ->
  up_loop fuel (Z.of_nat j) s = Ret tt s' ->
  hperm s s' /\ hord s'.
Proof.
  induction fuel as [|fuel IH]; intros j s s' Hwf Hj Hfuel Hord Hgrand Hrun;
    [lia|].
  destruct (decide (j = 0%nat)) as [->|Hj0].
  { rewrite up_loop_0 in Hrun. injection Hrun as <-.
    split; [by apply hperm_refl|].
    intros i' j' a b Hc _ Ha Hb. apply (Hord i' j' a b); try done.
    destruct Hc; lia. }
  set (p := ((j - 1) / 2)%nat) in *.
  pose proof (parent_child j Hj0) as Hpj. fold p in Hpj.
  destruct (child_parent p j Hpj) as [_ Hlt].
  destruct (kat_is_Some s j Hwf Hj) as [a Ha].
  destruct (kat_is_Some s p Hwf) as [b Hb]; [lia|].
  rewrite (up_loop_S fuel j s a b Hj0 Ha Hb) in Hrun. fold p in Hrun.
  destruct (Z.ltb_spec a b) as [Hab|Hab].
  - unfold bind in Hrun.
    destruct (Swap (Z.of_nat p) (Z.of_nat j) s) as [[] s1|] eqn:Hsw;
      [|discriminate].
    destruct (Swap_kat s p j s1 Hwf) as (Hp1 & Hkp & Hkj & Hko); [lia|done|done|].
    assert (Hlen1 : length s1.2 = length s.2).
    { apply Permutation_length, Hp1. }
    destruct (IH p s1 s') as (Hp2 & Hord2); [apply Hp1|lia|lia| | |done|].
    + intros i' j' a' b' Hc Hne Ha' Hb'.
      destruct (child_parent i' j' Hc) as [Hi' Hlt'].
      destruct (decide (j' = j)) as [->|Hnj].
      * fold p in Hi'. subst i'.
        rewrite Hkp in Ha'. rewrite Hkj in Hb'.
        assert (a' = a) by congruence. assert (b' = b) by congruence. lia.
      * rewrite (Hko j') in Hb' by done.
        destruct (decide (i' = p)) as [->|Hnp].
        { rewrite Hkp in Ha'. assert (a' = a) by congruence. subst a'.
          pose proof (Hord p j' b b' Hc Hnj Hb Hb'). lia. }
        destruct (decide (i' = j)) as [->|Hnj'].
        { rewrite Hkj in Ha'. assert (a' = b) by congruence. subst a'.
          by apply (Hgrand p j' b b'). }
        rewrite (Hko i') in Ha' by done.
        by apply (Hord i' j' a' b').
    + intros pp c a' b' Hc1 Hc2 Ha' Hb'.
      destruct (child_parent pp p Hc1) as [_ Hlt1].
      rewrite (Hko pp) in Ha' by lia.
      destruct (decide (c = j)) as [->|Hnj].
      * rewrite Hkj in Hb'. assert (b' = b) by congruence. subst b'.
        apply (Hord pp p a' b); try done. lia.
      * destruct (child_parent p c Hc2) as [_ Hlt2].
        rewrite (Hko c) in Hb' by lia.
        pose proof (Hord pp p a' b Hc1 ltac:(lia) Ha' Hb).
        pose proof (Hord p c b b' Hc2 Hnj Hb Hb'). lia.
    + split; [by eapply hperm_trans|done].
  - injection Hrun as <-. split; [by apply hperm_refl|].
    intros i' j' a' b' Hc _ Ha' Hb'.
    destruct (decide (j' = j)) as [->|Hnj]; [|by apply (Hord i' j' a' b')].
    destruct (child_parent i' j Hc) as [Hi' _]. fold p in Hi'. subst i'.
    assert (a' = b) by congruence. assert (b' = a) by congruence. lia.
Qed.

End HeapUp.

Section HeapDown.
Context {K : Type} `{Countable K}.
Implicit Types (s : HeapSt K) (x : expEntry K) (o : list (expEntry K)) (h : list nat).

Lemma pick_spec s (i n : nat) :
  hwf s -> (n <= length s.2)%nat -> (2 * i + 1 < n)%nat ->
  child i (pick s i n) /\ (pick s i n < n)%nat /\
  forall c a b, child i c -> (c < n)%nat ->
    kat s (pick s i n) = Some a -> kat s c = Some b -> a <= b.
Proof.
  intros Hwf Hn Hi. unfold pick.
  destruct (kat_is_Some s (2 * i + 1) Hwf) as [a1 Ha1]; [lia|].
  destruct (decide (2 * i + 2 < n)%nat) as [H2|H2].
  - destruct (kat_is_Some s (2 * i + 2) Hwf) as [a2 Ha2]; [lia|].
    rewrite Ha1, Ha2.
    destruct (Z.ltb_spec a2 a1) as [Hlt|Hge].
    + split; [by right|]. split; [done|].
      intros c a b [->| ->] _ Ha Hb; assert (a = a2) by congruence;
        [assert (b = a1) by congruence|assert (b = a2) by congruence]; lia.
    + split; [by left|]. split; [done|].
      intros c a b [->| ->] _ Ha Hb; assert (a = a1) by congruence;
        [assert (b = a1) by congruence|assert (b = a2) by congruence]; lia.
  - split; [by left|]. split; [done|].
    intros c a b [->| ->] Hc Ha Hb; [|lia].
    assert (a = b) by congruence. lia.
Qed.

Lemma down_loop_leaf fuel (i0 : Z) (i n : nat) s :
  (n <= 2 * i + 1)%nat ->
  down_loop (S fuel) i0 (Z.of_nat i) (Z.of_nat n) s = Ret (i0 <? Z.of_nat i) s.
Proof.
  intros Hn. cbn [down_loop].
  by destruct (Z.leb_spec (Z.of_nat n) (2 * Z.of_nat i + 1)); [|lia].
Qed.

Lemma down_loop_S fuel (i0 : Z) (i n : nat) s a c :
  hwf s -> (n <= length s.2)%nat -> (2 * i + 1 < n)%nat ->
  kat s i = Some a -> kat s (pick s i n) = Some c ->
  down_loop (S fuel) i0 (Z.of_nat i) (Z.of_nat n) s =
    if c <? a
    then (Swap (Z.of_nat i) (Z.of_nat (pick s i n)) ;;
          down_loop fuel i0 (Z.of_nat (pick s i n)) (Z.of_nat n)) s
    else Ret (i0 <? Z.of_nat i) s.
Proof.
  intros Hwf Hn Hi Ha Hc. cbn [down_loop].
  destruct (Z.leb_spec (Z.of_nat n) (2 * Z.of_nat i + 1)); [lia|].
  destruct (Z.ltb_spec (2 * Z.of_nat i + 1) 0); [lia|]. cbn [orb].
  replace (2 * Z.of_nat i + 1) with (Z.of_nat (2 * i + 1)) by lia.
  replace (Z.of_nat (2 * i + 1) + 1) with (Z.of_nat (2 * i + 2)) by lia.
  destruct (kat_is_Some s (2 * i + 1) Hwf) as [a1 Ha1]; [lia|].
  assert (Hpick : (if Z.of_nat (2 * i + 2) <? Z.of_nat n
                   then Less (Z.of_nat (2 * i + 2)) (Z.of_nat (2 * i + 1))
                   else ret false) s
                  = Ret (bool_decide (pick s i n = (2 * i + 2)%nat)) s).
  { unfold pick.
    destruct (Z.ltb_spec (Z.of_nat (2 * i + 2)) (Z.of_nat n)) as [H2|H2].
    - rewrite decide_True by lia.
      destruct (kat_is_Some s (2 * i + 2) Hwf) as [a2 Ha2]; [lia|].
      rewrite Ha1, Ha2. rewrite (Less_kat s _ _ a2 a1 Ha2 Ha1).
      destruct (a2 <? a1).
      + by rewrite bool_decide_true.
      + by rewrite bool_decide_false by lia.
    - rewrite decide_False by lia. by rewrite bool_decide_false by lia. }
  rewrite (bind_Ret _ _ _ _ _ Hpick).
  assert (Hj : (if bool_decide (pick s i n = (2 * i + 2)%nat)
                then Z.of_nat (2 * i + 2) else Z.of_nat (2 * i + 1))
               = Z.of_nat (pick s i n)).
  { destruct (pick_spec s i n Hwf Hn Hi) as ([Hp|Hp] & _).
    - rewrite bool_decide_false by lia. by rewrite Hp.
    - rewrite bool_decide_true by done. by rewrite Hp. }
  rewrite Hj.
  rewrite (bind_Ret _ _ _ _ _ (Less_kat s _ _ c a Hc Ha)).
  by destruct (c <? a).
Qed.

(** [down] from [i]: either nothing moves and [i] is no later than its
    children, or the first [n] positions end up in order. *)
Lemma down_loop_ord fuel : forall (i0 : Z) (i n : nat) s b s',
  hwf s -> (n <= length s.2)%nat -> (n - i < fuel)%nat -> i0 <= Z.of_nat i ->
  (forall i' j' a b, child i' j' -> (j' < n)%nat -> i' <> i -> j' <> i ->
     kat s i' = Some a -> kat s j' = Some b -> a <= b) ->
  (forall p c a b, child p i -> child i c -> (c < n)%nat ->
     kat s p = Some a -> kat s c = Some b -> a <= b) ->
  down_loop fuel i0 (Z.of_nat i) (Z.of_nat n) s = Ret b s' ->
  (s' = s /\ b = (i0 <? Z.of_nat i) /\
   forall c a b, child i c -> (c < n)%nat ->
     kat s i = Some a -> kat s c = Some b -> a <= b) \/
  (b = true /\ hord_upto n s').
Proof.
  induction fuel as [|fuel IH];
    intros i0 i n s b s' Hwf Hn Hfuel Hi0 P1 P2 Hrun; [lia|].
  destruct (decide (n <= 2 * i + 1)%nat) as [Hleaf|Hin].
  { rewrite down_loop_leaf in Hrun by done. injection Hrun as <- <-.
    left. split; [done|]. split; [done|].
    intros c a b [->| ->] Hc; lia. }
  assert (Hi : (i < length s.2)%nat) by lia.
  destruct (pick_spec s i n Hwf Hn) as (Hch & Hjn & Hmin); [lia|].
  set (j := pick s i n) in *.
  destruct (child_parent i j Hch) as [_ Hij].
  destruct (kat_is_Some s i Hwf Hi) as [a Ha].
  destruct (kat_is_Some s j Hwf) as [c Hc]; [lia|].
  rewrite (down_loop_S fuel i0 i n s a c Hwf Hn) in Hrun by (done || lia).
  fold j in Hrun.
  destruct (Z.ltb_spec c a) as [Hca|Hca].
  - right. unfold bind in Hrun.
    destruct (Swap (Z.of_nat i) (Z.of_nat j) s) as [[] s1|] eqn:Hsw;
      [|discriminate].
    destruct (Swap_kat s i j s1 Hwf) as (Hp1 & Hki & Hkj & Hko); [lia|lia|done|].
    assert (Hlen1 : length s1.2 = length s.2).
    { apply Permutation_length, Hp1. }
    assert (P1' : forall i' j' a' b', child i' j' -> (j' < n)%nat ->
              i' <> j -> j' <> j ->
              kat s1 i' = Some a' -> kat s1 j' = Some b' -> a' <= b').
    { intros i' j' a' b' Hc' Hj' Hne1 Hne2 Ha' Hb'.
      destruct (child_parent i' j' Hc') as [_ Hlt'].
      destruct (decide (i' = i)) as [->|Hni].
      - rewrite Hki in Ha'. rewrite (Hko j') in Hb' by lia.
        by apply (Hmin j' a' b').
      - rewrite (Hko i') in Ha' by done.
        destruct (decide (j' = i)) as [->|Hnj].
        + rewrite Hki in Hb'. assert (b' = c) by congruence. subst b'.
          by apply (P2 i' j a' c).
        + rewrite (Hko j') in Hb' by done.
          by apply (P1 i' j' a' b'). }
    destruct (IH i0 j n s1 b s') as [(-> & -> & Hkids)|[-> Hord]];
      [apply Hp1|lia|lia|lia|done| |done| |by split].
    + intros p d a' b' Hc1 Hc2 Hd Ha' Hb'.
      destruct (child_parent p j Hc1) as [Hp _].
      destruct (child_parent i j Hch) as [Hi' _].
      assert (p = i) by congruence. clear Hp. subst p.
      destruct (child_parent j d Hc2) as [_ Hjd].
      rewrite Hki in Ha'. rewrite (Hko d) in Hb' by lia.
      apply (P1 j d a' b'); done || lia.
    + split; [apply Z.ltb_lt; lia|].
      intros i' j' a' b' Hc' Hj' Ha' Hb'.
      destruct (decide (i' = j)) as [->|Hne1]; [by apply (Hkids j' a' b')|].
      destruct (decide (j' = j)) as [->|Hne2]; [|by apply (P1' i' j' a' b')].
      destruct (child_parent i' j Hc') as [Hp _].
      destruct (child_parent i j Hch) as [Hi' _].
      assert (i' = i) by congruence. clear Hp. subst i'.
      rewrite Hki in Ha'. rewrite Hkj in Hb'.
      assert (a' = c) by congruence. assert (b' = a) by congruence. lia.
  - injection Hrun as <- <-. left. split; [done|]. split; [done|].
    intros d a' b' Hd Hdn Ha' Hb'.
    assert (a' = a) by congruence. subst a'.
    pose proof (Hmin d c b' Hd Hdn Hc Hb'). lia.
Qed.

End HeapDown.

Section HeapOps.
Context {K : Type} `{Countable K}.
Implicit Types (s : HeapSt K) (x : expEntry K) (o : list (expEntry K)) (h : list nat).

Lemma Push_last o h (r : nat) x :
  o !! r = Some x ->
  Push r (o, h)
  = Ret tt (<[r := set_exp_index (Z.of_nat (length h)) x]> o, h ++ [r]).
Proof.
  intros Hx. unfold Push, Len. unfold bind at 1.
  rewrite (bind_Ret _ _ _ _ _ (deref_ok o h r x Hx)). simpl.
  by rewrite (bind_Ret _ _ _ _ _ (assign_ok o h r x _ Hx)).
Qed.

Lemma Pop_last o h (r : nat) x :
  last h = Some r -> o !! r = Some x ->
  Pop (o, h)
  = Ret r (<[r := set_exp_index (-1) x]> o, take (length h - 1) h).
Proof.
  intros Hl Hx. apply last_Some in Hl as [h' ->].
  assert (Hn : (h' ++ [r]) !! length h' = Some r).
  { rewrite lookup_app_r by lia. by rewrite Nat.sub_diag. }
  unfold Pop, Len. unfold bind at 1. simpl.
  rewrite length_app. simpl.
  replace (Z.of_nat (length h' + 1) - 1) with (Z.of_nat (length h')) by lia.
  rewrite (bind_Ret _ _ _ _ _ (slice_at_ok o _ _ r Hn)).
  rewrite (bind_Ret _ _ _ _ _ (deref_ok o _ r x Hx)).
  rewrite (bind_Ret _ _ _ _ _ (assign_ok o _ r x _ Hx)).
  unfold modify, bind, ret. simpl. rewrite Nat2Z.id.
  by replace (length h' + 1 - 1)%nat with (length h') by lia.
Qed.

(** Rewriting the [index] field of a record moves no expiration. *)
Lemma kat_set_index o h (r : nat) x (z : Z) (k : nat) :
  o !! r = Some x ->
  kat (<[r := set_exp_index z x]> o, h) k = kat (o, h) k.
Proof.
  intros Hx. unfold kat. simpl. destruct (h !! k) as [r'|]; [|done].
  destruct (decide (r' = r)) as [->|Hne].
  - rewrite list_lookup_insert_eq by by eapply lookup_lt_Some.
    by rewrite Hx.
  - by rewrite list_lookup_insert_ne.
Qed.

Lemma kat_app_l o h h' (k : nat) :
  (k < length h)%nat -> kat (o, h ++ h') k = kat (o, h) k.
Proof. intros Hk. unfold kat. simpl. by rewrite lookup_app_l. Qed.

Lemma kat_take o h (n k : nat) :
  (k < n)%nat -> kat (o, take n h) k = kat (o, h) k.
Proof. intros Hk. unfold kat. simpl. by rewrite lookup_take_lt. Qed.

(** In a min-heap the root is no later than any other position. *)
Lemma hord_root s (j : nat) b :
  hwf s -> hord s -> kat s j = Some b ->
  exists a, kat s 0%nat = Some a /\ a <= b.
Proof.
  intros Hwf Hord. revert b.
  induction (lt_wf j) as [j _ IH]. intros b Hb.
  destruct (decide (j = 0%nat)) as [->|Hj]; [exists b; split; [done|lia]|].
  pose proof (parent_child j Hj) as Hc.
  destruct (child_parent _ _ Hc) as [_ Hlt].
  pose proof (kat_lt s j b Hb) as Hjl.
  destruct (kat_is_Some s ((j - 1) / 2) Hwf) as [p Hp]; [lia|].
  destruct (IH _ Hlt p Hp) as (a & Ha & Hap).
  exists a. split; [done|].
  pose proof (Hord _ j p b Hc Hjl Hp Hb). lia.
Qed.

(** [heap.Fix] at [i] restores the order when only the expiration at [i]
    is out of place. *)
Lemma heap_Fix_ord (i : nat) s s' :
  hwf s -> (i < length s.2)%nat ->
  (forall i' j' a b, child i' j' -> i' <> i -> j' <> i ->
     kat s i' = Some a -> kat s j' = Some b -> a <= b) ->
  (forall p c a b, child p i -> child i c ->
     kat s p = Some a -> kat s c = Some b -> a <= b) ->
  heap_Fix (Z.of_nat i) s = Ret tt s' ->
  hperm s s' /\ hord s'.
Proof.
  intros Hwf Hi P1 P2 Hrun.
  unfold heap_Fix, Len in Hrun. unfold bind at 1 in Hrun.
  destruct (down_ok i (length s.2) s Hwf) as (b & s1 & Hs1 & Hp1 & _); [lia|].
  rewrite (bind_Ret _ _ _ _ _ Hs1) in Hrun.
  assert (Hlen1 : length s1.2 = length s.2).
  { apply Permutation_length, Hp1. }
  unfold down in Hs1. rewrite Nat2Z.id in Hs1.
  destruct (down_loop_ord (S (length s.2)) (Z.of_nat i) i (length s.2) s b s1 Hwf) as
    [(-> & -> & Hkids)|[-> Hord]]; [lia|lia|lia| | |done| |].
  - intros i' j' a b' Hc _. by apply P1.
  - intros p c a b' Hc1 Hc2 _. by apply P2.
  - rewrite Z.ltb_irrefl in Hrun. simpl in Hrun.
    unfold up in Hrun. rewrite Nat2Z.id in Hrun.
    apply (up_loop_ord (S i) i s s' Hwf Hi); [lia| |done|done].
    intros i' j' a b' Hc Hne Ha Hb.
    destruct (decide (i' = i)) as [->|Hni].
    + apply (Hkids j' a b'); try done. by eapply kat_lt.
    + by apply (P1 i' j' a b').
  - simpl in Hrun. injection Hrun as <-. split; [done|].
    unfold hord. by rewrite Hlen1.
Qed.

(** [heap.Push] keeps a min-heap a min-heap. *)
Lemma heap_Push_ord o h (r : nat) x s' :
  hwf (o, h) -> hord (o, h) -> o !! r = Some x -> r ∉ h ->
  heap_Push r (o, h) = Ret tt s' -> hord s'.
Proof.
  intros Hwf Hord Hx Hr Hrun.
  set (n := length h).
  set (s1 := (<[r := set_exp_index (Z.of_nat n) x]> o, h ++ [r]) : HeapSt K).
  assert (Hwf1 : hwf s1).
  { destruct Hwf as [Hnd Hidx]. simpl in Hnd, Hidx. split; simpl.
    - apply NoDup_app. split; [done|]. split; [|apply NoDup_singleton].
      intros y Hy Hy'. apply list_elem_of_singleton in Hy'. by subst.
    - intros k r' Hk.
      destruct (decide (k < n)%nat) as [Hkn|Hkn].
      + rewrite lookup_app_l in Hk by done.
        destruct (Hidx k r' Hk) as (x' & Hx' & Hi').
        exists x'. split; [|done].
        rewrite list_lookup_insert_ne; [done|].
        intros ->. apply Hr. by eapply list_elem_of_lookup_2.
      + rewrite lookup_app_r in Hk by (fold n; lia).
        destruct (k - length h)%nat eqn:Hkk; [|by destruct n0].
        simpl in Hk. injection Hk as <-.
        exists (set_exp_index (Z.of_nat n) x).
        split; [apply list_lookup_insert_eq; by eapply lookup_lt_Some|].
        simpl. unfold n in *. lia. }
  unfold heap_Push in Hrun.
  rewrite (bind_Ret _ _ _ _ _ (Push_last o h r x Hx)) in Hrun.
  fold n in Hrun. fold s1 in Hrun.
  unfold Len in Hrun. unfold bind at 1 in Hrun. simpl in Hrun.
  rewrite length_app in Hrun. simpl in Hrun.
  replace (Z.of_nat (length h + 1) - 1) with (Z.of_nat n) in Hrun
    by (unfold n; lia).
  unfold up in Hrun. rewrite Nat2Z.id in Hrun.
  assert (Hold : forall k, (k < n)%nat -> kat s1 k = kat (o, h) k).
  { intros k Hk. unfold s1. rewrite kat_set_index by done.
    by apply kat_app_l. }
  apply (up_loop_ord (S n) n s1 s' Hwf1); [|lia| | |done].
  - simpl. rewrite length_app. simpl. fold n. lia.
  - intros i' j' a b Hc Hne Ha Hb.
    destruct (child_parent i' j' Hc) as [_ Hlt].
    pose proof (kat_lt s1 j' b Hb) as Hj'. simpl in Hj'.
    rewrite length_app in Hj'. simpl in Hj'. fold n in Hj'.
    rewrite Hold in Ha, Hb by lia.
    apply (Hord i' j' a b); try done. simpl. fold n. lia.
  - intros p c a b _ Hc _ Hb.
    destruct (child_parent n c Hc) as [_ Hlt].
    pose proof (kat_lt s1 c b Hb) as Hc'. simpl in Hc'.
    rewrite length_app in Hc'. simpl in Hc'. fold n in Hc'. lia.
Qed.

End HeapOps.

Section HeapPop.
Context {K : Type} `{Countable K}.
Implicit Types (s : HeapSt K) (x : expEntry K) (o : list (expEntry K)) (h : list nat).

(** [heap.Pop] hands out the root and leaves a min-heap behind. *)
Lemma heap_Pop_ord o h (r0 : nat) s' :
  hwf (o, h) -> hord (o, h) -> h !! 0%nat = Some r0 ->
  heap_Pop (o, h) = Ret r0 s' -> hord s'.
Proof.
  intros Hwf Hord Hr0 Hrun.
  assert (Hlen : (0 < length h)%nat) by by eapply lookup_lt_Some.
  set (n := (length h - 1)%nat).
  destruct (Swap_ok o h 0 n Hwf) as (s1 & Hs1 & Hp1 & _ & Hn1 & _);
    [lia|unfold n; lia|].
  destruct (Swap_kat (o, h) 0 n s1 Hwf) as (_ & Hk0 & Hkn & Hko);
    [simpl; lia|simpl; unfold n; lia|done|].
  assert (Hlen1 : length s1.2 = length h).
  { apply Permutation_length, Hp1. }
  destruct (down_ok 0 n s1) as (b & s2 & Hs2 & Hp2 & Hk2);
    [apply Hp1|unfold n; lia|].
  assert (Hlen2 : length s2.2 = length h).
  { rewrite <-Hlen1. apply Permutation_length, Hp2. }
  assert (Hord2 : hord_upto n s2).
  { assert (P1 : forall i' j' a b', child i' j' -> (j' < n)%nat ->
              i' <> 0%nat -> j' <> 0%nat ->
              kat s1 i' = Some a -> kat s1 j' = Some b' -> a <= b').
    { intros i' j' a b' Hc Hj' Hi0 Hj0 Ha Hb.
      destruct (child_parent i' j' Hc) as [_ Hlt].
      rewrite (Hko i') in Ha by lia. rewrite (Hko j') in Hb by lia.
      apply (Hord i' j' a b'); try done. simpl. unfold n in Hj'. lia. }
    pose proof Hs2 as Hs2'. unfold down in Hs2'. rewrite Nat2Z.id in Hs2'.
    destruct (down_loop_ord (S n) (Z.of_nat 0) 0 n s1 b s2) as
      [(-> & _ & Hkids)|[_ Hdone]];
      [apply Hp1|lia|lia|lia|done| |done| |done].
    - intros p c a b' Hc. destruct Hc; lia.
    - intros i' j' a b' Hc Hj' Ha Hb.
      destruct (decide (i' = 0%nat)) as [->|Hi0]; [by apply (Hkids j' a b')|].
      apply (P1 i' j' a b'); try done. destruct Hc; lia. }
  assert (Hn2 : s2.2 !! n = Some r0).
  { rewrite Hk2 by lia. by rewrite Hn1. }
  destruct Hp2 as (Hwf2 & _ & _).
  destruct s2 as [o2 h2]. simpl in *.
  destruct Hwf2 as [_ Hidx2]. simpl in *.
  destruct (Hidx2 n r0 Hn2) as (x2 & Hx2 & _).
  assert (Hlast : last h2 = Some r0).
  { rewrite last_lookup. by replace (pred (length h2)) with n by (unfold n; lia). }
  unfold heap_Pop, Len in Hrun. unfold bind at 1 in Hrun. simpl in Hrun.
  replace (Z.of_nat (length h) - 1) with (Z.of_nat n) in Hrun
    by (unfold n; lia).
  rewrite (bind_Ret _ _ _ _ _ Hs1) in Hrun.
  rewrite (bind_Ret _ _ _ _ _ Hs2) in Hrun.
  rewrite (Pop_last o2 h2 r0 x2 Hlast Hx2) in Hrun.
  injection Hrun as <-.
  replace (length h2 - 1)%nat with n by (unfold n; lia).
  unfold hord. simpl. rewrite length_take.
  replace (n `min` length h2)%nat with n by (unfold n; lia).
  intros i' j' a b' Hc Hj' Ha Hb.
  destruct (child_parent i' j' Hc) as [_ Hlt].
  rewrite kat_set_index in Ha, Hb by done.
  rewrite kat_take in Ha, Hb by lia.
  by apply (Hord2 i' j' a b').
Qed.

End HeapPop.

Section Schedule.
Context {K : Type} `{Countable K} {V : Type} (zero : V).
Implicit Types (c : Cache K V) (ent : entry K V) (x : expEntry K).
Local Arguments heap_Fix : simpl never.
Local Arguments heap_Push : simpl never.
Local Arguments heap_Pop : simpl never.
Local Arguments removeOldestLocked : simpl never.

Lemma quiet_refl c : quiet c c.
Proof. by repeat split. Qed.

Lemma quiet_trans c1 c2 c3 : quiet c1 c2 -> quiet c2 c3 -> quiet c1 c3.
Proof.
  intros (Hh1 & Hx1 & He1 & Hl1) (Hh2 & Hx2 & He2 & Hl2).
  split; [congruence|]. split; [intros r; by rewrite Hx2|].
  split; [congruence|]. by etrans.
Qed.

Lemma quiet_kat c c' (k : nat) :
  quiet c c' -> kat (exps c', expHeap c') k = kat (exps c, expHeap c) k.
Proof.
  intros (Hh & Hx & _). unfold kat. simpl. rewrite Hh.
  destruct (expHeap c !! k); [apply Hx|done].
Qed.

Lemma quiet_sorted c c' : quiet c c' -> sorted c -> sorted c'.
Proof.
  intros Hq Hord i j a b Hc Hj Ha Hb. simpl in Hj.
  rewrite (quiet_kat c c' _ Hq) in Ha. rewrite (quiet_kat c c' _ Hq) in Hb.
  apply (Hord i j a b); try done. simpl. destruct Hq as (<- & _). done.
Qed.

Lemma quiet_timed c c' : quiet c c' -> timed c -> timed c'.
Proof.
  intros (_ & _ & He & Hl) Ht ele ent Hin Hel.
  rewrite He in Hel. apply (Ht ele ent); [by apply Hl|done].
Qed.

Lemma quiet_cancel_exp c (r : option nat) : quiet c (cancel_exp r c).
Proof.
  unfold cancel_exp. destruct r as [r|]; [|apply quiet_refl].
  destruct (exps c !! r) as [x|] eqn:Hx; [|apply quiet_refl].
  split; [done|]. split; [|done]. simpl. intros r'.
  destruct (decide (r' = r)) as [->|Hne].
  - rewrite list_lookup_insert_eq by by eapply lookup_lt_Some.
    by rewrite Hx.
  - by rewrite list_lookup_insert_ne.
Qed.

Lemma quiet_unlink c ele (key : K) : quiet c (unlink ele key c).
Proof.
  split; [done|]. split; [done|]. split; [done|]. simpl.
  intros e He. by apply list_Remove_elem in He as [_ ?].
Qed.

Lemma quiet_unlink_cancel c ele (key : K) (r : option nat) :
  quiet c (unlink ele key (cancel_exp r c)).
Proof.
  eapply quiet_trans; [apply quiet_cancel_exp|apply quiet_unlink].
Qed.

Lemma quiet_front c ele : quiet c (set_ll (list_MoveToFront ele (ll c)) c).
Proof.
  split; [done|]. split; [done|]. split; [done|]. simpl.
  unfold list_MoveToFront. destruct (decide (ele ∈ ll c)) as [Hin|]; [|done].
  intros e He. apply elem_of_cons in He as [->|He]; [done|].
  by apply list_Remove_elem in He as [_ ?].
Qed.

Lemma Get_quiet c (key : K) now (vb : V * bool) c' :
  wf c -> Get zero key now c = Ret vb c' -> quiet c c'.
Proof.
  intros Hwf Hrun.
  destruct (cache c !! key) as [ele|] eqn:Hc.
  - destruct (wf_map c Hwf key ele Hc) as (Hin & ent & He & Hk).
    destruct (decide (ent_expiration ent <> 0 /\ ent_expiration ent < now))
      as [[Hz Hlt]|Hno].
    + rewrite (Get_expired zero c key now ele ent Hc He Hz Hlt) in Hrun.
      injection Hrun as _ <-. apply quiet_unlink.
    + rewrite (Get_hit zero c key now ele ent Hc He) in Hrun by lia.
      injection Hrun as _ <-. apply quiet_front.
  - rewrite (Get_absent zero c key now Hc) in Hrun.
    injection Hrun as _ <-. apply quiet_refl.
Qed.

Lemma Delete_quiet c (key : K) c' :
  wf c -> Delete key c = Ret tt c' -> quiet c c'.
Proof.
  intros Hwf Hrun.
  destruct (cache c !! key) as [ele|] eqn:Hc.
  - destruct (Delete_ok c key ele Hwf Hc) as (ent & _ & _ & Hd).
    rewrite Hd in Hrun. injection Hrun as <-. apply quiet_unlink_cancel.
  - rewrite (Delete_absent c key Hc) in Hrun.
    injection Hrun as <-. apply quiet_refl.
Qed.

Lemma removeOldestLocked_quiet c c' :
  wf c -> removeOldestLocked c = Ret tt c' -> quiet c c' /\ wf c'.
Proof.
  intros Hwf Hrun.
  destruct (last (ll c)) as [old|] eqn:Hlast.
  - apply last_Some in Hlast as [l Hll].
    destruct (removeOldestLocked_ok c l old Hwf Hll) as (ent & He & Hr & _).
    rewrite Hr in Hrun. injection Hrun as <-.
    split; [apply quiet_unlink_cancel|].
    apply wf_unlink_cancel; [done| |done]. rewrite Hll. set_solver.
  - apply last_None in Hlast.
    rewrite (removeOldestLocked_nil c Hlast) in Hrun.
    injection Hrun as <-. split; [apply quiet_refl|done].
Qed.

Lemma evict_if_over_quiet c c' :
  wf c -> evict_if_over c = Ret tt c' -> quiet c c'.
Proof.
  intros Hwf. unfold evict_if_over.
  destruct (capacity c <? list_Len c).
  - intros Hrun. by apply removeOldestLocked_quiet.
  - intros [= <-]. apply quiet_refl.
Qed.

Lemma evict_loop_quiet (fuel : nat) : forall c c',
  wf c -> evict_loop fuel c = Ret tt c' -> quiet c c'.
Proof.
  induction fuel as [|fuel IH]; intros c c' Hwf; simpl;
    unfold bind at 1, get at 1;
    destruct (capacity c <? list_Len c); try discriminate;
    try (intros [= <-]; apply quiet_refl).
  unfold bind.
  destruct (removeOldestLocked c) as [[] c1|] eqn:Hr; [|discriminate].
  destruct (removeOldestLocked_quiet c c1 Hwf Hr) as [Hq Hwf1].
  intros Hrun. eapply quiet_trans; [done|]. by apply IH.
Qed.

Lemma SetCapacity_quiet c (n : Z) c' :
  wf c -> SetCapacity n c = Ret tt c' -> quiet c c'.
Proof.
  intros Hwf. unfold SetCapacity. destruct (n <=? 0); [discriminate|].
  unfold bind, modify, get. intros Hrun.
  apply (quiet_trans c (set_capacity n c)); [by repeat split|].
  apply (evict_loop_quiet _ _ _ (wf_set_capacity c n Hwf) Hrun).
Qed.

End Schedule.

Section HeapSched.
Context {K : Type} `{Countable K}.
Implicit Types (s : HeapSt K) (x : expEntry K) (o : list (expEntry K)) (h : list nat).
Local Arguments heap_Fix : simpl never.
Local Arguments heap_Push : simpl never.
Local Arguments heap_Pop : simpl never.

(** Changing the expiration of the record at position [i] and calling
    [heap.Fix] there gives a min-heap again. *)
Lemma refresh_sorted o h (i r : nat) x (e : Z) s' :
  hwf (o, h) -> hord (o, h) -> h !! i = Some r -> o !! r = Some x ->
  heap_Fix (Z.of_nat i) (<[r := set_exp_expiration e x]> o, h) = Ret tt s' ->
  hord s'.
Proof.
  intros Hwf Hord Hi Hx Hrun.
  assert (Hh : hwf (<[r := set_exp_expiration e x]> o, h)).
  { by eapply hwf_same_index. }
  assert (Hilt : (i < length h)%nat) by by eapply lookup_lt_Some.
  assert (Hold : forall k, k <> i ->
            kat (<[r := set_exp_expiration e x]> o, h) k = kat (o, h) k).
  { intros k Hk. unfold kat. simpl. destruct (h !! k) as [r'|] eqn:Hr'; [|done].
    rewrite list_lookup_insert_ne; [done|]. intros <-.
    destruct Hwf as [Hnd _]. simpl in Hnd.
    apply Hk. by eapply NoDup_lookup. }
  assert (Hki : kat (o, h) i = Some (exp_expiration x)).
  { unfold kat. simpl. by rewrite Hi, Hx. }
  apply (heap_Fix_ord i _ s' Hh Hilt); [| |done].
  - intros i' j' a b Hc Hi' Hj' Ha Hb.
    rewrite Hold in Ha, Hb by done.
    apply (Hord i' j' a b); try done. by eapply (kat_lt (o, h)).
  - intros p c a b Hc1 Hc2 Ha Hb.
    destruct (child_parent p i Hc1) as [_ Hlt1].
    destruct (child_parent i c Hc2) as [_ Hlt2].
    rewrite Hold in Ha, Hb by lia.
    pose proof (Hord p i a _ Hc1 Hilt Ha Hki).
    pose proof (Hord i c _ b Hc2 (kat_lt (o, h) c b Hb) Hki Hb). lia.
Qed.

(** Allocating a record and pushing it gives a min-heap again. *)
Lemma alloc_sorted o h x s' :
  hwf (o, h) -> hord (o, h) ->
  heap_Push (length o) (o ++ [x], h) = Ret tt s' -> hord s'.
Proof.
  intros Hwf Hord Hrun.
  destruct (hwf_alloc o h x Hwf) as [Hh Hfresh].
  apply (heap_Push_ord (o ++ [x]) h (length o) x s' Hh); [| |done|done].
  - intros i j a b Hc Hj Ha Hb.
    assert (Hold : forall k, kat (o ++ [x], h) k = kat (o, h) k).
    { intros k. unfold kat. simpl. destruct (h !! k) as [r'|] eqn:Hr'; [|done].
      destruct Hwf as [_ Hidx]. destruct (Hidx k r' Hr') as (x' & Hx' & _).
      simpl in Hx'. rewrite lookup_app_l; [done|]. by eapply lookup_lt_Some. }
    rewrite Hold in Ha, Hb. by apply (Hord i j a b).
  - rewrite lookup_app_r by lia. by rewrite Nat.sub_diag.
Qed.

End HeapSched.

Section ScheduleSet.
Context {K : Type} `{Countable K} {V : Type} (zero : V).
Implicit Types (c : Cache K V) (ent : entry K V) (x : expEntry K).
Local Arguments heap_Fix : simpl never.
Local Arguments heap_Push : simpl never.
Local Arguments heap_Pop : simpl never.
Local Arguments removeOldestLocked : simpl never.

Lemma sorted_set_heap c (s' : HeapSt K) : hord s' -> sorted (set_heap s' c).
Proof. unfold sorted. simpl. by destruct s'. Qed.

(** Rewriting one entry keeps [timed] when the new entry has a record
    or no expiration. *)
Lemma timed_touch c ele ent' :
  timed c -> (ent_expiration ent' <> 0 -> is_Some (ent_exp ent')) ->
  timed (touch ele ent' c).
Proof.
  intros Ht Hnew ele' ent0 Hin He. simpl in Hin, He.
  destruct (decide (ele' = ele)) as [->|Hne].
  - apply list_lookup_insert_Some in He as [(_ & <- & _)|(? & _)]; done.
  - rewrite list_lookup_insert_ne in He by done.
    apply (Ht ele' ent0); [|done].
    unfold list_MoveToFront in Hin.
    destruct (decide (ele ∈ ll c)); [|done].
    apply elem_of_cons in Hin as [->|Hin]; [done|].
    by apply list_Remove_elem in Hin as [_ ?].
Qed.

Lemma SetWithTTL_update_sched c (key : K) (value : V) ttl now ele c' :
  wf c -> sorted c -> timed c -> cache c !! key = Some ele ->
  (0 < ttl -> 0 < now) ->
  SetWithTTL key value ttl now c = Ret tt c' -> sorted c' /\ timed c'.
Proof.
  intros Hwf Hs Ht Hc Hnow Hrun.
  destruct (wf_map c Hwf key ele Hc) as (Hin & ent & He & Hk).
  destruct (Z.ltb_spec 0 ttl) as [Httl|Httl].
  - destruct (ent_exp ent) as [r|] eqn:Hexp.
    + destruct (refresh_wf c ele ent r value (now + ttl) Hwf Hin He Hexp)
        as (x & s' & Hx & Hfix & _); [lia|].
      rewrite (SetWithTTL_update_fix c key value ttl now ele ent r x s'
                 Hc He Hexp Hx Httl Hfix) in Hrun.
      injection Hrun as <-.
      split.
      * apply (sorted_set_heap (touch ele _ c)).
        destruct (wf_exp c Hwf ele ent r Hin He Hexp) as (Hrh & _).
        apply list_elem_of_lookup in Hrh as [i Hi].
        destruct (wf_heap c Hwf) as [_ Hidx].
        destruct (Hidx i r Hi) as (x0 & Hx0 & Hi0). simpl in Hx0.
        assert (x0 = x) by congruence. subst x0. rewrite Hi0 in Hfix.
        by apply (refresh_sorted (exps c) (expHeap c) i r x (now + ttl) s'
                    (wf_heap c Hwf) Hs Hi Hx).
      * apply (timed_touch c ele); [done|]. simpl. by eexists.
    + assert (Hwf1 : wf (set_elems
        (<[ele := mkEntry (ent_key ent) value (now + ttl) None]> (elems c)) c)).
      { apply (wf_set_elem c ele ent); [done..|]. simpl. by intros ?. }
      assert (Hlt : (ele < length (elems c))%nat) by by eapply lookup_lt_Some.
      destruct (attach_wf _ ele (mkEntry (ent_key ent) value (now + ttl) None)
                  key Hwf1 Hin) as (s' & Hpush & _).
      { simpl. by apply list_lookup_insert_eq. }
      { done. } { simpl. lia. } { done. }
      simpl in Hpush.
      rewrite (SetWithTTL_update_push c key value ttl now ele ent s'
                 Hc He Hexp Httl Hpush) in Hrun.
      injection Hrun as <-.
      split.
      * apply (sorted_set_heap (touch ele _ c)).
        by eapply (alloc_sorted (exps c) (expHeap c) _ s' (wf_heap c Hwf) Hs).
      * apply (timed_touch c ele); [done|]. simpl. by eexists.
  - rewrite (SetWithTTL_update_clear c key value ttl now ele ent Hc He) in Hrun;
      [|intros r Hr;
        by destruct (wf_exp c Hwf ele ent r Hin He Hr) as (_ & x & -> & _)
       |done].
    injection Hrun as <-.
    pose proof (quiet_cancel_exp c (ent_exp ent)) as Hq.
    split.
    + change (sorted (cancel_exp (ent_exp ent) c)).
      by apply (quiet_sorted c).
    + apply timed_touch; [by apply (quiet_timed c)|done].
Qed.

Lemma timed_link c (key : K) (value : V) (t : Z) (rec : option nat) :
  wf c -> timed c -> (t <> 0 -> is_Some rec) ->
  forall c1, ll c1 = length (elems c) :: ll c ->
    elems c1 = elems c ++ [mkEntry key value t rec] -> timed c1.
Proof.
  intros Hwf Ht Hrec c1 Hll Hel ele ent Hin He.
  rewrite Hll in Hin. rewrite Hel in He.
  apply elem_of_cons in Hin as [->|Hin].
  - rewrite lookup_app_r in He by lia. rewrite Nat.sub_diag in He.
    injection He as <-. done.
  - destruct (wf_elem c Hwf ele Hin) as (ent0 & He0 & _).
    rewrite lookup_app_l in He by by eapply lookup_lt_Some.
    by apply (Ht ele ent).
Qed.

Lemma SetWithTTL_insert_sched c (key : K) (value : V) ttl now c' :
  wf c -> sorted c -> timed c -> cache c !! key = None ->
  (0 < ttl -> 0 < now) ->
  SetWithTTL key value ttl now c = Ret tt c' -> sorted c' /\ timed c'.
Proof.
  intros Hwf Hs Ht Hc Hnow Hrun.
  assert (exists c1, SetWithTTL key value ttl now c = evict_if_over c1 /\
            wf c1 /\ sorted c1 /\ timed c1) as (c1 & Hev & Hwf1 & Hs1 & Ht1).
  { destruct (Z.ltb_spec 0 ttl) as [Httl|Httl].
    - pose proof (wf_insert c key value (now + ttl) Hwf Hc) as Hwf1.
      fold (link key value (now + ttl) c) in Hwf1.
      destruct (attach_wf (link key value (now + ttl) c) (length (elems c))
                  (mkEntry key value (now + ttl) None) key Hwf1)
        as (s' & Hpush & Hwf' & _).
      { simpl. by left. }
      { simpl. rewrite lookup_app_r by lia. by rewrite Nat.sub_diag. }
      { done. } { simpl. lia. } { done. }
      simpl in Hpush.
      eexists. split; [by eapply SetWithTTL_insert_ttl|].
      split; [by apply wf_set_updateCh|].
      split.
      + apply (sorted_set_heap (set_elems _ (link key value (now + ttl) c))).
        by eapply (alloc_sorted (exps c) (expHeap c) _ s' (wf_heap c Hwf) Hs).
      + apply (timed_link c key value (now + ttl) (Some (length (exps c)))
                 Hwf Ht); [by eexists|done|]. simpl.
        rewrite insert_app_r_alt by lia. by rewrite Nat.sub_diag.
    - exists (link key value 0 c).
      split; [by apply SetWithTTL_insert_plain|].
      split; [by apply wf_insert|]. split; [done|].
      by apply (timed_link c key value 0 None Hwf Ht). }
  rewrite Hev in Hrun.
  pose proof (evict_if_over_quiet c1 c' Hwf1 Hrun) as Hq.
  split; [by apply (quiet_sorted c1)|by apply (quiet_timed c1)].
Qed.

Lemma SetWithTTL_sched c (key : K) (value : V) ttl now c' :
  wf c -> sorted c -> timed c -> (0 < ttl -> 0 < now) ->
  SetWithTTL key value ttl now c = Ret tt c' -> sorted c' /\ timed c'.
Proof.
  intros Hwf Hs Ht Hnow Hrun.
  destruct (cache c !! key) as [ele|] eqn:Hc.
  - by eapply SetWithTTL_update_sched.
  - by eapply SetWithTTL_insert_sched.
Qed.

End ScheduleSet.

Section ScheduleSweep.
Context {K : Type} `{Countable K} {V : Type} (zero : V).
Implicit Types (c : Cache K V) (ent : entry K V) (x : expEntry K).
Local Arguments heap_Fix : simpl never.
Local Arguments heap_Push : simpl never.
Local Arguments heap_Pop : simpl never.
Local Arguments removeOldestLocked : simpl never.

Lemma pop_sched c (r0 : nat) (s' : HeapSt K) :
  wf c -> sorted c -> timed c -> expHeap c !! 0%nat = Some r0 ->
  heap_Pop (exps c, expHeap c) = Ret r0 s' ->
  sorted (set_heap s' c) /\ timed (set_heap s' c).
Proof.
  intros Hwf Hs Ht Hr Hpop. split; [|done].
  apply sorted_set_heap.
  by apply (heap_Pop_ord (exps c) (expHeap c) r0 s' (wf_heap c Hwf) Hs Hr).
Qed.

Lemma quiet_sweep_due c now (key : K) : quiet c (sweep_due now key c).
Proof.
  unfold sweep_due.
  destruct (cache c !! key) as [ele|]; [|apply quiet_refl].
  destruct (elems c !! ele) as [ent|]; [|apply quiet_refl].
  destruct (negb _ && _); [apply quiet_unlink|apply quiet_refl].
Qed.

Lemma sweep_iter_sched c now (b : bool) c' :
  wf c -> sorted c -> timed c -> sweep_iter now c = Ret b c' ->
  sorted c' /\ timed c' /\ (b = false -> idle now c').
Proof.
  intros Hwf Hs Ht Hrun.
  destruct (expHeap c !! 0%nat) as [r0|] eqn:Hr.
  - destruct (wf_root c r0 Hwf Hr) as (x & s' & Hx & Hpop & Hh & Hf & Hp).
    destruct (pop_sched c r0 s' Hwf Hs Ht Hr Hpop) as [Hs1 Ht1].
    destruct (exp_canceled x) eqn:Hc.
    + rewrite (sweep_iter_canceled c now r0 x s' Hr Hx Hc Hpop) in Hrun.
      injection Hrun as <- <-. by repeat split.
    + destruct (Z.lt_ge_cases now (exp_expiration x)) as [Hlt|Hle].
      * rewrite (sweep_iter_early c now r0 x Hr Hx Hc Hlt) in Hrun.
        injection Hrun as <- <-. split; [done|]. split; [done|].
        intros _. right. by exists r0, x.
      * destruct Hf as [_ Hfr]. destruct (Hfr r0 x Hx) as (x' & Hx' & _).
        rewrite (sweep_iter_due c now r0 x s' x' Hr Hx Hc Hle Hpop Hx') in Hrun.
        { injection Hrun as <- <-.
          pose proof (quiet_sweep_due (set_heap s' c) now (exp_key x')) as Hq.
          split; [by apply (quiet_sorted _ _ Hq)|].
          split; [by apply (quiet_timed _ _ Hq)|done]. }
        intros ele Hm. destruct (wf_map c Hwf _ ele Hm) as (_ & ent & -> & _).
        by eexists.
  - assert (Hnil : expHeap c = []) by (destruct (expHeap c); [done|discriminate]).
    rewrite (sweep_iter_nil c now Hnil) in Hrun.
    injection Hrun as <- <-. split; [done|]. split; [done|]. intros _. by left.
Qed.

Lemma sweep_loop_sched (fuel : nat) now : forall c c',
  cache_inv c -> sorted c -> timed c -> sweep_loop fuel now c = Ret tt c' ->
  sorted c' /\ timed c' /\ idle now c'.
Proof.
  induction fuel as [|fuel IH]; intros c c' Hinv Hs Ht; simpl; unfold bind;
    destruct (sweep_iter_inv c now Hinv) as (b & c1 & Hrun & Hinv1 & _);
    rewrite Hrun;
    destruct (sweep_iter_sched c now b c1 (proj1 Hinv) Hs Ht Hrun)
      as (Hs1 & Ht1 & Hidle);
    destruct b; try discriminate.
  - intros [= <-]. split; [done|]. split; [done|]. by apply Hidle.
  - by apply IH.
  - intros [= <-]. split; [done|]. split; [done|]. by apply Hidle.
Qed.

Lemma nextWait_sched c now (w : option Z) c' :
  wf c -> sorted c -> timed c -> nextWait now c = Ret w c' ->
  sorted c' /\ timed c'.
Proof.
  intros Hwf Hs Ht Hrun.
  destruct (expHeap c !! 0%nat) as [r0|] eqn:Hr.
  - destruct (wf_root c r0 Hwf Hr) as (x & s' & Hx & Hpop & _).
    destruct (exp_canceled x) eqn:Hc.
    + rewrite (nextWait_canceled c now r0 x s' Hr Hx Hc Hpop) in Hrun.
      injection Hrun as _ <-. by eapply pop_sched.
    + rewrite (nextWait_pending c now r0 x Hr Hx Hc) in Hrun.
      by injection Hrun as _ <-.
  - assert (Hnil : expHeap c = []) by (destruct (expHeap c); [done|discriminate]).
    rewrite (nextWait_nil c now Hnil) in Hrun. by injection Hrun as _ <-.
Qed.

Lemma hord_nil (o : list (expEntry K)) : hord (o, []).
Proof. intros i j a b _ Hj. simpl in Hj. lia. Qed.

Lemma exec_sched c (o : op K V) c' :
  cache_inv c -> sorted c -> timed c -> clock_ok o ->
  exec zero o c = Ret tt c' -> sorted c' /\ timed c'.
Proof.
  intros Hinv Hs Ht Hclk. pose proof Hinv as (Hwf & _ & _).
  destruct o as [k now|k v|k v ttl now|k| |n|now|now]; simpl.
  - unfold bind. destruct (Get zero k now c) as [vb c1|] eqn:Hg; [|discriminate].
    intros [= <-]. pose proof (Get_quiet zero c k now vb c1 Hwf Hg) as Hq.
    split; [by apply (quiet_sorted c)|by apply (quiet_timed c)].
  - apply SetWithTTL_sched; [done..|lia].
  - apply SetWithTTL_sched; [done..|]. by intros _.
  - intros Hrun. pose proof (Delete_quiet c k c' Hwf Hrun) as Hq.
    split; [by apply (quiet_sorted c)|by apply (quiet_timed c)].
  - rewrite Dump_ok. intros [= <-]. split; [apply hord_nil|].
    intros ele ent Hin. by apply elem_of_nil in Hin.
  - intros Hrun. pose proof (SetCapacity_quiet c n c' Hwf Hrun) as Hq.
    split; [by apply (quiet_sorted c)|by apply (quiet_timed c)].
  - unfold bind. destruct (nextWait now c) as [w c1|] eqn:Hn; [|discriminate].
    intros [= <-]. by eapply nextWait_sched.
  - unfold sweep, bind, get. intros Hrun.
    by destruct (sweep_loop_sched _ now c c' Hinv Hs Ht Hrun) as (? & ? & _).
Qed.

Lemma reachable_sched c : reachable zero c -> sorted c /\ timed c.
Proof.
  induction 1 as [cap c Hnew|c o c' Hreach [Hs Ht] Hclk Hrun].
  - destruct (NewCache_inv cap c Hnew) as [_ Hpos].
    rewrite NewCache_ok in Hnew by done. injection Hnew as <-.
    split; [apply hord_nil|]. intros ele ent Hin. by apply elem_of_nil in Hin.
  - by apply (exec_sched c o c' (reachable_inv zero c Hreach)).
Qed.

End ScheduleSweep.

Section ScheduleFacts.
Context {K : Type} `{Countable K} {V : Type} (zero : V).
Implicit Types (c : Cache K V) (ent : entry K V) (x : expEntry K).
Local Arguments heap_Fix : simpl never.
Local Arguments heap_Push : simpl never.
Local Arguments heap_Pop : simpl never.
Local Arguments removeOldestLocked : simpl never.

Lemma root_le c (r r0 : nat) x x0 :
  wf c -> sorted c -> r ∈ expHeap c -> exps c !! r = Some x ->
  expHeap c !! 0%nat = Some r0 -> exps c !! r0 = Some x0 ->
  exp_expiration x0 <= exp_expiration x.
Proof.
  intros Hwf Hs Hin Hx Hr0 Hx0.
  apply list_elem_of_lookup in Hin as [j Hj].
  assert (Hkj : kat (exps c, expHeap c) j = Some (exp_expiration x)).
  { unfold kat. simpl. by rewrite Hj, Hx. }
  destruct (hord_root _ j _ (wf_heap c Hwf) Hs Hkj) as (a & Ha & Hle).
  unfold kat in Ha. simpl in Ha. rewrite Hr0, Hx0 in Ha. simpl in Ha.
  injection Ha as <-. done.
Qed.

(** A live entry with an expiration, seen from the heap. *)
Lemma live_scheduled c (key : K) ele ent :
  wf c -> timed c -> cache c !! key = Some ele -> elems c !! ele = Some ent ->
  ent_expiration ent <> 0 ->
  exists r, ent_exp ent = Some r /\ scheduled c r key (ent_expiration ent).
Proof.
  intros Hwf Ht Hc He Hz.
  destruct (wf_map c Hwf key ele Hc) as (Hin & ent0 & He0 & Hk).
  assert (ent0 = ent) by congruence. subst ent0.
  destruct (Ht ele ent Hin He Hz) as [r Hr]. exists r. split; [done|].
  rewrite <-Hk. by apply (wf_scheduled c ele ent r).
Qed.

(** X13.  In every reachable state the expiration heap is a min-heap: the
    record at its root expires no later than any record in the heap, and
    so no later than any live entry that has an expiration. *)
Theorem heap_root_earliest c :
  reachable zero c ->
  hord (exps c, expHeap c) /\
  (forall r x, r ∈ expHeap c -> exps c !! r = Some x ->
     exists r0 x0, expHeap c !! 0%nat = Some r0 /\ exps c !! r0 = Some x0 /\
       exp_expiration x0 <= exp_expiration x) /\
  (forall (key : K) ele ent,
     cache c !! key = Some ele -> elems c !! ele = Some ent ->
     ent_expiration ent <> 0 ->
     exists r0 x0, expHeap c !! 0%nat = Some r0 /\ exps c !! r0 = Some x0 /\
       exp_expiration x0 <= ent_expiration ent).
Proof.
  intros Hreach. destruct (reachable_inv zero c Hreach) as (Hwf & _ & _).
  destruct (reachable_sched zero c Hreach) as [Hs Ht].
  assert (Hroot : forall r x, r ∈ expHeap c -> exps c !! r = Some x ->
     exists r0 x0, expHeap c !! 0%nat = Some r0 /\ exps c !! r0 = Some x0 /\
       exp_expiration x0 <= exp_expiration x).
  { intros r x Hin Hx.
    destruct (expHeap c !! 0%nat) as [r0|] eqn:Hr0.
    - destruct (wf_heap c Hwf) as [_ Hidx].
      destruct (Hidx 0%nat r0 Hr0) as (x0 & Hx0 & _). simpl in Hx0.
      exists r0, x0. split; [done|]. split; [done|].
      by apply (root_le c r r0 x x0).
    - destruct (expHeap c); [by apply elem_of_nil in Hin|discriminate]. }
  split; [done|]. split; [done|].
  intros key ele ent Hc He Hz.
  destruct (live_scheduled c key ele ent Hwf Ht Hc He Hz)
    as (r & _ & Hin & x & Hx & _ & Hxe & _).
  destruct (Hroot r x Hin Hx) as (r0 & x0 & ? & ? & ?).
  exists r0, x0. split; [done|]. split; [done|]. lia.
Qed.

(** X10.  A sweep at [now] removes every entry that is due and nothing else:
    afterwards a key is bound exactly when it was bound before to an
    entry with no expiration or with an expiration after [now]. *)
Theorem sweep_removes_expired c (now : Z) :
  reachable zero c ->
  exists c', sweep now c = Ret tt c' /\
    forall (key : K) ele,
      cache c' !! key = Some ele <->
      cache c !! key = Some ele /\
      exists ent, elems c !! ele = Some ent /\
        (ent_expiration ent = 0 \/ now < ent_expiration ent).
Proof.
  intros Hreach. pose proof (reachable_inv zero c Hreach) as Hinv.
  destruct (reachable_sched zero c Hreach) as [Hs Ht].
  destruct (sweep_loop_step (length (expHeap c)) now c Hinv)
    as (c' & Hrun & (Hwf' & _) & He & _ & _ & Hm & Hk); [done|].
  destruct (sweep_loop_sched _ now c c' Hinv Hs Ht Hrun) as (Hs' & Ht' & Hidle).
  exists c'. split; [done|]. intros key ele. split.
  - intros Hc'. split; [by apply (lookup_weaken _ _ _ _ Hc' Hm)|].
    destruct (wf_map c' Hwf' key ele Hc') as (_ & ent & Hel & _).
    exists ent. split; [by rewrite <-He|].
    destruct (decide (ent_expiration ent = 0)) as [|Hz]; [by left|]. right.
    destruct (live_scheduled c' key ele ent Hwf' Ht' Hc' Hel Hz)
      as (r & _ & Hin & x & Hx & _ & Hxe & _).
    destruct Hidle as [Hnil|(r0 & x0 & Hr0 & Hx0 & _ & Hlt)].
    + rewrite Hnil in Hin. by apply elem_of_nil in Hin.
    + pose proof (root_le c' r r0 x x0 Hwf' Hs' Hin Hx Hr0 Hx0). lia.
  - intros (Hc & ent & Hel & Hexp). by apply (Hk key ele ent).
Qed.

(** X12.  The wait computed by the sweeper ends no later than the earliest
    expiration of a live entry (or at once, when that is already past). *)
Theorem nextWait_deadline c (now d : Z) c' :
  reachable zero c -> nextWait now c = Ret (Some d) c' ->
  0 <= d /\
  forall (key : K) ele ent,
    cache c !! key = Some ele -> elems c !! ele = Some ent ->
    ent_expiration ent <> 0 -> now + d <= Z.max now (ent_expiration ent).
Proof.
  intros Hreach Hrun. destruct (reachable_inv zero c Hreach) as (Hwf & _ & _).
  destruct (reachable_sched zero c Hreach) as [Hs Ht].
  destruct (expHeap c !! 0%nat) as [r0|] eqn:Hr.
  - destruct (wf_root c r0 Hwf Hr) as (x0 & s' & Hx0 & Hpop & _).
    destruct (exp_canceled x0) eqn:Hc.
    { by rewrite (nextWait_canceled c now r0 x0 s' Hr Hx0 Hc Hpop) in Hrun. }
    rewrite (nextWait_pending c now r0 x0 Hr Hx0 Hc) in Hrun.
    injection Hrun as <- _.
    split; [destruct (Z.ltb_spec now (exp_expiration x0)); lia|].
    intros key ele ent Hm He Hz.
    destruct (live_scheduled c key ele ent Hwf Ht Hm He Hz)
      as (r & _ & Hin & x & Hx & _ & Hxe & _).
    pose proof (root_le c r r0 x x0 Hwf Hs Hin Hx Hr Hx0).
    destruct (Z.ltb_spec now (exp_expiration x0)); lia.
  - assert (Hnil : expHeap c = []) by (destruct (expHeap c); [done|discriminate]).
    rewrite (nextWait_nil c now Hnil) in Hrun. injection Hrun as <- _.
    split; [unfold Hour; lia|].
    intros key ele ent Hm He Hz.
    destruct (live_scheduled c key ele ent Hwf Ht Hm He Hz)
      as (r & _ & Hin & _).
    rewrite Hnil in Hin. by apply elem_of_nil in Hin.
Qed.

(** X14.  In every reachable state the heap's bookkeeping is sound: the heap
    holds no record twice and every record's [index] field is its
    position -- what [heap.Fix(ent.exp.index)] relies on; and a live
    entry has an expiration exactly when it has a record, which then
    sits in the heap, is not canceled, and carries the entry's key and
    expiration. *)
Theorem records_match_entries c :
  reachable zero c ->
  NoDup (expHeap c) /\
  (forall (i : nat) r, expHeap c !! i = Some r ->
     exists x, exps c !! r = Some x /\ exp_index x = Z.of_nat i) /\
  (forall (key : K) ele ent,
     cache c !! key = Some ele -> elems c !! ele = Some ent ->
     (ent_expiration ent <> 0 <-> is_Some (ent_exp ent)) /\
     forall r, ent_exp ent = Some r ->
       r ∈ expHeap c /\
       exists x, exps c !! r = Some x /\ exp_key x = key /\
         exp_expiration x = ent_expiration ent /\ exp_canceled x = false).
Proof.
  intros Hreach. destruct (reachable_inv zero c Hreach) as (Hwf & _ & _).
  destruct (reachable_sched zero c Hreach) as [_ Ht].
  destruct (wf_heap c Hwf) as [Hnd Hidx].
  split; [done|]. split; [done|].
  intros key ele ent Hc He.
  destruct (wf_map c Hwf key ele Hc) as (Hin & ent0 & He0 & Hk).
  assert (ent0 = ent) by congruence. subst ent0.
  split.
  - split; [by apply (Ht ele ent)|]. intros [r Hr].
    by destruct (wf_exp c Hwf ele ent r Hin He Hr) as (_ & _ & _ & _ & _ & _ & ?).
  - intros r Hr.
    destruct (wf_exp c Hwf ele ent r Hin He Hr) as (Hrh & x & Hx & ? & ? & ? & _).
    split; [done|]. exists x. repeat split; congruence.
Qed.

End ScheduleFacts.

Section HeapFacts.
Context {K : Type} `{Countable K}.
Implicit Types (s : HeapSt K) (x : expEntry K) (o : list (expEntry K)) (h : list nat).
Local Arguments heap_Fix : simpl never.
Local Arguments heap_Push : simpl never.
Local Arguments heap_Pop : simpl never.

(** X15.  [expHeap.Pop] undoes [expHeap.Push]: it returns the record just
    pushed, restores the slice, and leaves the record's [index] at -1;
    on an empty slice it panics with an index out of range. *)
Theorem Push_then_Pop o h (r : nat) x :
  o !! r = Some x ->
  (Push r ;; Pop) (o, h) = Ret r (<[r := set_exp_index (-1) x]> o, h) /\
  Pop (o, []) = Panic IndexOutOfRange (o, []).
Proof.
  intros Hx. split; [|done].
  assert (Hlt : (r < length o)%nat) by by eapply lookup_lt_Some.
  rewrite (bind_Ret _ _ _ _ _ (Push_last o h r x Hx)).
  rewrite (Pop_last _ (h ++ [r]) r (set_exp_index (Z.of_nat (length h)) x)).
  - rewrite list_insert_insert_eq, length_app. simpl.
    replace (length h + 1 - 1)%nat with (length h) by lia.
    by rewrite take_app_length.
  - apply last_snoc.
  - by apply list_lookup_insert_eq.
Qed.

(** X16.  [heap.Pop] on a min-heap with sound bookkeeping returns the root,
    which expires no later than any record left behind, removes exactly
    that record and leaves a min-heap with sound bookkeeping; on an empty
    heap it panics. *)
Theorem heap_Pop_earliest s :
  hwf s -> hord s ->
  match s.2 !! 0%nat with
  | None => heap_Pop s = Panic IndexOutOfRange s
  | Some r0 =>
      exists s', heap_Pop s = Ret r0 s' /\ hwf s' /\ hord s' /\
        s.2 ≡ₚ r0 :: s'.2 /\ hframe s s' /\
        forall r x0 x, s.1 !! r0 = Some x0 -> r ∈ s'.2 -> s.1 !! r = Some x ->
          exp_expiration x0 <= exp_expiration x
  end.
Proof.
  destruct s as [o h]. intros Hwf Hord. simpl.
  destruct (h !! 0%nat) as [r0|] eqn:Hr0.
  - destruct (heap_Pop_ok o h r0 Hwf Hr0) as (s' & Hrun & Hwf' & Hf & Hp).
    exists s'. split; [done|]. split; [done|].
    split; [by apply (heap_Pop_ord o h r0 s')|].
    split; [done|]. split; [done|].
    intros r x0 x Hx0 Hin Hx.
    assert (Hin' : r ∈ h) by (rewrite Hp; by right).
    apply list_elem_of_lookup in Hin' as [j Hj].
    assert (Hkj : kat (o, h) j = Some (exp_expiration x)).
    { unfold kat. simpl. by rewrite Hj, Hx. }
    destruct (hord_root _ j _ Hwf Hord Hkj) as (a & Ha & Hle).
    unfold kat in Ha. simpl in Ha, Hx0. rewrite Hr0, Hx0 in Ha.
    simpl in Ha. injection Ha as <-. done.
  - assert (h = []) by (destruct h; [done|discriminate]). by subst h.
Qed.

(** X17.  [heap.Push] of a record that is not in the heap adds exactly that
    record and keeps the min-heap and its bookkeeping. *)
Theorem heap_Push_keeps o h (r : nat) x :
  hwf (o, h) -> hord (o, h) -> o !! r = Some x -> r ∉ h ->
  exists s', heap_Push r (o, h) = Ret tt s' /\ hwf s' /\ hord s' /\
    s'.2 ≡ₚ r :: h /\ hframe (o, h) s'.
Proof.
  intros Hwf Hord Hx Hr.
  destruct (heap_Push_ok o h r x Hwf Hx Hr) as (s' & Hrun & Hwf' & Hf & Hp).
  exists s'. split; [done|]. split; [done|].
  split; [by apply (heap_Push_ord o h r x s')|]. done.
Qed.

(** X18.  After the expiration of the record at position [i] has been changed,
    [heap.Fix] at [i] permutes the heap back into a min-heap, whatever the
    new expiration is. *)
Theorem heap_Fix_restores o h (i r : nat) x (e : Z) :
  hwf (o, h) -> hord (o, h) -> h !! i = Some r -> o !! r = Some x ->
  exists s', heap_Fix (Z.of_nat i) (<[r := set_exp_expiration e x]> o, h)
             = Ret tt s' /\
    hwf s' /\ hord s' /\ s'.2 ≡ₚ h /\
    exists x', s'.1 !! r = Some x' /\ exp_expiration x' = e /\
      exp_key x' = exp_key x /\ exp_canceled x' = exp_canceled x.
Proof.
  intros Hwf Hord Hi Hx.
  assert (Hh : hwf (<[r := set_exp_expiration e x]> o, h)).
  { by eapply hwf_same_index. }
  assert (Hilt : (i < length h)%nat) by by eapply lookup_lt_Some.
  destruct (heap_Fix_ok i _ Hh Hilt) as (s' & Hrun & Hwf' & [_ Hf] & Hp).
  exists s'. split; [done|]. split; [done|].
  split; [by apply (refresh_sorted o h i r x e s')|]. split; [done|].
  destruct (Hf r (set_exp_expiration e x)) as (x' & Hx' & ? & ? & ?).
  { simpl. apply list_lookup_insert_eq. by eapply lookup_lt_Some. }
  by exists x'.
Qed.

End HeapFacts.

Section Recency.
Context {K : Type} `{Countable K} {V : Type} (zero : V).
Implicit Types (c : Cache K V) (ent : entry K V) (x : expEntry K).
Local Arguments heap_Fix : simpl never.
Local Arguments heap_Push : simpl never.
Local Arguments heap_Pop : simpl never.
Local Arguments removeOldestLocked : simpl never.

(** With room for two, a write never evicts the element at the front
    of the list. *)
Lemma front_survives c (key key' : K) (value : V) ttl now ele c' :
  cache_inv c -> 2 <= capacity c ->
  cache c !! key = Some ele -> head (ll c) = Some ele ->
  (0 < ttl -> 0 < now) ->
  SetWithTTL key' value ttl now c = Ret tt c' ->
  cache c' !! key = Some ele.
Proof.
  intros (Hwf & Hpos & Hcap) Hcap2 Hc Hhead Hnow Hrun.
  destruct (cache c !! key') as [ele'|] eqn:Hc'.
  - destruct (SetWithTTL_update_ok c key' value ttl now ele' Hwf Hc' Hnow)
      as (c0 & Hrun0 & _ & _ & Hm & _).
    assert (c0 = c') by congruence. subst c0. by rewrite Hm.
  - destruct (SetWithTTL_insert_state c key' value ttl now Hwf Hc' Hnow)
      as (c1 & rec & Hev & Hwf1 & Hll & Hm & Hcp & _).
    assert (Hkk : key <> key') by (intros ->; congruence).
    assert (Hne : ll c1 <> []) by by rewrite Hll.
    pose proof (evict_if_over_state c1 Hwf1 Hne) as Hst.
    rewrite Hev in Hrun.
    destruct (Z.ltb_spec (capacity c1) (list_Len c1)) as [Hover|Hfit].
    + destruct Hst as (l & old & ent & Hsnoc & He & Hck & Hst & _).
      rewrite Hst in Hrun. injection Hrun as <-.
      destruct (unlink_cancel_frame c1 old (ent_key ent) (ent_exp ent))
        as (_ & _ & _ & _ & ->).
      assert (Hold : old <> ele).
      { intros ->. destruct (ll c) as [|a rest] eqn:Hlc; [done|].
        simpl in Hhead. injection Hhead as ->.
        assert (Hlen : (2 <= length (ele :: rest))%nat).
        { unfold list_Len in Hover. rewrite Hll in Hover. simpl in Hover.
          simpl. lia. }
        pose proof (wf_nodup c Hwf) as Hnd. rewrite Hlc in Hnd.
        apply NoDup_cons in Hnd as [Hnin _].
        rewrite Hll in Hsnoc.
        destruct l as [|b l]; simpl in Hsnoc; [done|].
        injection Hsnoc as _ Hs.
        destruct l as [|b' l]; simpl in Hs.
        - injection Hs as Hr. subst rest. simpl in Hlen. lia.
        - injection Hs as _ Hr. apply Hnin. rewrite Hr. set_solver. }
      rewrite lookup_delete_ne.
      * rewrite Hm. by rewrite lookup_insert_ne.
      * intros Hk. rewrite Hk, Hm, lookup_insert_ne in Hck by done.
        congruence.
    + rewrite Hst in Hrun. injection Hrun as <-.
      rewrite Hm. by rewrite lookup_insert_ne.
Qed.

(** X7.  A key that was just read with success is the most recently used:
    in a cache of capacity at least 2, the next write -- of any key --
    does not evict it. *)
Theorem Get_protects_from_eviction c (key key' : K) (now : Z) (v value : V)
    (ttl now' : Z) c1 :
  reachable zero c -> 2 <= capacity c ->
  Get zero key now c = Ret (v, true) c1 -> (0 < ttl -> 0 < now') ->
  exists c2, SetWithTTL key' value ttl now' c1 = Ret tt c2 /\
    cache c2 !! key = cache c !! key /\ is_Some (cache c2 !! key).
Proof.
  intros Hreach Hcap Hget Hnow.
  pose proof (reachable_inv zero c Hreach) as Hinv.
  pose proof Hinv as (Hwf & _ & _).
  destruct (Get_inv zero c key now Hinv) as (v0 & b0 & c0 & Hget0 & Hinv1).
  assert (c0 = c1) by congruence. subst c0.
  destruct (cache c !! key) as [ele|] eqn:Hc.
  - destruct (wf_map c Hwf key ele Hc) as (Hin & ent & He & Hk).
    destruct (decide (ent_expiration ent <> 0 /\ ent_expiration ent < now))
      as [[Hz Hlt]|Hno].
    { rewrite (Get_expired zero c key now ele ent Hc He Hz Hlt) in Hget.
      discriminate. }
    rewrite (Get_hit zero c key now ele ent Hc He) in Hget by lia.
    injection Hget as _ <-.
    destruct (SetWithTTL_inv (set_ll (list_MoveToFront ele (ll c)) c)
                key' value ttl now' Hinv1 Hnow) as (c2 & Hrun & _).
    exists c2. split; [done|].
    assert (Hfs : cache c2 !! key = Some ele).
    { apply (front_survives _ key key' value ttl now' ele c2 Hinv1);
        [done|done| |done|done].
      simpl. by rewrite (list_MoveToFront_elem ele (ll c) Hin). }
    rewrite Hfs. by split; [|eexists].
  - rewrite (Get_absent zero c key now Hc) in Hget. discriminate.
Qed.

(** X8.  A write is the most recent use as well: in a cache of capacity at
    least 2 the key written last survives the next write of any key. *)
Theorem Set_protects_from_eviction c (key key' : K) (value value' : V)
    (ttl now ttl' now' : Z) :
  reachable zero c -> 2 <= capacity c ->
  (0 < ttl -> 0 < now) -> (0 < ttl' -> 0 < now') ->
  exists c1 c2, SetWithTTL key value ttl now c = Ret tt c1 /\
    SetWithTTL key' value' ttl' now' c1 = Ret tt c2 /\
    is_Some (cache c2 !! key).
Proof.
  intros Hreach Hcap Hnow Hnow'.
  pose proof (reachable_inv zero c Hreach) as Hinv.
  destruct (SetWithTTL_stores c key value ttl now Hinv Hnow)
    as (c1 & ele & rec & Hrun1 & Hinv1 & Hm1 & _ & Hhead).
  destruct (SetWithTTL_inv c1 key' value' ttl' now' Hinv1 Hnow')
    as (c2 & Hrun2 & _).
  exists c1, c2. split; [done|]. split; [done|].
  assert (Hcap1 : capacity c1 = capacity c).
  { destruct (cache c !! key) as [e0|] eqn:Hc.
    - destruct Hinv as (Hwf & _).
      destruct (SetWithTTL_update_ok c key value ttl now e0 Hwf Hc Hnow)
        as (c0 & Hr0 & _ & _ & _ & Hcp). congruence.
    - destruct Hinv as (Hwf & _).
      destruct (SetWithTTL_insert_state c key value ttl now Hwf Hc Hnow)
        as (c0 & rec0 & Hev & Hwf0 & Hll0 & _ & Hcp & _).
      rewrite Hev in Hrun1. unfold evict_if_over in Hrun1.
      destruct (capacity c0 <? list_Len c0).
      + assert (Hne : ll c0 <> []) by by rewrite Hll0.
        destruct (snoc_of_nonempty _ Hne) as (l & old & Hsnoc).
        destruct (removeOldestLocked_ok c0 l old Hwf0 Hsnoc)
          as (ent & _ & Hr & _).
        rewrite Hr in Hrun1. injection Hrun1 as <-.
        destruct (unlink_cancel_frame c0 old (ent_key ent) (ent_exp ent))
          as (_ & -> & _). done.
      + injection Hrun1 as <-. done. }
  exists ele.
  apply (front_survives c1 key key' value' ttl' now' ele c2 Hinv1);
    [lia|done..].
Qed.

End Recency.

Section Locality.
Context {K : Type} `{Countable K} {V : Type} (zero : V).
Implicit Types (c : Cache K V) (ent : entry K V) (x : expEntry K).
Local Arguments heap_Fix : simpl never.
Local Arguments heap_Push : simpl never.
Local Arguments heap_Pop : simpl never.
Local Arguments removeOldestLocked : simpl never.

Lemma updateCh_cancel_exp c (r : option nat) :
  updateCh (cancel_exp r c) = updateCh c.
Proof.
  unfold cancel_exp. destruct r as [r|]; [|done]. by destruct (exps c !! r).
Qed.

Lemma evict_if_over_updateCh c c' :
  wf c -> evict_if_over c = Ret tt c' -> updateCh c' = updateCh c.
Proof.
  intros Hwf. unfold evict_if_over.
  destruct (capacity c <? list_Len c); [|by intros [= <-]].
  intros Hrun. destruct (last (ll c)) as [old|] eqn:Hlast.
  - apply last_Some in Hlast as [l Hll].
    destruct (removeOldestLocked_ok c l old Hwf Hll) as (ent & _ & Hr & _).
    rewrite Hr in Hrun. injection Hrun as <-. simpl.
    apply updateCh_cancel_exp.
  - apply last_None in Hlast.
    rewrite (removeOldestLocked_nil c Hlast) in Hrun. by injection Hrun as <-.
Qed.

(** X19.  [SetWithTTL] with a positive [ttl] always leaves a signal pending
    on [updateCh] (the non-blocking send succeeds or finds one pending);
    with [ttl <= 0] it sends nothing, whichever path it takes. *)
Theorem SetWithTTL_signals c (key : K) (value : V) (ttl now : Z) :
  reachable zero c -> (0 < ttl -> 0 < now) ->
  exists c', SetWithTTL key value ttl now c = Ret tt c' /\
    updateCh c' = if 0 <? ttl then true else updateCh c.
Proof.
  intros Hreach Hnow. pose proof (reachable_inv zero c Hreach) as Hinv.
  pose proof Hinv as (Hwf & _ & _).
  destruct (SetWithTTL_inv c key value ttl now Hinv Hnow) as (c' & Hrun & _).
  exists c'. split; [done|].
  destruct (cache c !! key) as [ele|] eqn:Hc.
  - destruct (wf_map c Hwf key ele Hc) as (Hin & ent & He & Hk).
    destruct (Z.ltb_spec 0 ttl) as [Httl|Httl].
    + destruct (ent_exp ent) as [r|] eqn:Hexp.
      * destruct (refresh_wf c ele ent r value (now + ttl) Hwf Hin He Hexp)
          as (x & s' & Hx & Hfix & _); [lia|].
        rewrite (SetWithTTL_update_fix c key value ttl now ele ent r x s'
                   Hc He Hexp Hx Httl Hfix) in Hrun.
        by injection Hrun as <-.
      * assert (Hwf1 : wf (set_elems
          (<[ele := mkEntry (ent_key ent) value (now + ttl) None]> (elems c)) c)).
        { apply (wf_set_elem c ele ent); [done..|]. simpl. by intros ?. }
        assert (Hlt : (ele < length (elems c))%nat) by by eapply lookup_lt_Some.
        destruct (attach_wf _ ele (mkEntry (ent_key ent) value (now + ttl) None)
                    key Hwf1 Hin) as (s' & Hpush & _).
        { simpl. by apply list_lookup_insert_eq. }
        { done. } { simpl. lia. } { done. }
        simpl in Hpush.
        rewrite (SetWithTTL_update_push c key value ttl now ele ent s'
                   Hc He Hexp Httl Hpush) in Hrun.
        by injection Hrun as <-.
    + rewrite (SetWithTTL_update_clear c key value ttl now ele ent Hc He) in Hrun;
        [|intros r Hr;
          by destruct (wf_exp c Hwf ele ent r Hin He Hr) as (_ & x & -> & _)
         |done].
      injection Hrun as <-. simpl. apply updateCh_cancel_exp.
  - destruct (Z.ltb_spec 0 ttl) as [Httl|Httl].
    + pose proof (wf_insert c key value (now + ttl) Hwf Hc) as Hwf1.
      fold (link key value (now + ttl) c) in Hwf1.
      destruct (attach_wf (link key value (now + ttl) c) (length (elems c))
                  (mkEntry key value (now + ttl) None) key Hwf1)
        as (s' & Hpush & Hwf' & _).
      { simpl. by left. }
      { simpl. rewrite lookup_app_r by lia. by rewrite Nat.sub_diag. }
      { done. } { simpl. lia. } { done. }
      simpl in Hpush.
      rewrite (SetWithTTL_insert_ttl c key value ttl now s' Hc Httl Hpush)
        in Hrun.
      by rewrite (evict_if_over_updateCh _ c' (wf_set_updateCh _ true Hwf') Hrun).
    + rewrite (SetWithTTL_insert_plain c key value ttl now Hc Httl) in Hrun.
      by rewrite (evict_if_over_updateCh _ c' (wf_insert c key value 0 Hwf Hc)
                    Hrun).
Qed.

(** X20.  A write is local: [SetWithTTL] of [key'] leaves every other key
    that stays bound with the element, the value and the expiration it
    had; and another key loses its binding only when [key'] is new, the
    cache is full and that key's element is at the back of the list. *)
Theorem write_leaves_others c (key key' : K) (value : V) (ttl now : Z) ele ent :
  reachable zero c -> key <> key' -> (0 < ttl -> 0 < now) ->
  cache c !! key = Some ele -> elems c !! ele = Some ent ->
  exists c', SetWithTTL key' value ttl now c = Ret tt c' /\
    ((cache c' !! key = Some ele /\ elems c' !! ele = Some ent) \/
     (cache c' !! key = None /\ cache c !! key' = None /\
      list_Len c = capacity c /\ last (ll c) = Some ele)).
Proof.
  intros Hreach Hne Hnow Hc He.
  destruct (reachable_inv zero c Hreach) as (Hwf & Hpos & Hcap).
  assert (Hlt : (ele < length (elems c))%nat) by by eapply lookup_lt_Some.
  destruct (cache c !! key') as [ele'|] eqn:Hc'.
  - destruct (wf_map c Hwf key' ele' Hc') as (_ & ent' & He' & Hk').
    destruct (SetWithTTL_update_state c key' value ttl now ele' ent' Hwf Hc' He'
                Hnow) as (c' & rec & Hrun & _ & _ & Hm & _ & Hel).
    exists c'. split; [done|]. left. split; [by rewrite Hm|].
    rewrite Hel, list_lookup_insert_ne; [done|].
    intros ->. destruct (wf_map c Hwf key ele Hc) as (_ & e0 & He0 & Hk0).
    congruence.
  - destruct (SetWithTTL_insert_state c key' value ttl now Hwf Hc' Hnow)
      as (c1 & rec & Hev & Hwf1 & Hll & Hm & Hcp & Hel & _).
    assert (Hnew : ll c1 <> []) by by rewrite Hll.
    pose proof (evict_if_over_state c1 Hwf1 Hnew) as Hst.
    assert (Hm1 : cache c1 !! key = Some ele).
    { rewrite Hm. by rewrite lookup_insert_ne. }
    assert (He1 : elems c1 !! ele = Some ent).
    { rewrite Hel. by rewrite lookup_app_l. }
    destruct (Z.ltb_spec (capacity c1) (list_Len c1)) as [Hover|Hfit].
    + destruct Hst as (l & old & ento & Hsnoc & Heo & Hck & Hst & _).
      destruct (unlink_cancel_frame c1 old (ent_key ento) (ent_exp ento))
        as (Hel' & _ & _ & _ & Hm').
      eexists. split; [by rewrite Hev|].
      destruct (decide (ent_key ento = key)) as [Hk|Hk].
      * right. rewrite Hm', Hk, lookup_delete_eq. split; [done|].
        split; [done|].
        assert (old = ele) by (rewrite Hk in Hck; congruence). subst old.
        split.
        { unfold list_Len in *. rewrite Hll in Hover. simpl in Hover. lia. }
        rewrite Hll in Hsnoc. destruct l as [|a l]; simpl in Hsnoc.
        { injection Hsnoc as Hs _. lia. }
        injection Hsnoc as _ ->. apply last_snoc.
      * left. rewrite Hm', Hel'. by rewrite lookup_delete_ne.
    + exists c1. split; [by rewrite Hev|]. by left.
Qed.

End Locality.


(** ** The clients, run *)

(** C3 as stated fails: after [a], [b], [c], [Get a] and [d] in a cache
    of capacity 2, [a] is not retrievable. *)
Lemma lru_example_refuted :
  ~ (exists c, state_after 0%nat 2 lru_ops = Some c /\
       (exists v c', Get 0%nat "a" 1 c = Ret (v, true) c') /\
       (exists v c', Get 0%nat "d" 1 c = Ret (v, true) c') /\
       (exists v c', Get 0%nat "b" 1 c = Ret (v, false) c')).
Proof.
  intros (c & Hc & (v & c' & Ha) & _).
  vm_compute in Hc. injection Hc as <-.
  vm_compute in Ha. discriminate.
Qed.

(** C3, amended.  In a cache of capacity 2, inserting [a], [b], [c]
    already evicts [a]; after the following [Get a] (a miss) and [Set d],
    [b] is evicted as well, [c] and [d] are retrievable and [a] and [b]
    are not. *)
Theorem lru_example :
  (exists c, state_after 0%nat 2 [OpSet "a" 1%nat; OpSet "b" 2%nat; OpSet "c" 3%nat]
             = Some c /\
     forall now, Get 0%nat "a" now c = Ret (0%nat, false) c) /\
  exists c, state_after 0%nat 2 lru_ops = Some c /\
    forall now,
      Get 0%nat "a" now c = Ret (0%nat, false) c /\
      Get 0%nat "b" now c = Ret (0%nat, false) c /\
      (exists c', Get 0%nat "c" now c = Ret (3%nat, true) c') /\
      (exists c', Get 0%nat "d" now c = Ret (4%nat, true) c').
Proof.
  split.
  - eexists. split; [vm_compute; reflexivity|]. intros now. reflexivity.
  - eexists. split; [vm_compute; reflexivity|]. intros now.
    repeat split; try reflexivity; eexists; reflexivity.
Qed.

(** C4.  After [SetWithTTL k] (ttl 10 at instant 1), [Get k] at instant
    12 and [SetWithTTL k] again, the heap holds two records for [k] that
    are not canceled: the lazy removal in [Get] did not cancel the first.
    With [Delete k] in place of the [Get], only one is left. *)
Theorem stale_record_after_lazy_expiry :
  (exists c, state_after 0%nat 2 stale_ops = Some c /\
     reachable 0%nat c /\ pending "k" c = [0%nat; 1%nat]) /\
  (exists c, state_after 0%nat 2 delete_ops = Some c /\
     pending "k" c = [1%nat]).
Proof.
  split.
  - eexists. split; [vm_compute; reflexivity|]. split.
    + apply (state_after_reachable 0%nat 2 stale_ops); [clock|].
      vm_compute. reflexivity.
    + vm_compute. reflexivity.
  - eexists. split; [vm_compute; reflexivity|]. vm_compute. reflexivity.
Qed.

(** C6 as stated fails: the sweeper pops a due record whose expiration
    (11) differs from the one stored in the entry of its key (13), and
    removes that entry all the same. *)
Lemma sweep_removes_on_mismatch :
  exists c r0 x ele ent c',
    state_after 0%nat 2 mismatch_ops = Some c /\
    expHeap c !! 0%nat = Some r0 /\ exps c !! r0 = Some x /\
    exp_canceled x = false /\ exp_expiration x <= 14 /\
    cache c !! exp_key x = Some ele /\ elems c !! ele = Some ent /\
    ent_expiration ent <> exp_expiration x /\
    sweep_iter 14 c = Ret true c' /\
    cache c' !! exp_key x = None /\ ll c' = [].
Proof.
  do 6 eexists. split; [vm_compute; reflexivity|].
  split; [vm_compute; reflexivity|].
  split; [vm_compute; reflexivity|].
  split; [reflexivity|]. split; [vm_compute; discriminate|].
  split; [vm_compute; reflexivity|].
  split; [vm_compute; reflexivity|].
  split; [vm_compute; discriminate|].
  split; [vm_compute; reflexivity|].
  split; vm_compute; reflexivity.
Qed.

Lemma plain_state_reachable : reachable 0%nat plain_state.
Proof.
  apply (state_after_reachable 0%nat 2 plain_ops); [clock|].
  vm_compute. reflexivity.
Qed.

Lemma ttl_state_reachable : reachable 0%nat ttl_state.
Proof.
  apply (state_after_reachable 0%nat 2 ttl_ops); [clock|].
  vm_compute. reflexivity.
Qed.

Lemma capacity_and_index_agree_witness :
  reachable 0%nat plain_state /\
  list_Len plain_state <= capacity plain_state /\
  size (cache plain_state) = length (ll plain_state).
Proof.
  split; [exact plain_state_reachable|].
  destruct (capacity_and_index_agree 0%nat plain_state plain_state_reachable)
    as (Hcap & Hsz & _).
  split; [exact Hcap|exact Hsz].
Defined.

Lemma Get_spec_witness :
  reachable 0%nat plain_state /\
  exists c', Get 0%nat "a" 5 plain_state = Ret (1%nat, true) c' /\
    ll c' = [0%nat; 1%nat].
Proof.
  split; [exact plain_state_reachable|].
  pose proof (Get_spec 0%nat plain_state "a" 5 plain_state_reachable) as Hs.
  change (cache plain_state !! "a") with (Some 0%nat) in Hs.
  destruct Hs as (ent & He & _ & _ & Hs).
  injection He as <-.
  destruct (decide _) as [[Hz _]|_]; [by destruct Hz|].
  destruct Hs as (c' & Hg & _ & Hl). exists c'. split; [exact Hg|exact Hl].
Defined.

Lemma SetWithTTL_existing_witness :
  reachable 0%nat ttl_state /\
  exists c', SetWithTTL "k" 2%nat 5 3 ttl_state = Ret tt c' /\
    cache c' = cache ttl_state /\
    expHeap c' ≡ₚ expHeap ttl_state.
Proof.
  split; [exact ttl_state_reachable|].
  destruct (SetWithTTL_existing 0%nat ttl_state "k" 2%nat 5 3 0%nat
              (mkEntry "k" 1%nat 11 (Some 0%nat)) ttl_state_reachable)
    as (c' & Hrun & Hc & _ & Hrest); [lia|reflexivity|reflexivity|].
  simpl in Hrest. destruct Hrest as (_ & _ & Hp & _).
  exists c'. split; [exact Hrun|]. split; [exact Hc|exact Hp].
Defined.

Lemma sweep_iter_spec_witness :
  reachable 0%nat ttl_state /\
  exists c', sweep_iter 20 ttl_state = Ret true c' /\
    ll c' = [] /\ cache c' = delete "k" (cache ttl_state).
Proof.
  split; [exact ttl_state_reachable|].
  pose proof (sweep_iter_spec 0%nat ttl_state 20 0%nat (mkExp "k" 11 0 false)
                ttl_state_reachable eq_refl eq_refl) as Hs.
  simpl in Hs. destruct Hs as (c' & Hrun & _ & _ & Hs).
  change (cache ttl_state !! "k") with (Some 0%nat) in Hs.
  destruct Hs as (ent & He & Hs). injection He as <-.
  destruct (decide _) as [_|Hno]; [|simpl in Hno; lia].
  destruct Hs as [Hl Hc]. exists c'. split; [exact Hrun|]. split; [exact Hl|exact Hc].
Defined.

Lemma SetCapacity_spec_witness :
  reachable 0%nat plain_state /\ 0 < 1 /\
  exists c', SetCapacity 1 plain_state = Ret tt c' /\
    capacity c' = 1 /\ ll c' = [1%nat] /\
    cache c' !! "b" = Some 1%nat /\ cache c' !! "a" = None.
Proof.
  split; [exact plain_state_reachable|]. split; [lia|].
  destruct (SetCapacity_spec 0%nat plain_state 1 plain_state_reachable)
    as (c' & Hrun & Hcap & _ & Hl & _ & Hm & _); [lia|].
  exists c'. split; [exact Hrun|]. split; [exact Hcap|]. split; [exact Hl|].
  split; [exact (Hm "b")|exact (Hm "a")].
Defined.

Lemma invalid_capacity_spec_witness :
  reachable 0%nat plain_state /\
  NewCache (K:=string) (V:=nat) 0
  = inl (PanicMsg "capacity must be greater than zero") /\
  SetCapacity (-1) plain_state
  = Panic (PanicMsg "new capacity must be greater than zero") plain_state.
Proof.
  split; [exact plain_state_reachable|].
  destruct (invalid_capacity_spec 0%nat plain_state 0 (-1) plain_state_reachable)
    as (_ & Hn & _ & _ & Hs).
  split; [apply Hn; lia|apply Hs; lia].
Defined.

Lemma update_keeps_size_witness :
  reachable 0%nat plain_state /\ is_Some (cache plain_state !! "a") /\
  exists c', Set_ "a" 7%nat plain_state = Ret tt c' /\
    list_Len c' = 2 /\ cache c' = cache plain_state.
Proof.
  split; [exact plain_state_reachable|].
  assert (Hk : is_Some (cache plain_state !! "a")) by (by exists 0%nat).
  split; [exact Hk|].
  destruct (update_keeps_size 0%nat plain_state "a" 7%nat 0 0
              plain_state_reachable Hk) as (_ & c' & Hrun & Hlen & _ & Hc & _);
    [lia|].
  exists c'. split; [exact Hrun|]. split; [exact Hlen|exact Hc].
Defined.

Lemma Get_not_found_zero_witness :
  Get 0%nat "z" 5 plain_state = Ret (0%nat, false) plain_state /\ 0%nat = 0%nat.
Proof.
  assert (Hg : Get 0%nat "z" 5 plain_state = Ret (0%nat, false) plain_state)
    by reflexivity.
  split; [exact Hg|].
  exact (Get_not_found_zero 0%nat plain_state "z" 5 0%nat plain_state Hg).
Defined.

Lemma ttl_heap_hwf : hwf ttl_heap.
Proof.
  split; [apply NoDup_singleton|].
  intros [|i] r Hr; [|done]. injection Hr as <-. by eexists.
Qed.

Lemma ttl_heap_hord : hord ttl_heap.
Proof. intros i j a b [->| ->] Hj; simpl in Hj; lia. Qed.

Lemma Set_then_Get_witness :
  reachable 0%nat plain_state /\
  exists c1 c2, SetWithTTL "a" 9%nat 0 0 plain_state = Ret tt c1 /\
    Get 0%nat "a" 5 c1 = Ret (9%nat, true) c2.
Proof.
  split; [exact plain_state_reachable|].
  destruct (Set_then_Get 0%nat plain_state "a" 9%nat 0 0 5 plain_state_reachable)
    as (c1 & c2 & Hs & Hg & _); [lia|].
  exists c1, c2. split; [exact Hs|exact Hg].
Defined.

Lemma Get_after_expiry_witness :
  reachable 0%nat plain_state /\ 0 < 10 /\ 0 < 1 /\ 1 + 10 < 20 /\
  exists c1 c2, SetWithTTL "t" 9%nat 10 1 plain_state = Ret tt c1 /\
    Get 0%nat "t" 20 c1 = Ret (0%nat, false) c2.
Proof.
  split; [exact plain_state_reachable|]. repeat (split; [lia|]).
  destruct (Get_after_expiry 0%nat plain_state "t" 9%nat 10 1 20
              plain_state_reachable) as (c1 & c2 & Hs & Hg & _); [lia..|].
  exists c1, c2. split; [exact Hs|exact Hg].
Defined.

Lemma Delete_spec_witness :
  reachable 0%nat plain_state /\
  exists c', Delete "a" plain_state = Ret tt c' /\
    cache c' = delete "a" (cache plain_state) /\ ll c' = [1%nat].
Proof.
  split; [exact plain_state_reachable|].
  pose proof (Delete_spec 0%nat plain_state "a" plain_state_reachable) as Hs.
  change (cache plain_state !! "a") with (Some 0%nat) in Hs.
  destruct Hs as (ent & c' & _ & Hd & Hc & Hl & _).
  exists c'. split; [exact Hd|]. split; [exact Hc|exact Hl].
Defined.

Lemma removeOldestLocked_spec_witness :
  reachable 0%nat plain_state /\
  exists c', removeOldestLocked plain_state = Ret tt c' /\
    ll plain_state = ll c' ++ [0%nat].
Proof.
  split; [exact plain_state_reachable|].
  pose proof (removeOldestLocked_spec 0%nat plain_state plain_state_reachable)
    as Hs.
  change (last (ll plain_state)) with (Some 0%nat) in Hs.
  destruct Hs as (ent & c' & _ & _ & Hr & Hl & _).
  exists c'. split; [exact Hr|exact Hl].
Defined.

Lemma insert_evicts_lru_witness :
  reachable 0%nat plain_state /\ cache plain_state !! "z" = None /\
  exists c', SetWithTTL "z" 3%nat 0 0 plain_state = Ret tt c' /\
    cache c' !! "z" = Some 2%nat.
Proof.
  split; [exact plain_state_reachable|]. split; [reflexivity|].
  destruct (insert_evicts_lru 0%nat plain_state "z" 3%nat 0 0
              plain_state_reachable) as (c' & Hs & Hc & _);
    [reflexivity|lia|].
  exists c'. split; [exact Hs|exact Hc].
Defined.

Lemma sweep_spares_unexpired_witness :
  reachable 0%nat ttl_state /\
  exists c', sweep 5 ttl_state = Ret tt c' /\ cache c' !! "k" = Some 0%nat.
Proof.
  split; [exact ttl_state_reachable|].
  destruct (sweep_spares_unexpired 0%nat ttl_state 5 ttl_state_reachable)
    as (c' & Hs & _ & _ & _ & _ & Hk).
  exists c'. split; [exact Hs|].
  apply (Hk "k" 0%nat (mkEntry "k" 1%nat 11 (Some 0%nat)));
    [reflexivity|reflexivity|simpl; lia].
Defined.

Lemma nextWait_spec_witness :
  reachable 0%nat ttl_state /\
  exists w c', nextWait 5 ttl_state = Ret w c' /\ ll c' = ll ttl_state.
Proof.
  split; [exact ttl_state_reachable|].
  destruct (nextWait_spec 0%nat ttl_state 5 ttl_state_reachable)
    as (w & c' & Hn & Hl & _).
  exists w, c'. split; [exact Hn|exact Hl].
Defined.

Lemma heap_root_earliest_witness :
  reachable 0%nat ttl_state /\ hord (exps ttl_state, expHeap ttl_state).
Proof.
  split; [exact ttl_state_reachable|].
  exact (proj1 (heap_root_earliest 0%nat ttl_state ttl_state_reachable)).
Defined.

Lemma sweep_removes_expired_witness :
  reachable 0%nat ttl_state /\
  exists c', sweep 20 ttl_state = Ret tt c' /\ cache c' !! "k" = None.
Proof.
  split; [exact ttl_state_reachable|].
  destruct (sweep_removes_expired 0%nat ttl_state 20 ttl_state_reachable)
    as (c' & Hs & Hiff).
  exists c'. split; [exact Hs|].
  destruct (cache c' !! "k") as [ele|] eqn:Hk; [|reflexivity].
  destruct (proj1 (Hiff "k" ele) Hk) as (Hc & ent & He & Hexp).
  change (cache ttl_state !! "k") with (Some 0%nat) in Hc.
  injection Hc as <-. injection He as <-. simpl in Hexp. lia.
Defined.

Lemma nextWait_deadline_witness :
  reachable 0%nat ttl_state /\
  nextWait 5 ttl_state = Ret (Some 6) ttl_state /\ 0 <= 6.
Proof.
  split; [exact ttl_state_reachable|].
  assert (Hn : nextWait 5 ttl_state = Ret (Some 6) ttl_state) by reflexivity.
  split; [exact Hn|].
  exact (proj1 (nextWait_deadline 0%nat ttl_state 5 6 ttl_state
                  ttl_state_reachable Hn)).
Defined.

Lemma records_match_entries_witness :
  reachable 0%nat ttl_state /\ NoDup (expHeap ttl_state).
Proof.
  split; [exact ttl_state_reachable|].
  exact (proj1 (records_match_entries 0%nat ttl_state ttl_state_reachable)).
Defined.

Lemma Push_then_Pop_witness :
  ttl_heap.1 !! 0%nat = Some (mkExp "k" 11 0 false) /\
  (Push 0%nat ;; Pop) (ttl_heap.1, [])
  = Ret 0%nat ([mkExp "k" 11 (-1) false], []).
Proof.
  split; [reflexivity|].
  exact (proj1 (Push_then_Pop ttl_heap.1 [] 0%nat (mkExp "k" 11 0 false)
                  eq_refl)).
Defined.

Lemma heap_Pop_earliest_witness :
  hwf ttl_heap /\ hord ttl_heap /\
  exists s', heap_Pop ttl_heap = Ret 0%nat s' /\ hord s'.
Proof.
  split; [exact ttl_heap_hwf|]. split; [exact ttl_heap_hord|].
  pose proof (heap_Pop_earliest ttl_heap ttl_heap_hwf ttl_heap_hord) as Hs.
  change (ttl_heap.2 !! 0%nat) with (Some 0%nat) in Hs.
  destruct Hs as (s' & Hp & _ & Ho & _).
  exists s'. split; [exact Hp|exact Ho].
Defined.

Lemma heap_Push_keeps_witness :
  hwf ((ttl_heap.1, []) : HeapSt string) /\
  hord ((ttl_heap.1, []) : HeapSt string) /\
  exists s', heap_Push 0%nat (ttl_heap.1, []) = Ret tt s' /\ hord s'.
Proof.
  assert (Hw : hwf ((ttl_heap.1, []) : HeapSt string)).
  { split; [apply NoDup_nil_2|]. intros i r Hr. done. }
  assert (Ho : hord ((ttl_heap.1, []) : HeapSt string)).
  { intros i j a b _ Hj. simpl in Hj. lia. }
  split; [exact Hw|]. split; [exact Ho|].
  destruct (heap_Push_keeps ttl_heap.1 [] 0%nat (mkExp "k" 11 0 false) Hw Ho)
    as (s' & Hp & _ & Hord & _); [reflexivity|apply not_elem_of_nil|].
  exists s'. split; [exact Hp|exact Hord].
Defined.

Lemma heap_Fix_restores_witness :
  hwf ttl_heap /\ hord ttl_heap /\
  exists s', heap_Fix 0 ([mkExp "k" 99 0 false], [0%nat]) = Ret tt s' /\
    hord s'.
Proof.
  split; [exact ttl_heap_hwf|]. split; [exact ttl_heap_hord|].
  destruct (heap_Fix_restores ttl_heap.1 ttl_heap.2 0%nat 0%nat
              (mkExp "k" 11 0 false) 99 ttl_heap_hwf ttl_heap_hord)
    as (s' & Hf & _ & Ho & _); [reflexivity|reflexivity|].
  exists s'. split; [exact Hf|exact Ho].
Defined.

Lemma Get_protects_from_eviction_witness :
  reachable 0%nat plain_state /\ 2 <= capacity plain_state /\
  Get 0%nat "a" 5 plain_state
  = Ret (1%nat, true) (set_ll [0%nat; 1%nat] plain_state) /\
  exists c2, SetWithTTL "z" 3%nat 0 0 (set_ll [0%nat; 1%nat] plain_state)
             = Ret tt c2 /\ is_Some (cache c2 !! "a").
Proof.
  split; [exact plain_state_reachable|].
  assert (Hcap : 2 <= capacity plain_state) by (simpl; lia).
  assert (Hg : Get 0%nat "a" 5 plain_state
               = Ret (1%nat, true) (set_ll [0%nat; 1%nat] plain_state))
    by reflexivity.
  split; [exact Hcap|]. split; [exact Hg|].
  destruct (Get_protects_from_eviction 0%nat plain_state "a" "z" 5 1%nat 3%nat
              0 0 _ plain_state_reachable Hcap Hg) as (c2 & Hs & _ & Hk);
    [lia|].
  exists c2. split; [exact Hs|exact Hk].
Defined.

Lemma Set_protects_from_eviction_witness :
  reachable 0%nat plain_state /\ 2 <= capacity plain_state /\
  exists c1 c2, SetWithTTL "y" 8%nat 0 0 plain_state = Ret tt c1 /\
    SetWithTTL "z" 9%nat 0 0 c1 = Ret tt c2 /\ is_Some (cache c2 !! "y").
Proof.
  split; [exact plain_state_reachable|].
  assert (Hcap : 2 <= capacity plain_state) by (simpl; lia).
  split; [exact Hcap|].
  exact (Set_protects_from_eviction 0%nat plain_state "y" "z" 8%nat 9%nat
           0 0 0 0 plain_state_reachable Hcap ltac:(lia) ltac:(lia)).
Defined.

Lemma SetWithTTL_signals_witness :
  reachable 0%nat plain_state /\
  exists c', SetWithTTL "t" 9%nat 10 1 plain_state = Ret tt c' /\
    updateCh c' = true.
Proof.
  split; [exact plain_state_reachable|].
  destruct (SetWithTTL_signals 0%nat plain_state "t" 9%nat 10 1
              plain_state_reachable) as (c' & Hs & Hu); [lia|].
  exists c'. split; [exact Hs|exact Hu].
Defined.

Lemma write_leaves_others_witness :
  reachable 0%nat plain_state /\ "b" <> "a" /\
  cache plain_state !! "b" = Some 1%nat /\
  exists c', SetWithTTL "a" 7%nat 0 0 plain_state = Ret tt c'.
Proof.
  split; [exact plain_state_reachable|].
  assert (Hne : "b" <> "a") by discriminate.
  split; [exact Hne|]. split; [reflexivity|].
  destruct (write_leaves_others 0%nat plain_state "b" "a" 7%nat 0 0 1%nat
              (mkEntry "b" 2%nat 0 None) plain_state_reachable Hne)
    as (c' & Hs & _); [lia|reflexivity|reflexivity|].
  exists c'. exact Hs.
Defined.
